(** * 2048: the rule engine of [game.js], embedded and verified

    The embedding follows [src/game.js] function by function.  The
    module-scope variables of the script ([grid], [score], [bestScore],
    [hasWon], [isAnimating]) become the fields of a record that every
    function threads explicitly.  Array accesses are checked: reading or
    writing [a[i]] outside [0 .. length a - 1] is the error
    [OutOfBounds], so a run that ends in [Ok] performed in-range
    accesses only.  The DOM and [localStorage] are not part of the
    model. *)

From stdpp Require Import base numbers list list_numbers option.
From Stdlib Require String.

Local Open Scope Z_scope.

(** ** Results of fallible code *)

Inductive error : Type :=
  | OutOfBounds   (* an index outside an array *)
  | OutOfFuel.    (* a loop of the model ran longer than its bound *)

Inductive res (A : Type) : Type :=
  | Ok (a : A)
  | Err (e : error).
Arguments Ok {A} a.
Arguments Err {A} e.

#[global] Instance res_ret : MRet res := fun A a => Ok a.
#[global] Instance res_bind : MBind res := fun A B f m =>
  match m with
  | Ok a => f a
  | Err e => Err e
  end.

(** [xs.forEach(f)] for a callback that updates the state [St]. *)
Fixpoint forEach {A St : Type} (xs : list A) (f : A -> St -> res St) (s : St) : res St :=
  match xs with
  | [] => Ok s
  | a :: xs' => s' ← f a s; forEach xs' f s'
  end.

(** A [for] loop whose body may [return true]; falls through to [false]. *)
Fixpoint anyM {A : Type} (f : A -> res bool) (xs : list A) : res bool :=
  match xs with
  | [] => Ok false
  | a :: xs' => b ← f a; if (b : bool) then Ok true else anyM f xs'
  end.

(** ** Constants and data *)

Definition GRID_SIZE : Z := 4.

(** [{ x, y }]: [x] is the column, [y] the row. *)
Record cell : Type := Cell { x : Z; y : Z }.

#[global] Instance cell_eq_dec : EqDecision cell.
Proof. solve_decision. Defined.

Inductive direction : Type := up | down | left | right.

(** An entry of [mergedTiles]. *)
Record mergedTile : Type := MergedTile { row : Z; col : Z; value : Z }.

(** Rows of columns; [0] is the empty cell. *)
Abbreviation board := (list (list Z)).
Abbreviation flags := (list (list bool)).

(** [a[i]] for a number [i]. *)
Definition index {A : Type} (a : list A) (i : Z) : res A :=
  if bool_decide (0 <= i) then
    match a !! Z.to_nat i with
    | Some v => Ok v
    | None => Err OutOfBounds
    end
  else Err OutOfBounds.

(** [a[i] = v]. *)
Definition assign {A : Type} (a : list A) (i : Z) (v : A) : res (list A) :=
  if bool_decide (0 <= i < Z.of_nat (length a)) then Ok (<[Z.to_nat i := v]> a)
  else Err OutOfBounds.

(** [m[c.y][c.x]]. *)
Definition get {A : Type} (m : list (list A)) (c : cell) : res A :=
  r ← index m (y c); index r (x c).

(** [m[c.y][c.x] = v]. *)
Definition put {A : Type} (m : list (list A)) (c : cell) (v : A) : res (list (list A)) :=
  r ← index m (y c); r' ← assign r (x c) v; assign m (y c) r'.

(** [Array(GRID_SIZE).fill(null).map(() => Array(GRID_SIZE).fill(v))]. *)
Definition filled {A : Type} (v : A) : list (list A) :=
  replicate (Z.to_nat GRID_SIZE) (replicate (Z.to_nat GRID_SIZE) v).

(** The indices of [for (let i = 0; i < GRID_SIZE; i++)]. *)
Definition positions : list Z := seqZ 0 GRID_SIZE.

(** ** The random source

    [Math.random()] returns a double in [0, 1).  A draw is modelled by a
    natural number [u], read as the fraction [(u mod RESOLUTION) /
    RESOLUTION]; the two uses the script makes of a draw are computed
    exactly on that fraction. *)

Definition RESOLUTION : Z := 2 ^ 53.

(** [Math.floor(u * n)]. *)
Definition floorScaled (u : Z) (n : Z) : Z := ((u `mod` RESOLUTION) * n) `div` RESOLUTION.

(** [u < 0.9]. *)
Definition below09 (u : Z) : bool :=
  bool_decide ((u `mod` RESOLUTION) * 10 < 9 * RESOLUTION).

(** ** Game state *)

Inductive message : Type := YouWin | GameOver.

Record state : Type := State {
  grid : board;
  score : Z;
  bestScore : Z;
  hasWon : bool;
  isAnimating : bool;
  (* the environment *)
  entropy : nat -> Z;      (* the future results of [Math.random()] *)
  drawn : nat;             (* how many of them were consumed *)
  pending : nat;           (* scheduled end-of-move callbacks not yet run *)
  shown : list message     (* calls of [showGameMessage], latest first *)
}.

Definition set_grid (g : board) (s : state) : state :=
  State g (score s) (bestScore s) (hasWon s) (isAnimating s)
        (entropy s) (drawn s) (pending s) (shown s).
Definition set_score (n : Z) (s : state) : state :=
  State (grid s) n (bestScore s) (hasWon s) (isAnimating s)
        (entropy s) (drawn s) (pending s) (shown s).
Definition set_bestScore (n : Z) (s : state) : state :=
  State (grid s) (score s) n (hasWon s) (isAnimating s)
        (entropy s) (drawn s) (pending s) (shown s).
Definition set_hasWon (b : bool) (s : state) : state :=
  State (grid s) (score s) (bestScore s) b (isAnimating s)
        (entropy s) (drawn s) (pending s) (shown s).
Definition set_isAnimating (b : bool) (s : state) : state :=
  State (grid s) (score s) (bestScore s) (hasWon s) b
        (entropy s) (drawn s) (pending s) (shown s).
Definition set_pending (n : nat) (s : state) : state :=
  State (grid s) (score s) (bestScore s) (hasWon s) (isAnimating s)
        (entropy s) (drawn s) n (shown s).

(** [Math.random()]: the next draw, and the state that has consumed it. *)
Definition random (s : state) : Z * state :=
  (entropy s (drawn s),
   State (grid s) (score s) (bestScore s) (hasWon s) (isAnimating s)
         (entropy s) (S (drawn s)) (pending s) (shown s)).

(** [showGameMessage(message, isWin)], as far as the signal goes. *)
Definition showGameMessage (m : message) (s : state) : state :=
  State (grid s) (score s) (bestScore s) (hasWon s) (isAnimating s)
        (entropy s) (drawn s) (pending s) (m :: shown s).

(** The variables local to one call of [move]. *)
Record locals : Type := Locals {
  merged : flags;
  mergedTiles : list mergedTile;
  moved : bool
}.

(** ** [move] and its helpers *)

(** The table [vectors] of [move]. *)
Definition vectors (d : direction) : cell :=
  match d with
  | up => Cell 0 (-1)
  | down => Cell 0 1
  | left => Cell (-1) 0
  | right => Cell 1 0
  end.

Record traversal : Type := Traversal { tx : list Z; ty : list Z }.

Definition buildTraversals (vector : cell) : traversal :=
  let xs := positions in
  let ys := positions in
  Traversal (if x vector =? 1 then reverse xs else xs)
            (if y vector =? 1 then reverse ys else ys).

Definition withinBounds (c : cell) : bool :=
  (0 <=? x c) && (x c <? GRID_SIZE) && (0 <=? y c) && (y c <? GRID_SIZE).

Record farthestPosition : Type := Positions { farthest : cell; next : cell }.

(** The [do ... while] of [findFarthestPosition]; [fuel] bounds the
    number of times the body runs. *)
Fixpoint findLoop (fuel : nat) (g : board) (c : cell) (vector : cell) : res farthestPosition :=
  match fuel with
  | O => Err OutOfFuel
  | S fuel' =>
      let previous := c in
      let c := Cell (x previous + x vector) (y previous + y vector) in
      if withinBounds c then
        v ← get g c;
        if v =? 0 then findLoop fuel' g c vector
        else Ok (Positions previous c)
      else Ok (Positions previous c)
  end.

Definition findFarthestPosition (g : board) (c : cell) (vector : cell) : res farthestPosition :=
  findLoop (Z.to_nat GRID_SIZE) g c vector.

(** The body of the two nested [forEach] of [move], for the cell [c]. *)
Definition moveTile (vector : cell) (c : cell) (sl : state * locals) : res (state * locals) :=
  let '(s, l) := sl in
  tile ← get (grid s) c;
  if negb (tile =? 0) then
    p ← findFarthestPosition (grid s) c vector;
    let nxt := next p in
    mergeable ←
      (if withinBounds nxt then
         v ← get (grid s) nxt;
         if v =? tile then
           m ← get (merged l) nxt; Ok (negb m)
         else Ok false
       else Ok false);
    if (mergeable : bool) then
      let mergedValue := tile * 2 in
      g1 ← put (grid s) nxt mergedValue;
      g2 ← put g1 c 0;
      m1 ← put (merged l) nxt true;
      let s' := set_score (score s + mergedValue) (set_grid g2 s) in
      Ok (s', Locals m1 (mergedTiles l ++ [MergedTile (y nxt) (x nxt) mergedValue]) true)
    else
      if negb (x (farthest p) =? x c) || negb (y (farthest p) =? y c) then
        g1 ← put (grid s) (farthest p) tile;
        g2 ← put g1 c 0;
        Ok (set_grid g2 s, Locals (merged l) (mergedTiles l) true)
      else Ok (s, l)
  else Ok (s, l).

(** The slide-and-merge phase of [move]: everything up to the test of
    [moved]. *)
Definition resolve (d : direction) (s : state) : res (state * locals) :=
  let vector := vectors d in
  let traversals := buildTraversals vector in
  forEach (ty traversals)
    (fun yi => forEach (tx traversals) (fun xi => moveTile vector (Cell xi yi)))
    (s, Locals (filled false) [] false).

(** [updateScore()], without the DOM and [localStorage]. *)
Definition updateScore (s : state) : state :=
  if bestScore s <? score s then set_bestScore (score s) s else s.

(** [move(direction)], up to the scheduling of the callbacks; the second
    component is the returned value.  The copy [previousGrid] is never
    read and is left out; the merge-animation callbacks touch the DOM
    only, so [pending] counts the end-of-move callbacks alone. *)
Definition move (d : direction) (s : state) : res (state * bool) :=
  if isAnimating s then Ok (s, false)
  else
    '(s1, l) ← resolve d s;
    if moved l then
      let s2 := set_isAnimating true s1 in
      let s3 := updateScore s2 in
      Ok (set_pending (S (pending s3)) s3, true)
    else Ok (s1, false).

(** ** Spawning, terminal tests and the end-of-move callback *)

(** The two nested loops of [spawnTile] that collect [{ row, col }]. *)
Definition emptyCellsOf (g : board) : res (list (Z * Z)) :=
  forEach positions
    (fun r => forEach positions
       (fun c acc => v ← get g (Cell c r);
                     Ok (if v =? 0 then acc ++ [(r, c)] else acc)))
    [].

Definition spawnTile (s : state) : res state :=
  emptyCells ← emptyCellsOf (grid s);
  if 0 <? Z.of_nat (length emptyCells) then
    let '(u1, s1) := random s in
    rc ← index emptyCells (floorScaled u1 (Z.of_nat (length emptyCells)));
    let '(u2, s2) := random s1 in
    g ← put (grid s2) (Cell (snd rc) (fst rc)) (if below09 u2 then 2 else 4);
    Ok (set_grid g s2)
  else Ok s.

Definition startNewGame (s : state) : res state :=
  let s := set_grid (filled 0) s in
  let s := set_score 0 s in
  let s := set_hasWon false s in
  let s := set_isAnimating false s in
  let s := updateScore s in
  s ← spawnTile s;
  spawnTile s.

Definition movesAvailable (g : board) : res bool :=
  anyEmpty ← anyM (fun r => anyM (fun c => v ← get g (Cell c r); Ok (v =? 0)) positions)
                  positions;
  if (anyEmpty : bool) then Ok true
  else
    anyM (fun r => anyM (fun c =>
            v ← get g (Cell c r);
            below ← (if r <? GRID_SIZE - 1 then w ← get g (Cell c (r + 1)); Ok (w =? v)
                     else Ok false);
            if (below : bool) then Ok true
            else if c <? GRID_SIZE - 1 then w ← get g (Cell (c + 1) r); Ok (w =? v)
            else Ok false) positions)
         positions.

Definition hasReached2048 (g : board) : res bool :=
  anyM (fun r => anyM (fun c => v ← get g (Cell c r); Ok (2048 <=? v)) positions) positions.

(** The callback that [move] schedules for [ANIMATION_SPEED + 50] ms
    later. *)
Definition moveTimeout (s : state) : res state :=
  s ← spawnTile s;
  let s := set_isAnimating false s in
  won ← (if negb (hasWon s) then hasReached2048 (grid s) else Ok false);
  if (won : bool) then Ok (showGameMessage YouWin (set_hasWon true s))
  else
    avail ← movesAvailable (grid s);
    if negb avail then Ok (showGameMessage GameOver s)
    else Ok s.

(** ** The session as a transition system

    What can happen to the state: a direction command, the firing of a
    scheduled end-of-move callback, and a click on "new game". *)

Inductive event : Type :=
  | EMove (d : direction)
  | ETimeout
  | ENewGame.

Definition step (e : event) (s : state) : res state :=
  match e with
  | EMove d => '(s', _) ← move d s; Ok s'
  | ETimeout =>
      match pending s with
      | O => Ok s
      | S n => moveTimeout (set_pending n s)
      end
  | ENewGame => startNewGame s
  end.

Definition run (es : list event) (s : state) : res state := forEach es step s.

(** ** Sample boards *)

Definition mk (g : board) : state := State g 0 0 false false (fun _ => 0) 0 0 [].

Definition rowBoard (r : list Z) : board := [r; [0;0;0;0]; [0;0;0;0]; [0;0;0;0]].

(** ** Vocabulary of the statements *)

(** A 4 x 4 array of arrays. *)
Definition shaped {A : Type} (m : list (list A)) : Prop :=
  length m = Z.to_nat GRID_SIZE /\ Forall (fun a => length a = Z.to_nat GRID_SIZE) m.

(** The cell [k] steps from [c] along [vector]. *)
Definition shift (c vector : cell) (k : Z) : cell :=
  Cell (x c + k * x vector) (y c + k * y vector).

(** How many cells of the board lie beyond [c] in the direction [d]. *)
Definition room (d : direction) (c : cell) : Z :=
  match d with
  | up => y c
  | down => GRID_SIZE - 1 - y c
  | left => x c
  | right => GRID_SIZE - 1 - x c
  end.

(** What the search returns: it walks [k] empty cells of the board and
    stops in front of the first cell that is off the board or occupied. *)
Definition walked (g : board) (c vector : cell) (k : Z) (p : farthestPosition) : Prop :=
  0 <= k /\
  farthest p = shift c vector k /\
  next p = shift c vector (k + 1) /\
  (forall i, 1 <= i <= k ->
     withinBounds (shift c vector i) = true /\ get g (shift c vector i) = Ok 0) /\
  (withinBounds (next p) = false \/ exists w, get g (next p) = Ok w /\ w <> 0).

(** What processing the cell [c] does to the state and the locals of a
    move: nothing, a slide to an empty cell, or a merge into a cell
    that holds the same value and is not flagged. *)
Inductive tileStep (c : cell) : state * locals -> state * locals -> Prop :=
  | tile_stays s l :
      tileStep c (s, l) (s, l)
  | tile_slides s l tile far g1 g2 :
      get (grid s) c = Ok tile -> tile <> 0 ->
      far <> c -> get (grid s) far = Ok 0 ->
      put (grid s) far tile = Ok g1 -> put g1 c 0 = Ok g2 ->
      tileStep c (s, l) (set_grid g2 s, Locals (merged l) (mergedTiles l) true)
  | tile_merges s l tile nxt g1 g2 m1 :
      get (grid s) c = Ok tile -> tile <> 0 ->
      nxt <> c -> get (grid s) nxt = Ok tile -> get (merged l) nxt = Ok false ->
      put (grid s) nxt (tile * 2) = Ok g1 -> put g1 c 0 = Ok g2 ->
      put (merged l) nxt true = Ok m1 ->
      tileStep c (s, l)
        (set_score (score s + tile * 2) (set_grid g2 s),
         Locals m1 (mergedTiles l ++ [MergedTile (y nxt) (x nxt) (tile * 2)]) true).

Definition sumZ (l : list Z) : Z := foldr Z.add 0 l.

(** The sum of all tile values of a board. *)
Definition boardSum (g : board) : Z := sumZ (sumZ <$> g).

(** The sum of the resulting values of a list of merge events. *)
Definition mergeSum (ts : list mergedTile) : Z := sumZ (value <$> ts).

(** The cell a merge event names. *)
Definition destination (t : mergedTile) : cell := Cell (col t) (row t).

Definition mergesFlagged (l : locals) : Prop :=
  NoDup (destination <$> mergedTiles l) /\
  forall t, t ∈ mergedTiles l -> get (merged l) (destination t) = Ok true.

(** The cells in the order in which the two nested [forEach] of [move]
    visit them. *)
Definition cellOrder (d : direction) : list cell :=
  let traversals := buildTraversals (vectors d) in
  flat_map (fun yi => map (fun xi => Cell xi yi) (tx traversals)) (ty traversals).

(** The place of a cell of the board in [cellOrder]. *)
Definition rank (d : direction) (c : cell) : nat :=
  Z.to_nat
    match d with
    | right => GRID_SIZE * y c + (GRID_SIZE - 1 - x c)
    | down => GRID_SIZE * (GRID_SIZE - 1 - y c) + x c
    | left | up => GRID_SIZE * y c + x c
    end.

(** The farthest-position search as the specification words it: the
    walk goes on until the next step would leave the board or land on a
    cell that is non-empty and not yet merged into, so it needs the
    flags [mg] of the move. *)
Fixpoint specLoop (fuel : nat) (g : board) (mg : flags) (c : cell) (vector : cell)
    : res farthestPosition :=
  match fuel with
  | O => Err OutOfFuel
  | S fuel' =>
      let previous := c in
      let c := Cell (x previous + x vector) (y previous + y vector) in
      if withinBounds c then
        v ← get g c;
        m ← get mg c;
        if negb (v =? 0) && negb m then Ok (Positions previous c)
        else specLoop fuel' g mg c vector
      else Ok (Positions previous c)
  end.

Definition specFarthestPosition (g : board) (mg : flags) (c : cell) (vector : cell)
    : res farthestPosition :=
  specLoop (Z.to_nat GRID_SIZE) g mg c vector.

(** The value of a cell, [0] where the read fails. *)
Definition peek (g : board) (c : cell) : Z :=
  match get g c with
  | Ok v => v
  | Err _ => 0
  end.

(** Two cells next to each other in a row or in a column. *)
Definition adjacent (c1 c2 : cell) : Prop :=
  Z.abs (x c1 - x c2) + Z.abs (y c1 - y c2) = 1.

(** A tile value: a power of two, [2] at least. *)
Definition powerOfTwo (v : Z) : Prop := exists k, 1 <= k /\ v = 2 ^ k.

(** Every cell of the board is empty or holds a tile value. *)
Definition valid (g : board) : Prop :=
  forall c v, get g c = Ok v -> v = 0 \/ powerOfTwo v.

(** How many times the win message was shown. *)
Fixpoint wins (ms : list message) : nat :=
  match ms with
  | [] => O
  | YouWin :: ms' => S (wins ms')
  | GameOver :: ms' => wins ms'
  end.

(** The part of the state that the slide-and-merge phase has no
    business with. *)
Definition env (s : state) : Z * bool * bool * (nat -> Z) * nat * nat * list message :=
  (bestScore s, hasWon s, isAnimating s, entropy s, drawn s, pending s, shown s).

(** Two outcomes of a phase of [move] that cannot be told apart by the
    grid, the locals and the points scored: the two runs ended the same
    way, with the same grid and locals, and added the same amount to
    their scores. *)
Definition sameOutcome (s1 s2 : state) (r1 r2 : res (state * locals)) : Prop :=
  match r1, r2 with
  | Ok (s1', l1), Ok (s2', l2) =>
      grid s1' = grid s2' /\ l1 = l2 /\ score s1' - score s1 = score s2' - score s2 /\
      env s1' = env s1 /\ env s2' = env s2
  | Err e1, Err e2 => e1 = e2
  | _, _ => False
  end.

(** How the win flag and the number of win messages may change in one
    transition: not at all, or the flag is raised and one message is
    shown. *)
Definition sticky (s s' : state) : Prop :=
  (hasWon s' = hasWon s /\ wins (shown s') = wins (shown s)) \/
  (hasWon s = false /\ hasWon s' = true /\ wins (shown s') = S (wins (shown s))).

(** A board one move away from 2048. *)
Definition almostWon : board :=
  [[1024; 1024; 0; 0]; [0; 0; 0; 0]; [0; 0; 0; 0]; [0; 2; 0; 0]].

(** What keeps a tile of value [tile] out of the cell [n]: [n] is off
    the board, or holds a tile it cannot merge with, one of another
    value or one that was merged into during this move. *)
Definition obstacle (g : board) (mg : flags) (tile : Z) (n : cell) : Prop :=
  withinBounds n = false \/
  exists w, get g n = Ok w /\ w <> 0 /\ (w <> tile \/ get mg n = Ok true).

(** The cells [1 .. k] steps from [c] along [vector] are empty cells of
    the board. *)
Definition clearPath (g : board) (c vector : cell) (k : Z) : Prop :=
  forall i, 1 <= i <= k ->
    withinBounds (shift c vector i) = true /\ get g (shift c vector i) = Ok 0.

(** What processing the cell [c] in a move in the direction [d] does,
    with the reason: the cell is empty; its tile is blocked where it
    stands; the tile slides [k] cells up to an obstacle; or it crosses
    [k] empty cells and merges into the equal, unflagged tile behind
    them. *)
Inductive tileAct (d : direction) (c : cell) : state * locals -> state * locals -> Prop :=
  | act_empty s l :
      get (grid s) c = Ok 0 ->
      tileAct d c (s, l) (s, l)
  | act_blocked s l tile :
      get (grid s) c = Ok tile -> tile <> 0 ->
      obstacle (grid s) (merged l) tile (shift c (vectors d) 1) ->
      tileAct d c (s, l) (s, l)
  | act_slides s l tile k g1 g2 :
      get (grid s) c = Ok tile -> tile <> 0 -> 1 <= k ->
      clearPath (grid s) c (vectors d) k ->
      obstacle (grid s) (merged l) tile (shift c (vectors d) (k + 1)) ->
      put (grid s) (shift c (vectors d) k) tile = Ok g1 -> put g1 c 0 = Ok g2 ->
      tileAct d c (s, l) (set_grid g2 s, Locals (merged l) (mergedTiles l) true)
  | act_merges s l tile k g1 g2 m1 :
      get (grid s) c = Ok tile -> tile <> 0 -> 0 <= k ->
      clearPath (grid s) c (vectors d) k ->
      withinBounds (shift c (vectors d) (k + 1)) = true ->
      get (grid s) (shift c (vectors d) (k + 1)) = Ok tile ->
      get (merged l) (shift c (vectors d) (k + 1)) = Ok false ->
      put (grid s) (shift c (vectors d) (k + 1)) (tile * 2) = Ok g1 ->
      put g1 c 0 = Ok g2 ->
      put (merged l) (shift c (vectors d) (k + 1)) true = Ok m1 ->
      tileAct d c (s, l)
        (set_score (score s + tile * 2) (set_grid g2 s),
         Locals m1
           (mergedTiles l ++
            [MergedTile (y (shift c (vectors d) (k + 1))) (x (shift c (vectors d) (k + 1)))
               (tile * 2)])
           true).

(** The cell [p] holds no tile that could still slide in the direction
    [d]: it is empty, or the cell in front of it is off the board or
    occupied. *)
Definition settled (d : direction) (g : board) (p : cell) : Prop :=
  forall w, get g p = Ok w -> w <> 0 ->
    withinBounds (shift p (vectors d) 1) = false \/
    exists w', get g (shift p (vectors d) 1) = Ok w' /\ w' <> 0.

(** [1] for a tile, [0] for an empty cell. *)
Definition occupied (v : Z) : Z := if v =? 0 then 0 else 1.

(** The number of tiles on a board. *)
Definition tileCount (g : board) : Z := sumZ ((fun r => sumZ (occupied <$> r)) <$> g).

(** The empty cells of the row [r], from left to right, as
    [(row, col)] pairs. *)
Definition emptyInRow (g : board) (r : Z) : list (Z * Z) :=
  flat_map (fun c => if peek g (Cell c r) =? 0 then [(r, c)] else []) positions.

(** ** The high-score list

    [saveHighScore] reads the list from [localStorage], adds an entry,
    sorts, keeps ten entries and writes the list back.  The model takes
    the parsed list and returns the list that is written; the JSON text
    and the clock behind [toLocaleDateString()] are outside it. *)

Module Entry.
Record t : Type := Make { score : Z; date : String.string }.
End Entry.

(** Where a stable sort by descending score puts [e] in a list sorted
    that way, when [e] came after all its entries: behind the entries
    with at least its score, before the first with less. *)
Fixpoint insertDesc (e : Entry.t) (l : list Entry.t) : list Entry.t :=
  match l with
  | [] => [e]
  | h :: t =>
      if Entry.score h <? Entry.score e then e :: h :: t
      else h :: insertDesc e t
  end.

(** [highscores.sort((a, b) => b.score - a.score)]: the sort of an
    array is stable. *)
Definition sortDesc (l : list Entry.t) : list Entry.t :=
  foldl (fun acc e => insertDesc e acc) [] l.

Definition saveHighScore (s : state) (today : String.string) (highscores : list Entry.t)
    : list Entry.t :=
  let highscores := highscores ++ [Entry.Make (score s) today] in
  let highscores := sortDesc highscores in
  take 10 highscores.

(** Scores from the highest to the lowest. *)
Fixpoint descending (l : list Entry.t) : Prop :=
  match l with
  | [] => True
  | h :: t => Forall (fun e => Entry.score e <= Entry.score h) t /\ descending t
  end.

(** The entries of [l] with the score [k], in the order of [l]. *)
Definition withScore (k : Z) (l : list Entry.t) : list Entry.t :=
  filter (fun e => Entry.score e = k) l.

(** How many entries of [l] have a score of [k] or more. *)
Definition atLeast (k : Z) (l : list Entry.t) : nat :=
  length (filter (fun e => k <= Entry.score e) l).

(** ** Touch input

    [touchStartX] and [touchStartY] are module-scope variables of the
    script as well.  Client coordinates are taken in whole CSS pixels.
    An event is given by the coordinates of its touches: [e.touches]
    for [touchstart], [e.changedTouches[0]] for [touchend]. *)

Definition MIN_SWIPE_DISTANCE : Z := 30.

Record touchState : Type := TouchState { touchStartX : Z; touchStartY : Z }.

Definition handleTouchStart (touches : list (Z * Z)) (t : touchState) : res touchState :=
  if 1 <? Z.of_nat (length touches) then Ok t
  else
    first ← index touches 0;
    Ok (TouchState (fst first) (snd first)).

Definition handleTouchEnd (changed : Z * Z) (ts : touchState * state)
    : res (touchState * state) :=
  let '(t, s) := ts in
  if (touchStartX t =? 0) || (touchStartY t =? 0) then Ok (t, s)
  else
    let touchEndX := fst changed in
    let touchEndY := snd changed in
    let deltaX := touchEndX - touchStartX t in
    let deltaY := touchEndY - touchStartY t in
    if (Z.abs deltaX <? MIN_SWIPE_DISTANCE) && (Z.abs deltaY <? MIN_SWIPE_DISTANCE)
    then Ok (t, s)
    else
      '(s', _) ← (if Z.abs deltaY <? Z.abs deltaX
                  then move (if 0 <? deltaX then right else left) s
                  else move (if 0 <? deltaY then down else up) s);
      Ok (TouchState 0 0, s').

(** The gesture [(dx, dy)] runs in the direction [d]: at least the
    minimal distance along it, and less across it (no more, for the
    vertical directions). *)
Definition swipes (d : direction) (dx dy : Z) : Prop :=
  match d with
  | right => MIN_SWIPE_DISTANCE <= dx /\ Z.abs dy < dx
  | left => dx <= - MIN_SWIPE_DISTANCE /\ Z.abs dy < - dx
  | down => MIN_SWIPE_DISTANCE <= dy /\ Z.abs dx <= dy
  | up => dy <= - MIN_SWIPE_DISTANCE /\ Z.abs dx <= - dy
  end.

(** What holds of every state of a game in progress. *)
Definition inPlay (s : state) : Prop :=
  shaped (grid s) /\ valid (grid s) /\
  (exists c w, get (grid s) c = Ok w /\ w <> 0) /\
  0 <= score s <= bestScore s /\
  (isAnimating s = true -> pending s <> O).

(** ** The rule of the game on one line

    A line is a row or a column read from the edge the tiles travel to:
    [cellAt d j i] is the cell at the distance [i] from that edge in the
    line [j]. *)

Definition cellAt (d : direction) (j i : Z) : cell :=
  match d with
  | left => Cell i j
  | right => Cell (GRID_SIZE - 1 - i) j
  | up => Cell j i
  | down => Cell j (GRID_SIZE - 1 - i)
  end.

(** The line a cell lies on, for the direction [d]; its distance from
    the edge is [room d c]. *)
Definition lineOf (d : direction) (c : cell) : Z :=
  match d with
  | left | right => y c
  | up | down => x c
  end.

(** The values of the line [j], from the edge on. *)
Definition line (d : direction) (g : board) (j : Z) : list Z :=
  (fun i => peek g (cellAt d j i)) <$> positions.

(** Equal neighbours merge in pairs, from the front; a merged tile does
    not merge again. *)
Fixpoint mergePairs (l : list Z) : list Z :=
  match l with
  | a :: (b :: t) as r => if a =? b then a * 2 :: mergePairs t else a :: mergePairs r
  | _ => l
  end.

(** The line after a move: its tiles are packed against the edge,
    merged in pairs, and empty cells fill the rest. *)
Definition slide (l : list Z) : list Z :=
  let tiles := mergePairs (filter (fun v => v <> 0) l) in
  tiles ++ replicate (length l - length tiles) 0.

(** The same rule, one cell at a time: the tiles settled so far, the
    last one first, and whether that one came from a merge. *)
Definition accStep (st : list Z * bool) (t : Z) : list Z * bool :=
  if t =? 0 then st
  else
    match st with
    | (u :: rest, mg) =>
        if (u =? t) && negb mg then (t * 2 :: rest, true) else (t :: u :: rest, false)
    | ([], _) => ([t], false)
    end.

(** The tile at the distance [i] from the edge, when the tiles [rts]
    (the last one first) are packed against it. *)
Definition tileAt (rts : list Z) (i : Z) : Z := nth (Z.to_nat i) (reverse rts) 0.

(** How far a move in the direction [d] that started on the grid [g0]
    has got with the line [j] when the cells [pre] are processed: the
    first [m] cells of the line are, and they hold the tiles that
    settling the first [m] values of the line one at a time gives; the
    other cells are as they were; only the last settled tile may bar a
    merge. *)
Definition lineProgress (d : direction) (g0 : board) (pre : list cell)
    (g : board) (mg : flags) (j : Z) : Prop :=
  exists (m : Z) (rts : list Z) (lastMerged : bool),
    0 <= m <= GRID_SIZE /\
    (forall i, 0 <= i < GRID_SIZE -> cellAt d j i ∈ pre <-> i < m) /\
    foldl accStep ([], false) (take (Z.to_nat m) (line d g0 j)) = (rts, lastMerged) /\
    Forall (fun v => v <> 0) rts /\
    Z.of_nat (length rts) <= m /\
    (forall i, 0 <= i < m -> get g (cellAt d j i) = Ok (tileAt rts i)) /\
    (forall i, m <= i < GRID_SIZE -> get g (cellAt d j i) = get g0 (cellAt d j i)) /\
    (forall i, Z.of_nat (length rts) <= i < GRID_SIZE -> get mg (cellAt d j i) = Ok false) /\
    (rts <> [] -> get mg (cellAt d j (Z.of_nat (length rts) - 1)) = Ok lastMerged).

(** * Proofs *)

(** ** Arrays of arrays *)

Section Indexing.
Context {T : Type}.
Implicit Types (a : list T).

Lemma index_Ok a i v :
  index a i = Ok v <-> 0 <= i /\ a !! Z.to_nat i = Some v.
Proof.
  unfold index. case_bool_decide.
  - destruct (a !! Z.to_nat i); split; intros; destruct_and?; simplify_eq; auto.
  - split; intros; destruct_and?; [discriminate | lia].
Qed.

Lemma assign_Ok a i v a' :
  assign a i v = Ok a' <->
  (0 <= i < Z.of_nat (length a)) /\ a' = <[Z.to_nat i := v]> a.
Proof.
  unfold assign. case_bool_decide; split; intros; destruct_and?; simplify_eq; auto.
  lia.
Qed.
End Indexing.

Section Arrays.
Context {A : Type}.
Implicit Types (m : list (list A)) (a : list A) (c : cell).

Lemma get_Ok m c v :
  get m c = Ok v <->
  0 <= x c /\ 0 <= y c /\
  exists a, m !! Z.to_nat (y c) = Some a /\ a !! Z.to_nat (x c) = Some v.
Proof.
  unfold get. destruct (index m (y c)) as [a|e] eqn:E; simpl.
  - apply index_Ok in E as [? ?]. rewrite index_Ok. split.
    + intros [? ?]. eauto 6.
    + intros (? & ? & a' & ? & ?). simplify_eq. auto.
  - split; [discriminate|]. intros (? & ? & a' & Ha & ?).
    assert (index m (y c) = Ok a') as H' by (apply index_Ok; auto).
    congruence.
Qed.

Lemma put_Ok m c v m' :
  put m c v = Ok m' <->
  0 <= x c /\ 0 <= y c /\
  exists a, m !! Z.to_nat (y c) = Some a /\ (Z.to_nat (x c) < length a)%nat /\
            m' = <[Z.to_nat (y c) := <[Z.to_nat (x c) := v]> a]> m.
Proof.
  unfold put. destruct (index m (y c)) as [a|e] eqn:E; simpl.
  - apply index_Ok in E as [? Ha].
    destruct (assign a (x c) v) as [a'|e] eqn:E'; simpl.
    + apply assign_Ok in E' as [? ->]. rewrite assign_Ok. split.
      * intros [? ->]. repeat split; try lia. exists a. repeat split; auto. lia.
      * intros (? & ? & a' & ? & ? & ->). simplify_eq. split; auto.
        apply lookup_lt_Some in Ha. lia.
    + split; [discriminate|]. intros (? & ? & a' & Ha' & ? & ->).
      rewrite Ha in Ha'. injection Ha' as <-.
      assert (assign a (x c) v = Ok (<[Z.to_nat (x c) := v]> a)) as H'
        by (apply assign_Ok; split; [lia | done]).
      congruence.
  - split; [discriminate|]. intros (? & ? & a' & Ha & ?).
    assert (index m (y c) = Ok a') as H' by (apply index_Ok; auto).
    congruence.
Qed.

Lemma withinBounds_spec c :
  withinBounds c = true <-> 0 <= x c < GRID_SIZE /\ 0 <= y c < GRID_SIZE.
Proof. unfold withinBounds. rewrite !andb_true_iff. lia. Qed.

Lemma withinBounds_false c :
  withinBounds c = false <-> ~ (0 <= x c < GRID_SIZE /\ 0 <= y c < GRID_SIZE).
Proof. rewrite <- withinBounds_spec. destruct (withinBounds c); intuition congruence. Qed.

Lemma shaped_row m i a : shaped m -> m !! i = Some a -> length a = Z.to_nat GRID_SIZE.
Proof.
  intros [_ Hr] Hi. rewrite Forall_forall in Hr. apply Hr.
  apply list_elem_of_In, list_elem_of_lookup. eauto.
Qed.

(** On a 4 x 4 array a read succeeds exactly at the cells of the board. *)
Lemma get_within m c : shaped m -> withinBounds c = true -> exists v, get m c = Ok v.
Proof.
  intros Hs Hc. apply withinBounds_spec in Hc as [Hx Hy].
  destruct (lookup_lt_is_Some_2 m (Z.to_nat (y c))) as [a Ha].
  { destruct Hs as [-> _]. lia. }
  destruct (lookup_lt_is_Some_2 a (Z.to_nat (x c))) as [v Hv].
  { rewrite (shaped_row m _ a Hs Ha). lia. }
  exists v. apply get_Ok. eauto 6 with lia.
Qed.

Lemma get_Ok_within m c v : shaped m -> get m c = Ok v -> withinBounds c = true.
Proof.
  intros Hs (Hx & Hy & a & Ha & Hv)%get_Ok. apply withinBounds_spec.
  pose proof (shaped_row m _ a Hs Ha) as Hl.
  apply lookup_lt_Some in Ha, Hv. destruct Hs as [Hm _]. lia.
Qed.

Lemma put_within m c v :
  shaped m -> withinBounds c = true -> exists m', put m c v = Ok m'.
Proof.
  intros Hs Hc. apply withinBounds_spec in Hc as [Hx Hy].
  destruct (lookup_lt_is_Some_2 m (Z.to_nat (y c))) as [a Ha].
  { destruct Hs as [-> _]. lia. }
  eexists. apply put_Ok. repeat split; try lia. exists a. repeat split; auto.
  rewrite (shaped_row m _ a Hs Ha). lia.
Qed.

Lemma put_Ok_within m c v m' : shaped m -> put m c v = Ok m' -> withinBounds c = true.
Proof.
  intros Hs (Hx & Hy & a & Ha & Hl & _)%put_Ok. apply withinBounds_spec.
  pose proof (shaped_row m _ a Hs Ha) as Hlen.
  apply lookup_lt_Some in Ha. destruct Hs as [Hm _]. lia.
Qed.

Lemma put_shaped m c v m' : shaped m -> put m c v = Ok m' -> shaped m'.
Proof.
  intros Hs (Hx & Hy & a & Ha & Hl & ->)%put_Ok. split.
  - rewrite length_insert. apply Hs.
  - apply Forall_insert; [apply Hs|]. rewrite length_insert.
    eapply shaped_row; eauto.
Qed.

Lemma get_put_eq m c v m' : put m c v = Ok m' -> get m' c = Ok v.
Proof.
  intros (Hx & Hy & a & Ha & Hl & ->)%put_Ok. apply get_Ok.
  repeat split; auto. exists (<[Z.to_nat (x c) := v]> a). split.
  - apply list_lookup_insert_eq. eapply lookup_lt_Some; eauto.
  - apply list_lookup_insert_eq. auto.
Qed.

Lemma get_put_ne m c c' v m' : put m c v = Ok m' -> c <> c' -> get m' c' = get m c'.
Proof.
  intros (Hx & Hy & a & Ha & Hl & ->)%put_Ok Hne.
  unfold get. unfold index at 2 4. case_bool_decide; [|done].
  destruct (decide (Z.to_nat (y c) = Z.to_nat (y c'))) as [Hy'|Hy'].
  - rewrite <- Hy'. rewrite list_lookup_insert_eq by (eapply lookup_lt_Some; eauto).
    rewrite Ha. simpl. unfold index. case_bool_decide; [|done].
    rewrite list_lookup_insert_ne; [done|].
    intros Hx'. apply Hne. destruct c, c'; simpl in *. f_equal; lia.
  - rewrite list_lookup_insert_ne by done. done.
Qed.
End Arrays.

(** ** The farthest-position search *)

Lemma shift_0 c v : shift c v 0 = c.
Proof. destruct c. unfold shift. simpl. f_equal; lia. Qed.

Lemma shift_shift c v k : shift (shift c v 1) v k = shift c v (k + 1).
Proof. unfold shift. simpl. f_equal; lia. Qed.

Lemma shift_1 c v : shift c v 1 = Cell (x c + x v) (y c + y v).
Proof. unfold shift. f_equal; lia. Qed.

Lemma shift_ne c d k : k <> 0 -> shift c (vectors d) k <> c.
Proof. destruct c, d; unfold shift; simpl; intros ? [=]; lia. Qed.

Lemma room_step d c :
  withinBounds (shift c (vectors d) 1) = true ->
  room d (shift c (vectors d) 1) = room d c - 1.
Proof. destruct d; unfold room, shift; simpl; lia. Qed.

Lemma room_nonneg d c : withinBounds c = true -> 0 <= room d c < GRID_SIZE.
Proof. rewrite withinBounds_spec. destruct d; unfold room, GRID_SIZE; lia. Qed.

Lemma findLoop_walked fuel g d c :
  shaped g -> withinBounds c = true -> room d c < Z.of_nat fuel ->
  exists k p, findLoop fuel g c (vectors d) = Ok p /\ walked g c (vectors d) k p.
Proof.
  intros Hg. revert c. induction fuel as [|fuel IH]; intros c Hc Hroom.
  - pose proof (room_nonneg d c Hc). lia.
  - cbn [findLoop]. rewrite <- shift_1.
    destruct (withinBounds (shift c (vectors d) 1)) eqn:Hin.
    + destruct (get_within g _ Hg Hin) as [w Hw]. rewrite Hw. simpl.
      destruct (w =? 0) eqn:Hz.
      * apply Z.eqb_eq in Hz as ->.
        destruct (IH (shift c (vectors d) 1)) as (k & p & Hp & Hk & Hf & Hn & Hall & Hstop).
        { done. }
        { rewrite room_step by done. lia. }
        exists (k + 1), p. split; [done|].
        rewrite shift_shift in Hf, Hn. repeat split; auto; try lia.
        -- destruct (decide (i = 1)) as [->|]; [done|].
           destruct (Hall (i - 1)) as [Hi _]; [lia|].
           rewrite shift_shift in Hi. by replace (i - 1 + 1) with i in Hi by lia.
        -- destruct (decide (i = 1)) as [->|]; [done|].
           destruct (Hall (i - 1)) as [_ Hi]; [lia|].
           rewrite shift_shift in Hi. by replace (i - 1 + 1) with i in Hi by lia.
      * apply Z.eqb_neq in Hz. exists 0, (Positions c (shift c (vectors d) 1)).
        split; [done|]. repeat split; simpl; auto using shift_0; try lia.
        right. eauto.
    + exists 0, (Positions c (shift c (vectors d) 1)).
      split; [done|]. repeat split; simpl; auto using shift_0; try lia.
Qed.

Lemma findFarthestPosition_walked g d c :
  shaped g -> withinBounds c = true ->
  exists k p, findFarthestPosition g c (vectors d) = Ok p /\ walked g c (vectors d) k p.
Proof.
  intros Hg Hc. apply findLoop_walked; auto.
  pose proof (room_nonneg d c Hc). unfold GRID_SIZE in *. lia.
Qed.

Lemma walked_farthest_within g c v k p :
  withinBounds c = true -> walked g c v k p -> withinBounds (farthest p) = true.
Proof.
  intros Hc (Hk & -> & _ & Hall & _).
  destruct (decide (k = 0)) as [->|]; [by rewrite shift_0|].
  apply Hall. lia.
Qed.

Lemma walked_farthest_empty g c d k p :
  walked g c (vectors d) k p -> farthest p <> c -> get g (farthest p) = Ok 0.
Proof.
  intros (Hk & -> & _ & Hall & _) Hne.
  destruct (decide (k = 0)) as [->|]; [by rewrite shift_0 in Hne|].
  apply Hall. lia.
Qed.

Lemma walked_next_ne g c d k p : walked g c (vectors d) k p -> next p <> c.
Proof. intros (Hk & _ & -> & _). apply shift_ne. lia. Qed.

(** ** One tile of a move *)

Lemma moveTile_tileStep d c s l :
  shaped (grid s) -> shaped (merged l) -> withinBounds c = true ->
  exists sl', moveTile (vectors d) c (s, l) = Ok sl' /\ tileStep c (s, l) sl'.
Proof.
  intros Hg Hm Hc. unfold moveTile.
  destruct (get_within _ c Hg Hc) as [tile Htile]. rewrite Htile. simpl.
  destruct (tile =? 0) eqn:Hz; simpl; [eauto using tileStep|].
  apply Z.eqb_neq in Hz.
  destruct (findFarthestPosition_walked (grid s) d c Hg Hc) as (k & p & -> & Hw). simpl.
  pose proof (walked_farthest_within _ _ _ _ _ Hc Hw) as Hfar.
  pose proof (walked_next_ne _ _ _ _ _ Hw) as Hnext.
  assert (exists b : bool,
    (if withinBounds (next p)
     then v ← get (grid s) (next p);
          if v =? tile then m ← get (merged l) (next p); Ok (negb m) else Ok false
     else Ok false) = Ok b /\
    (b = true -> withinBounds (next p) = true /\ get (grid s) (next p) = Ok tile /\
                 get (merged l) (next p) = Ok false)) as (b & -> & Hb).
  { destruct (withinBounds (next p)) eqn:Hin; [|by exists false].
    destruct (get_within _ _ Hg Hin) as [v Hv]. rewrite Hv. simpl.
    destruct (v =? tile) eqn:Hvt; [|by exists false].
    apply Z.eqb_eq in Hvt as ->.
    destruct (get_within _ _ Hm Hin) as [m Hmv]. rewrite Hmv. simpl.
    exists (negb m). split; [done|]. by destruct m. }
  simpl. destruct b.
  - destruct Hb as (Hin & Hv & Hmv); [done|].
    destruct (put_within _ _ (tile * 2) Hg Hin) as [g1 Hg1]. rewrite Hg1. simpl.
    destruct (put_within g1 c 0 (put_shaped _ _ _ _ Hg Hg1) Hc) as [g2 Hg2].
    rewrite Hg2. simpl.
    destruct (put_within _ _ true Hm Hin) as [m1 Hm1]. rewrite Hm1. simpl.
    eexists. split; [done|]. eapply tile_merges; eauto.
  - destruct (negb (x (farthest p) =? x c) || negb (y (farthest p) =? y c)) eqn:Hd.
    + assert (farthest p <> c) as Hne.
      { intros E. rewrite E, !Z.eqb_refl in Hd. discriminate. }
      destruct (put_within _ _ tile Hg Hfar) as [g1 Hg1]. rewrite Hg1. simpl.
      destruct (put_within g1 c 0 (put_shaped _ _ _ _ Hg Hg1) Hc) as [g2 Hg2].
      rewrite Hg2. simpl.
      eexists. split; [done|].
      eapply tile_slides; eauto using walked_farthest_empty.
    + eauto using tileStep.
Qed.

(** Processing a cell keeps both arrays 4 x 4. *)
Lemma tileStep_shaped c sl sl' :
  tileStep c sl sl' -> shaped (grid sl.1) -> shaped (merged sl.2) ->
  shaped (grid sl'.1) /\ shaped (merged sl'.2).
Proof.
  destruct 1; simpl; intros Hg Hm; split; eauto using put_shaped.
Qed.

(** ** The loops of a move *)

Lemma forEach_invariant {A St : Type} (I : St -> Prop) (P : A -> Prop)
    (f : A -> St -> res St) (xs : list A) (s : St) :
  Forall P xs ->
  (forall a s, P a -> I s -> exists s', f a s = Ok s' /\ I s') ->
  I s -> exists s', forEach xs f s = Ok s' /\ I s'.
Proof.
  intros HP Hf. revert s. induction HP as [|a xs Ha _ IH]; intros s Hs; simpl.
  - eauto.
  - destruct (Hf a s Ha Hs) as (s' & -> & Hs'). simpl. auto.
Qed.

Lemma traversal_within d :
  Forall (fun i => 0 <= i < GRID_SIZE) (tx (buildTraversals (vectors d))) /\
  Forall (fun i => 0 <= i < GRID_SIZE) (ty (buildTraversals (vectors d))).
Proof. destruct d; split; vm_compute; repeat constructor; congruence. Qed.

Lemma filled_shaped {A : Type} (v : A) : shaped (filled v).
Proof. split; [done|]. repeat constructor. Qed.

(** Every property that holds when a move starts and that processing a
    cell of the board preserves holds when the two loops end; and they
    do end, without an error. *)
Lemma resolve_invariant (I : state * locals -> Prop) d s :
  shaped (grid s) ->
  I (s, Locals (filled false) [] false) ->
  (forall c sl sl',
     withinBounds c = true -> shaped (grid sl.1) -> shaped (merged sl.2) ->
     I sl -> tileStep c sl sl' -> I sl') ->
  exists sl', resolve d s = Ok sl' /\ I sl' /\ shaped (grid sl'.1).
Proof.
  intros Hg H0 Hstep. unfold resolve.
  destruct (traversal_within d) as [Hx Hy].
  pose (J := fun sl : state * locals => I sl /\ shaped (grid sl.1) /\ shaped (merged sl.2)).
  destruct (forEach_invariant J (fun i => 0 <= i < GRID_SIZE)
              (fun yi => forEach (tx (buildTraversals (vectors d)))
                           (fun xi => moveTile (vectors d) (Cell xi yi)))
              (ty (buildTraversals (vectors d)))
              (s, Locals (filled false) [] false) Hy) as (sl' & Hr & HI & Hg' & _).
  - intros yi sl Hyi HJ.
    apply (forEach_invariant J (fun i => 0 <= i < GRID_SIZE)); [done| |done].
    intros xi [s1 l1] Hxi (HI & Hg1 & Hm1).
    assert (withinBounds (Cell xi yi) = true) as Hc by (apply withinBounds_spec; done).
    destruct (moveTile_tileStep d _ s1 l1 Hg1 Hm1 Hc) as (sl' & -> & Hts).
    exists sl'. split; [done|].
    destruct (tileStep_shaped _ _ _ Hts Hg1 Hm1). split; [|split]; eauto.
  - split; [|split]; simpl; auto using filled_shaped.
  - eauto.
Qed.

(** ** Sums of tile values *)

Lemma sumZ_insert (l : list Z) i a b :
  l !! i = Some a -> sumZ (<[i := b]> l) = sumZ l - a + b.
Proof.
  revert i. induction l as [|h l IH]; intros [|i] Hi; simplify_eq/=; [lia|].
  rewrite (IH i Hi). lia.
Qed.

Lemma sumZ_app l1 l2 : sumZ (l1 ++ l2) = sumZ l1 + sumZ l2.
Proof. induction l1 as [|h l1 IH]; simpl; [done|]. rewrite IH. lia. Qed.

Lemma boardSum_put g c old v g' :
  get g c = Ok old -> put g c v = Ok g' -> boardSum g' = boardSum g - old + v.
Proof.
  intros (_ & _ & a & Ha & Hold)%get_Ok (_ & _ & a' & Ha' & _ & ->)%put_Ok.
  rewrite Ha in Ha'. injection Ha' as <-.
  unfold boardSum. rewrite list_fmap_insert.
  rewrite (sumZ_insert _ _ (sumZ a)) by (by rewrite list_lookup_fmap, Ha).
  rewrite (sumZ_insert a _ old) by done. lia.
Qed.

Lemma tileStep_boardSum c s l s' l' :
  tileStep c (s, l) (s', l') -> boardSum (grid s') = boardSum (grid s).
Proof.
  inversion 1; subst; simpl; [done| |].
  - rewrite (boardSum_put g1 c tile 0 g2); [|by erewrite get_put_ne|done].
    rewrite (boardSum_put (grid s) far 0 tile g1) by done. lia.
  - rewrite (boardSum_put g1 c tile 0 g2); [|by erewrite get_put_ne|done].
    rewrite (boardSum_put (grid s) nxt tile (tile * 2) g1) by done. lia.
Qed.

Lemma tileStep_score c s l s' l' :
  tileStep c (s, l) (s', l') ->
  score s' - mergeSum (mergedTiles l') = score s - mergeSum (mergedTiles l).
Proof.
  inversion 1; subst; simpl; [done..|].
  unfold mergeSum. rewrite fmap_app, sumZ_app. simpl. lia.
Qed.

(** ** A move that changes nothing *)

Lemma tileStep_moved c sl sl' : tileStep c sl sl' -> moved sl'.2 = false -> sl' = sl.
Proof. destruct 1; simpl; [done|discriminate..]. Qed.

Lemma resolve_unmoved d s :
  shaped (grid s) ->
  exists s' l, resolve d s = Ok (s', l) /\ (moved l = false -> s' = s).
Proof.
  intros Hg.
  destruct (resolve_invariant
    (fun sl => moved sl.2 = false -> sl.1 = s) d s Hg) as ([s' l] & Hr & HI & _).
  - done.
  - intros c sl sl' _ _ _ HI Hts Hm.
    pose proof (tileStep_moved _ _ _ Hts Hm) as E. subst sl'. auto.
  - eauto.
Qed.

Lemma move_unmoved d s :
  shaped (grid s) ->
  exists s' changed, move d s = Ok (s', changed) /\ (changed = false -> s' = s).
Proof.
  intros Hg. unfold move. destruct (isAnimating s).
  - exists s, false. auto.
  - destruct (resolve_unmoved d s Hg) as (s' & l & -> & Hs). simpl.
    destruct (moved l).
    + eexists _, true. split; [done|]. discriminate.
    + exists s', false. auto.
Qed.

(** ** Merge destinations *)

Lemma tileStep_mergesFlagged c s l s' l' :
  tileStep c (s, l) (s', l') -> mergesFlagged l -> mergesFlagged l'.
Proof.
  inversion 1; subst; [done..|]. intros [Hnd Hfl]. split; simpl.
  - rewrite fmap_app. simpl. apply list.NoDup_app. split; [done|]. split; [|apply NoDup_singleton].
    intros c' (t & -> & Ht)%list_elem_of_fmap E%list_elem_of_singleton.
    specialize (Hfl t Ht). rewrite E in Hfl. unfold destination in Hfl. simpl in Hfl.
    destruct nxt; simpl in *. congruence.
  - intros t [Ht | ->%list_elem_of_singleton]%elem_of_app.
    + destruct (decide (nxt = destination t)) as [->|Hne].
      * eapply get_put_eq; eauto.
      * erewrite get_put_ne; eauto.
    + unfold destination. simpl. destruct nxt. eapply get_put_eq; eauto.
Qed.

(** ** Claims about one move *)

Lemma rowBoard_shaped a b c d : shaped (rowBoard [a; b; c; d]).
Proof. split; [done|]. repeat constructor. Qed.

(** C1, as claimed, fails: sliding the row [2,2,0,0] to the left merges
    the two tiles into one 4; the tiles sum to 4 before and to 4 after
    the move, not to 4 plus the merged value 4. *)
Lemma conservation_with_merge_values_fails :
  exists s' l,
    resolve left (mk (rowBoard [2; 2; 0; 0])) = Ok (s', l) /\
    mergedTiles l = [MergedTile 0 0 4] /\
    boardSum (rowBoard [2; 2; 0; 0]) = 4 /\
    boardSum (grid s') = 4 /\
    boardSum (grid s') <> boardSum (rowBoard [2; 2; 0; 0]) + mergeSum (mergedTiles l).
Proof. eexists _, _. split; [vm_compute; reflexivity|]. by vm_compute. Qed.

(** C1, amended: a move, and in particular a move in which at least one
    merge occurs, leaves the sum of all tile values of the grid as it
    was before the move (the spawn comes later); the sum of the merge
    events' resulting values is what the move adds to the score. *)
Theorem move_conserves_sum d s :
  shaped (grid s) ->
  exists s' l,
    resolve d s = Ok (s', l) /\
    boardSum (grid s') = boardSum (grid s) /\
    score s' = score s + mergeSum (mergedTiles l).
Proof.
  intros Hg.
  destruct (resolve_invariant
    (fun sl => boardSum (grid sl.1) = boardSum (grid s) /\
               score sl.1 - mergeSum (mergedTiles sl.2) = score s) d s Hg)
    as ([s' l] & Hr & [Hsum Hscore] & _).
  - simpl. split; [done|]. unfold mergeSum. simpl. lia.
  - intros c [s1 l1] [s2 l2] _ _ _ [Hsum Hscore] Hts. simpl in *.
    rewrite (tileStep_boardSum _ _ _ _ _ Hts), (tileStep_score _ _ _ _ _ Hts). done.
  - exists s', l. simpl in *. repeat split; auto. lia.
Qed.

Lemma move_conserves_sum_witness :
  shaped (grid (mk (rowBoard [2; 2; 4; 4]))) /\
  exists s' l,
    resolve right (mk (rowBoard [2; 2; 4; 4])) = Ok (s', l) /\
    boardSum (grid s') = boardSum (grid (mk (rowBoard [2; 2; 4; 4]))) /\
    score s' = score (mk (rowBoard [2; 2; 4; 4])) + mergeSum (mergedTiles l).
Proof.
  split; [apply rowBoard_shaped|].
  apply (move_conserves_sum right (mk (rowBoard [2; 2; 4; 4]))). apply rowBoard_shaped.
Defined.

(** C2: in a move, in any direction and from any board, the merge
    events name pairwise distinct cells, so no cell receives more than
    one merge; and the row [2,2,2,0] sliding left becomes [4,2,0,0]. *)
Theorem merge_once_per_cell d s :
  shaped (grid s) ->
  (exists s' l, resolve d s = Ok (s', l) /\ NoDup (destination <$> mergedTiles l)) /\
  (exists s' l, resolve left (set_grid (rowBoard [2; 2; 2; 0]) s) = Ok (s', l) /\
                grid s' = rowBoard [4; 2; 0; 0] /\
                grid s' <> rowBoard [4; 4; 0; 0] /\
                grid s' <> rowBoard [8; 0; 0; 0]).
Proof.
  intros Hg. split.
  - destruct (resolve_invariant (fun sl => mergesFlagged sl.2) d s Hg)
      as ([s' l] & Hr & [Hnd _] & _).
    + split; simpl; [constructor|]. intros t Ht. by apply elem_of_nil in Ht.
    + intros c [s1 l1] [s2 l2] _ _ _ HI Hts. eapply tileStep_mergesFlagged; eauto.
    + eauto.
  - eexists _, _. split; [vm_compute; reflexivity|]. simpl. by repeat split.
Qed.

Lemma merge_once_per_cell_witness :
  shaped (grid (mk [[2; 2; 2; 2]; [2; 2; 4; 4]; [0; 2; 2; 2]; [4; 4; 4; 4]])) /\
  exists s' l,
    resolve left (mk [[2; 2; 2; 2]; [2; 2; 4; 4]; [0; 2; 2; 2]; [4; 4; 4; 4]]) = Ok (s', l) /\
    NoDup (destination <$> mergedTiles l).
Proof.
  assert (shaped (grid (mk [[2; 2; 2; 2]; [2; 2; 4; 4]; [0; 2; 2; 2]; [4; 4; 4; 4]]))) as Hg
    by (split; [done | repeat constructor]).
  split; [exact Hg|].
  exact (proj1 (merge_once_per_cell left _ Hg)).
Defined.

(** C4: a move that moves no tile (it returns [false]) leaves the whole
    state as it was: the grid, the score, and also the set of scheduled
    end-of-move callbacks and the random source, so that no tile is
    spawned. *)
Theorem rejected_move_changes_nothing d s :
  shaped (grid s) ->
  exists s' changed,
    move d s = Ok (s', changed) /\
    (changed = false ->
       s' = s /\ grid s' = grid s /\ score s' = score s /\
       pending s' = pending s /\ drawn s' = drawn s).
Proof.
  intros Hg. destruct (move_unmoved d s Hg) as (s' & changed & Hm & Hs).
  exists s', changed. split; [done|]. intros Hc. by rewrite (Hs Hc).
Qed.

Lemma rejected_move_changes_nothing_witness :
  shaped (grid (mk [[2; 4; 0; 0]; [4; 0; 0; 0]; [2; 4; 8; 0]; [0; 0; 0; 0]])) /\
  exists s' changed,
    move left (mk [[2; 4; 0; 0]; [4; 0; 0; 0]; [2; 4; 8; 0]; [0; 0; 0; 0]])
      = Ok (s', changed) /\
    (changed = false ->
       s' = mk [[2; 4; 0; 0]; [4; 0; 0; 0]; [2; 4; 8; 0]; [0; 0; 0; 0]] /\
       grid s' = [[2; 4; 0; 0]; [4; 0; 0; 0]; [2; 4; 8; 0]; [0; 0; 0; 0]] /\
       score s' = 0 /\ pending s' = 0%nat /\ drawn s' = 0%nat).
Proof.
  assert (shaped (grid (mk [[2; 4; 0; 0]; [4; 0; 0; 0]; [2; 4; 8; 0]; [0; 0; 0; 0]]))) as Hg
    by (split; [done | repeat constructor]).
  split; [exact Hg|].
  exact (rejected_move_changes_nothing left _ Hg).
Defined.

(** C10: on a 4 x 4 grid the farthest-position search, the slide-and-merge
    loops and [move] itself end without an error.  A read or a write of
    the model at a cell off the board is the error [OutOfBounds], so
    every cell they read or write lies on the board. *)
Theorem move_accesses_within_bounds d s :
  shaped (grid s) ->
  (forall c v, get (grid s) c = Ok v -> withinBounds c = true) /\
  (forall c v g', put (grid s) c v = Ok g' -> withinBounds c = true) /\
  (forall c, withinBounds c = true ->
     exists p, findFarthestPosition (grid s) c (vectors d) = Ok p /\
               withinBounds (farthest p) = true) /\
  (exists sl, resolve d s = Ok sl) /\
  (exists r, move d s = Ok r).
Proof.
  intros Hg. split; [|split; [|split; [|split]]].
  - intros c v. by apply get_Ok_within.
  - intros c v g'. by apply put_Ok_within.
  - intros c Hc.
    destruct (findFarthestPosition_walked (grid s) d c Hg Hc) as (k & p & Hp & Hw).
    exists p. eauto using walked_farthest_within.
  - destruct (resolve_invariant (fun _ => True) d s Hg) as (sl & Hr & _); eauto.
  - destruct (move_unmoved d s Hg) as (s' & b & Hm & _). eauto.
Qed.

Lemma move_accesses_within_bounds_witness :
  shaped (grid (mk [[2; 0; 2; 4]; [0; 4; 4; 8]; [2; 2; 0; 0]; [16; 0; 0; 16]])) /\
  (exists sl,
     resolve down (mk [[2; 0; 2; 4]; [0; 4; 4; 8]; [2; 2; 0; 0]; [16; 0; 0; 16]]) = Ok sl) /\
  (exists r,
     move down (mk [[2; 0; 2; 4]; [0; 4; 4; 8]; [2; 2; 0; 0]; [16; 0; 0; 16]]) = Ok r).
Proof.
  assert (shaped (grid (mk [[2; 0; 2; 4]; [0; 4; 4; 8]; [2; 2; 0; 0]; [16; 0; 0; 16]]))) as Hg
    by (split; [done | repeat constructor]).
  split; [exact Hg|].
  exact (proj2 (proj2 (proj2 (move_accesses_within_bounds down _ Hg)))).
Defined.

(** ** The order of traversal *)

Lemma forEach_app {A St : Type} (f : A -> St -> res St) xs ys s :
  forEach (xs ++ ys) f s = forEach xs f s ≫= forEach ys f.
Proof.
  revert s. induction xs as [|a xs IH]; intros s; simpl; [done|].
  destruct (f a s); simpl; auto.
Qed.

Lemma forEach_map {A B St : Type} (h : A -> B) (f : B -> St -> res St) xs s :
  forEach (map h xs) f s = forEach xs (fun a => f (h a)) s.
Proof.
  revert s. induction xs as [|a xs IH]; intros s; simpl; [done|].
  destruct (f (h a) s); simpl; auto.
Qed.

Lemma forEach_nested {A B C St : Type} (h : A -> B -> C) (f : C -> St -> res St) xs ys s :
  forEach ys (fun b => forEach xs (fun a => f (h a b))) s =
  forEach (flat_map (fun b => map (fun a => h a b) xs) ys) f s.
Proof.
  revert s. induction ys as [|b ys IH]; intros s; simpl; [done|].
  rewrite forEach_app, forEach_map.
  destruct (forEach xs (fun a => f (h a b)) s); simpl; auto.
Qed.

Lemma resolve_cellOrder d s :
  resolve d s =
  forEach (cellOrder d) (moveTile (vectors d)) (s, Locals (filled false) [] false).
Proof. unfold resolve, cellOrder. apply (forEach_nested (fun xi yi => Cell xi yi)). Qed.

Lemma small_cases (i : Z) : 0 <= i < GRID_SIZE -> i = 0 \/ i = 1 \/ i = 2 \/ i = 3.
Proof. unfold GRID_SIZE. lia. Qed.

Lemma cellOrder_rank d c : withinBounds c = true -> cellOrder d !! rank d c = Some c.
Proof.
  destruct c as [cx cy]. rewrite withinBounds_spec. simpl. intros [Hx Hy].
  apply small_cases in Hx, Hy.
  destruct d, Hx as [->|[->|[->| ->]]], Hy as [->|[->|[->| ->]]]; reflexivity.
Qed.

Lemma rank_farther d c k :
  0 < k -> withinBounds c = true -> withinBounds (shift c (vectors d) k) = true ->
  (rank d (shift c (vectors d) k) < rank d c)%nat.
Proof.
  rewrite !withinBounds_spec. unfold rank, shift, GRID_SIZE.
  destruct d; simpl; lia.
Qed.

(** C3: the column order is reversed exactly for the vector with x = 1
    and the row order exactly for the vector with y = 1; the loops of a
    move visit the cells in that order, which puts a cell that lies
    farther in the direction of travel before every cell behind it; and
    the row [0,2,2,2] sliding right becomes [0,0,2,4]. *)
Theorem traversal_farthest_first d s :
  buildTraversals (vectors right) = Traversal [3; 2; 1; 0] [0; 1; 2; 3] /\
  buildTraversals (vectors down) = Traversal [0; 1; 2; 3] [3; 2; 1; 0] /\
  buildTraversals (vectors left) = Traversal [0; 1; 2; 3] [0; 1; 2; 3] /\
  buildTraversals (vectors up) = Traversal [0; 1; 2; 3] [0; 1; 2; 3] /\
  resolve d s =
    forEach (cellOrder d) (moveTile (vectors d)) (s, Locals (filled false) [] false) /\
  (forall c k,
     0 < k -> withinBounds c = true -> withinBounds (shift c (vectors d) k) = true ->
     exists i j, (i < j)%nat /\
       cellOrder d !! i = Some (shift c (vectors d) k) /\ cellOrder d !! j = Some c) /\
  (exists s' l, resolve right (set_grid (rowBoard [0; 2; 2; 2]) s) = Ok (s', l) /\
                grid s' = rowBoard [0; 0; 2; 4]).
Proof.
  repeat split; try reflexivity.
  - apply resolve_cellOrder.
  - intros c k Hk Hc Hc'.
    exists (rank d (shift c (vectors d) k)), (rank d c).
    auto using rank_farther, cellOrder_rank.
  - eexists _, _. split; [vm_compute; reflexivity|]. reflexivity.
Qed.

Lemma traversal_farthest_first_witness :
  exists i j, (i < j)%nat /\
    cellOrder right !! i = Some (Cell 3 2) /\ cellOrder right !! j = Some (Cell 1 2).
Proof.
  destruct (traversal_farthest_first right (mk (rowBoard [0; 2; 2; 2])))
    as (_ & _ & _ & _ & _ & H & _).
  apply (H (Cell 1 2) 2); [lia | reflexivity | reflexivity].
Defined.

(** ** The farthest-position search and the merged flags *)

(** C5, as claimed, fails.  Sliding the row [2,2,4,0] to the left, the
    first two cells leave the row [4,0,4,0] with the cell (0,0) flagged
    as merged into.  For the tile 4 at x = 2 the search of the code
    stops in front of that flagged cell: the landing spot is x = 1 and
    [next] is x = 0.  A walk that stops only at cells that are non-empty
    and not yet merged into passes over it and ends at the edge. *)
Lemma search_stops_at_merged_cell :
  exists s l,
    forEach [Cell 0 0; Cell 1 0] (moveTile (vectors left))
      (mk (rowBoard [2; 2; 4; 0]), Locals (filled false) [] false) = Ok (s, l) /\
    grid s = rowBoard [4; 0; 4; 0] /\
    get (merged l) (Cell 0 0) = Ok true /\
    findFarthestPosition (grid s) (Cell 2 0) (vectors left)
      = Ok (Positions (Cell 1 0) (Cell 0 0)) /\
    specFarthestPosition (grid s) (merged l) (Cell 2 0) (vectors left)
      = Ok (Positions (Cell 0 0) (Cell (-1) 0)) /\
    findFarthestPosition (grid s) (Cell 2 0) (vectors left)
      <> specFarthestPosition (grid s) (merged l) (Cell 2 0) (vectors left).
Proof. eexists _, _. split; [vm_compute; reflexivity|]. by vm_compute. Qed.

(** C5, amended: from a cell of the board the search walks step by step
    along the direction vector over [k] empty cells, until the next step
    would leave the board or land on a non-empty cell, merged into
    during this move or not (the search takes the grid only, not the
    flags); the landing spot [farthest] is the last cell reached and
    [next] is the cell immediately beyond it, the first cell that is
    off the board or non-empty. *)
Theorem search_walks_to_first_obstacle g d c :
  shaped g -> withinBounds c = true ->
  exists k p,
    findFarthestPosition g c (vectors d) = Ok p /\
    0 <= k /\
    farthest p = shift c (vectors d) k /\
    next p = shift c (vectors d) (k + 1) /\
    (forall i, 1 <= i <= k ->
       withinBounds (shift c (vectors d) i) = true /\
       get g (shift c (vectors d) i) = Ok 0) /\
    (withinBounds (next p) = false \/ exists w, get g (next p) = Ok w /\ w <> 0).
Proof.
  intros Hg Hc. unfold findFarthestPosition.
  destruct (findLoop_walked (Z.to_nat GRID_SIZE) g d c Hg Hc) as (k & p & Hp & Hw).
  - pose proof (room_nonneg d c Hc). unfold GRID_SIZE in *. lia.
  - exists k, p. split; [done|]. exact Hw.
Qed.

Lemma search_walks_to_first_obstacle_witness :
  exists k p,
    findFarthestPosition (rowBoard [4; 0; 0; 2]) (Cell 3 0) (vectors left) = Ok p /\
    0 <= k /\
    farthest p = shift (Cell 3 0) (vectors left) k /\
    next p = shift (Cell 3 0) (vectors left) (k + 1) /\
    (forall i, 1 <= i <= k ->
       withinBounds (shift (Cell 3 0) (vectors left) i) = true /\
       get (rowBoard [4; 0; 0; 2]) (shift (Cell 3 0) (vectors left) i) = Ok 0) /\
    (withinBounds (next p) = false \/
     exists w, get (rowBoard [4; 0; 0; 2]) (next p) = Ok w /\ w <> 0).
Proof.
  apply (search_walks_to_first_obstacle (rowBoard [4; 0; 0; 2]) left (Cell 3 0)).
  - apply rowBoard_shaped.
  - reflexivity.
Defined.

(** ** Loops with an early return *)

Lemma anyM_pure {A : Type} (f : A -> res bool) (p : A -> bool) xs :
  (forall a, a ∈ xs -> f a = Ok (p a)) -> anyM f xs = Ok (existsb p xs).
Proof.
  induction xs as [|a xs IH]; intros Hf; simpl; [done|].
  rewrite (Hf a) by apply list_elem_of_here. simpl.
  destruct (p a); simpl; [done|].
  apply IH. intros b Hb. apply Hf. by apply list_elem_of_further.
Qed.

Lemma elem_of_positions i : i ∈ positions <-> 0 <= i < GRID_SIZE.
Proof. unfold positions. rewrite elem_of_seqZ. lia. Qed.

Lemma existsb_positions (p : Z -> bool) :
  existsb p positions = true <-> exists i, 0 <= i < GRID_SIZE /\ p i = true.
Proof.
  rewrite existsb_exists. split; intros (i & Hi & Hp); exists i; split; auto.
  - by apply elem_of_positions, list_elem_of_In.
  - by apply list_elem_of_In, elem_of_positions.
Qed.

Lemma get_peek g c : shaped g -> withinBounds c = true -> get g c = Ok (peek g c).
Proof. intros Hg Hc. unfold peek. by destruct (get_within g c Hg Hc) as [v ->]. Qed.

Lemma within_cell c r : 0 <= c < GRID_SIZE -> 0 <= r < GRID_SIZE -> withinBounds (Cell c r) = true.
Proof. intros. by apply withinBounds_spec. Qed.

Lemma bind_Ok {A B : Type} (a : A) (f : A -> res B) : Ok a ≫= f = f a.
Proof. reflexivity. Qed.

(** The two loops of [movesAvailable] as one boolean expression. *)
Lemma movesAvailable_pure g :
  shaped g ->
  movesAvailable g =
  Ok (existsb (fun r => existsb (fun c => peek g (Cell c r) =? 0) positions) positions
      || existsb (fun r => existsb (fun c =>
            (r <? GRID_SIZE - 1) && (peek g (Cell c (r + 1)) =? peek g (Cell c r))
            || (c <? GRID_SIZE - 1) && (peek g (Cell (c + 1) r) =? peek g (Cell c r)))
          positions) positions).
Proof.
  intros Hg. unfold movesAvailable.
  rewrite (anyM_pure
             (fun r => anyM (fun c => v ← get g (Cell c r); Ok (v =? 0)) positions)
             (fun r => existsb (fun c => peek g (Cell c r) =? 0) positions)).
  2:{ intros r Hr%elem_of_positions. apply anyM_pure.
      intros c Hc%elem_of_positions. by rewrite get_peek by auto using within_cell. }
  rewrite bind_Ok.
  destruct (existsb (fun r => existsb (fun c => peek g (Cell c r) =? 0) positions) positions);
    [done|].
  rewrite orb_false_l.
  apply anyM_pure. intros r Hr%elem_of_positions. apply anyM_pure.
  intros c Hc%elem_of_positions.
  rewrite (get_peek g (Cell c r)) by auto using within_cell.
  rewrite bind_Ok.
  destruct (r <? GRID_SIZE - 1) eqn:Er.
  - apply Z.ltb_lt in Er.
    rewrite (get_peek g (Cell c (r + 1)))
      by (auto; apply within_cell; unfold GRID_SIZE in *; lia).
    rewrite !bind_Ok, andb_true_l.
    destruct (peek g (Cell c (r + 1)) =? peek g (Cell c r)); [done|].
    rewrite orb_false_l.
    destruct (c <? GRID_SIZE - 1) eqn:Ec; [|done].
    apply Z.ltb_lt in Ec.
    by rewrite (get_peek g (Cell (c + 1) r))
      by (auto; apply within_cell; unfold GRID_SIZE in *; lia).
  - rewrite bind_Ok, andb_false_l, orb_false_l.
    destruct (c <? GRID_SIZE - 1) eqn:Ec; [|done].
    apply Z.ltb_lt in Ec.
    by rewrite (get_peek g (Cell (c + 1) r))
      by (auto; apply within_cell; unfold GRID_SIZE in *; lia).
Qed.

Lemma hasReached2048_pure g :
  shaped g ->
  hasReached2048 g =
  Ok (existsb (fun r => existsb (fun c => 2048 <=? peek g (Cell c r)) positions) positions).
Proof.
  intros Hg. unfold hasReached2048. apply anyM_pure.
  intros r Hr%elem_of_positions. apply anyM_pure.
  intros c Hc%elem_of_positions. by rewrite get_peek by auto using within_cell.
Qed.

Lemma get_iff_peek g c v :
  shaped g -> get g c = Ok v <-> withinBounds c = true /\ peek g c = v.
Proof.
  intros Hg. split.
  - intros Hv. split; [eauto using get_Ok_within|]. unfold peek. by rewrite Hv.
  - intros [Hc <-]. by apply get_peek.
Qed.

(** ** Terminal detection *)

Lemma anyEmpty_iff g :
  shaped g ->
  existsb (fun r => existsb (fun c => peek g (Cell c r) =? 0) positions) positions = true
  <-> exists c, get g c = Ok 0.
Proof.
  intros Hg. rewrite existsb_positions. split.
  - intros (r & Hr & (c & Hc & Hz%Z.eqb_eq)%existsb_positions).
    exists (Cell c r). apply get_iff_peek; auto using within_cell.
  - intros ([c r] & Hz). apply get_iff_peek in Hz as [Hin Hz]; [|done].
    apply withinBounds_spec in Hin as [Hc Hr]. simpl in Hc, Hr.
    exists r. split; [done|]. apply existsb_positions. exists c. split; [done|].
    by apply Z.eqb_eq.
Qed.

Lemma anyPair_iff g :
  shaped g ->
  existsb (fun r => existsb (fun c =>
      (r <? GRID_SIZE - 1) && (peek g (Cell c (r + 1)) =? peek g (Cell c r))
      || (c <? GRID_SIZE - 1) && (peek g (Cell (c + 1) r) =? peek g (Cell c r)))
    positions) positions = true
  <-> exists c v, get g c = Ok v /\
        (get g (Cell (x c) (y c + 1)) = Ok v \/ get g (Cell (x c + 1) (y c)) = Ok v).
Proof.
  intros Hg. rewrite existsb_positions. split.
  - intros (r & Hr & (c & Hc & Hp)%existsb_positions).
    exists (Cell c r), (peek g (Cell c r)). split; [by apply get_peek, within_cell|].
    simpl. apply orb_true_iff in Hp as [Hp|Hp]; apply andb_true_iff in Hp as [Hlt Heq];
      apply Z.ltb_lt in Hlt; apply Z.eqb_eq in Heq; [left|right];
      (apply get_iff_peek; [done|]); (split; [|done]);
      apply within_cell; unfold GRID_SIZE in *; lia.
  - intros ([c r] & v & Hv & Hn). simpl in Hn.
    apply get_iff_peek in Hv as [Hin Hv]; [|done].
    apply withinBounds_spec in Hin as [Hc Hr]. simpl in Hc, Hr.
    exists r. split; [done|]. apply existsb_positions. exists c. split; [done|].
    apply orb_true_iff.
    destruct Hn as [Hn|Hn]; apply get_iff_peek in Hn as [Hin' Hv']; try done;
      apply withinBounds_spec in Hin' as [Hc' Hr']; simpl in Hc', Hr'; [left|right];
      apply andb_true_iff; (split; [apply Z.ltb_lt; lia | apply Z.eqb_eq; congruence]).
Qed.

Lemma adjacent_cases c1 c2 :
  adjacent c1 c2 <->
  c2 = Cell (x c1) (y c1 + 1) \/ c2 = Cell (x c1 + 1) (y c1) \/
  c1 = Cell (x c2) (y c2 + 1) \/ c1 = Cell (x c2 + 1) (y c2).
Proof.
  destruct c1 as [x1 y1], c2 as [x2 y2]. unfold adjacent. simpl. split.
  - intros H.
    assert ((x2 = x1 /\ y2 = y1 + 1) \/ (x2 = x1 + 1 /\ y2 = y1) \/
            (x1 = x2 /\ y1 = y2 + 1) \/ (x1 = x2 + 1 /\ y1 = y2)) as Hc by lia.
    destruct Hc as [[-> ->]|[[-> ->]|[[-> ->]|[-> ->]]]]; auto.
  - intros [[= -> ->]|[[= -> ->]|[[= -> ->]|[= -> ->]]]]; lia.
Qed.

(** C7: on every board [movesAvailable()] returns, and it returns
    [true] exactly when some cell is empty or two adjacent cells hold
    equal values; looking at the neighbour to the right and the one
    below each cell finds every such pair.  A full board therefore
    reports [true] exactly when it has an equal adjacent pair. *)
Theorem movesAvailable_iff g :
  shaped g ->
  exists b,
    movesAvailable g = Ok b /\
    (b = true <->
       (exists c, get g c = Ok 0) \/
       (exists c1 c2 v, adjacent c1 c2 /\ get g c1 = Ok v /\ get g c2 = Ok v)) /\
    (b = true <->
       (exists c, get g c = Ok 0) \/
       (exists c v, get g c = Ok v /\
          (get g (Cell (x c) (y c + 1)) = Ok v \/ get g (Cell (x c + 1) (y c)) = Ok v))).
Proof.
  intros Hg. eexists. split; [by apply movesAvailable_pure|].
  rewrite orb_true_iff, anyEmpty_iff, anyPair_iff by done.
  split; [|done]. split.
  - intros [He|(c & v & Hv & [Hn|Hn])]; [by left| |]; right.
    + exists c, (Cell (x c) (y c + 1)), v. repeat split; auto.
      apply adjacent_cases. auto.
    + exists c, (Cell (x c + 1) (y c)), v. repeat split; auto.
      apply adjacent_cases. auto.
  - intros [He|(c1 & c2 & v & Hadj & H1 & H2)]; [by left|]. right.
    apply adjacent_cases in Hadj as [->|[->|[->| ->]]]; eauto.
Qed.

Lemma movesAvailable_iff_witness :
  movesAvailable [[2; 4; 2; 4]; [4; 2; 4; 2]; [2; 4; 2; 4]; [4; 2; 4; 2]] = Ok false /\
  movesAvailable [[2; 4; 2; 4]; [4; 2; 4; 2]; [2; 4; 2; 4]; [4; 2; 4; 4]] = Ok true /\
  exists b,
    movesAvailable [[2; 4; 2; 4]; [4; 2; 4; 2]; [2; 4; 2; 4]; [4; 2; 8; 8]] = Ok b /\
    (b = true <->
       (exists c, get [[2; 4; 2; 4]; [4; 2; 4; 2]; [2; 4; 2; 4]; [4; 2; 8; 8]] c = Ok 0) \/
       (exists c1 c2 v, adjacent c1 c2 /\
          get [[2; 4; 2; 4]; [4; 2; 4; 2]; [2; 4; 2; 4]; [4; 2; 8; 8]] c1 = Ok v /\
          get [[2; 4; 2; 4]; [4; 2; 4; 2]; [2; 4; 2; 4]; [4; 2; 8; 8]] c2 = Ok v)).
Proof.
  split; [reflexivity|]. split; [reflexivity|].
  destruct (movesAvailable_iff [[2; 4; 2; 4]; [4; 2; 4; 2]; [2; 4; 2; 4]; [4; 2; 8; 8]])
    as (b & Hb & Hiff & _).
  - split; [done | repeat constructor].
  - exists b. split; [exact Hb | exact Hiff].
Defined.

(** ** What a move depends on *)

(** Processing a cell reads the grid and the locals only: from two
    states with the same grid it does the same to both. *)
Lemma moveTile_same v c s1 s2 l :
  grid s1 = grid s2 ->
  match moveTile v c (s1, l), moveTile v c (s2, l) with
  | Ok (s1', l1), Ok (s2', l2) =>
      grid s1' = grid s2' /\ l1 = l2 /\
      score s1' - score s1 = score s2' - score s2 /\
      env s1' = env s1 /\ env s2' = env s2
  | Err e1, Err e2 => e1 = e2
  | _, _ => False
  end.
Proof.
  intros Hg. unfold moveTile. rewrite Hg.
  destruct (get (grid s2) c) as [tile|]; simpl; [|done].
  destruct (tile =? 0); simpl; [repeat split; auto; lia|].
  destruct (findFarthestPosition (grid s2) c v) as [p|]; simpl; [|done].
  destruct (if withinBounds (next p)
            then get (grid s2) (next p) ≫= λ v0 : Z,
                   if v0 =? tile
                   then get (merged l) (next p) ≫= λ m : bool, Ok (negb m)
                   else Ok false
            else Ok false) as [[|]|]; simpl; [| |done].
  - destruct (put (grid s2) (next p) (tile * 2)) as [g1|]; simpl; [|done].
    destruct (put g1 c 0) as [g2|]; simpl; [|done].
    destruct (put (merged l) (next p) true) as [m1|]; simpl; [|done].
    repeat split; auto; lia.
  - destruct (negb (x (farthest p) =? x c) || negb (y (farthest p) =? y c)).
    + destruct (put (grid s2) (farthest p) tile) as [g1|]; simpl; [|done].
      destruct (put g1 c 0) as [g2|]; simpl; [|done].
      repeat split; auto; lia.
    + repeat split; auto; lia.
Qed.

Lemma forEach_moveTile_same v cs a0 b0 a b l :
  grid a = grid b -> score a - score a0 = score b - score b0 ->
  env a = env a0 -> env b = env b0 ->
  sameOutcome a0 b0 (forEach cs (moveTile v) (a, l)) (forEach cs (moveTile v) (b, l)).
Proof.
  revert a b l. induction cs as [|c cs IH]; intros a b l Hg Hs Ha Hb; cbn [forEach].
  - simpl. auto.
  - pose proof (moveTile_same v c a b l Hg) as Hstep.
    destruct (moveTile v c (a, l)) as [[a' l1]|e1], (moveTile v c (b, l)) as [[b' l2]|e2];
      try done.
    destruct Hstep as (Hg' & <- & Hs' & Ha' & Hb').
    rewrite !bind_Ok. apply IH; [done | lia | congruence | congruence].
Qed.

(** C9: the slide-and-merge phase is a function of the grid and the
    direction alone.  Two runs from states with the same grid, whatever
    their scores, flags and random sources, end the same way, and when
    they end well they leave the same grid, the same changed flag and
    the same list of merge events; neither draws a random number. *)
Theorem resolve_deterministic d s1 s2 :
  grid s1 = grid s2 ->
  match resolve d s1, resolve d s2 with
  | Ok (s1', l1), Ok (s2', l2) =>
      grid s1' = grid s2' /\ moved l1 = moved l2 /\ mergedTiles l1 = mergedTiles l2 /\
      drawn s1' = drawn s1 /\ drawn s2' = drawn s2
  | Err e1, Err e2 => e1 = e2
  | _, _ => False
  end.
Proof.
  intros Hg. rewrite !resolve_cellOrder.
  pose proof (forEach_moveTile_same (vectors d) (cellOrder d) s1 s2 s1 s2
                (Locals (filled false) [] false) Hg) as H.
  unfold sameOutcome in H.
  destruct (forEach (cellOrder d) (moveTile (vectors d)) (s1, _)) as [[s1' l1]|e1],
           (forEach (cellOrder d) (moveTile (vectors d)) (s2, _)) as [[s2' l2]|e2];
    try (apply H; done || lia).
  destruct H as (Hg' & <- & _ & E1 & E2); [lia|done|done|].
  unfold env in E1, E2. repeat split; congruence.
Qed.

Lemma resolve_deterministic_witness :
  match resolve up (mk [[2; 0; 2; 4]; [2; 4; 2; 4]; [0; 0; 0; 8]; [2; 4; 4; 8]]),
        resolve up (State [[2; 0; 2; 4]; [2; 4; 2; 4]; [0; 0; 0; 8]; [2; 4; 4; 8]]
                      120 300 true false (fun n => Z.of_nat n * 977) 5 0 [YouWin]) with
  | Ok (s1', l1), Ok (s2', l2) =>
      grid s1' = grid s2' /\ moved l1 = moved l2 /\ mergedTiles l1 = mergedTiles l2 /\
      drawn s1' = 0%nat /\ drawn s2' = 5%nat
  | Err e1, Err e2 => e1 = e2
  | _, _ => False
  end.
Proof.
  exact (resolve_deterministic up
           (mk [[2; 0; 2; 4]; [2; 4; 2; 4]; [0; 0; 0; 8]; [2; 4; 4; 8]])
           (State [[2; 0; 2; 4]; [2; 4; 2; 4]; [0; 0; 0; 8]; [2; 4; 4; 8]]
              120 300 true false (fun n => Z.of_nat n * 977) 5 0 [YouWin])
           eq_refl).
Defined.

(** ** Tile values *)

Lemma valid_put g c v g' :
  valid g -> v = 0 \/ powerOfTwo v -> put g c v = Ok g' -> valid g'.
Proof.
  intros Hg Hv Hp c' w Hw. destruct (decide (c = c')) as [<-|Hne].
  - rewrite (get_put_eq _ _ _ _ Hp) in Hw. by injection Hw as <-.
  - rewrite (get_put_ne _ _ _ _ _ Hp Hne) in Hw. eauto.
Qed.

Lemma powerOfTwo_double v : powerOfTwo v -> powerOfTwo (v * 2).
Proof.
  intros (k & Hk & ->). exists (k + 1). split; [lia|].
  rewrite Z.pow_add_r by lia. lia.
Qed.

Lemma filled_get {A : Type} (v w : A) c : get (filled v) c = Ok w -> w = v.
Proof.
  intros (_ & _ & a & Ha & Hw)%get_Ok. unfold filled in Ha.
  apply lookup_replicate in Ha as [-> _].
  by apply lookup_replicate in Hw as [-> _].
Qed.

Lemma tileStep_valid c s l s' l' :
  tileStep c (s, l) (s', l') -> valid (grid s) -> valid (grid s').
Proof.
  inversion 1; subst; simpl; intros Hv; [done| |].
  - eapply valid_put; [|by left|done].
    eapply valid_put; [done| |done]. eauto.
  - eapply valid_put; [|by left|done].
    eapply valid_put; [done| |done].
    right. apply powerOfTwo_double. destruct (Hv c tile); [done..|]. done.
Qed.

Lemma tileStep_env c s l s' l' : tileStep c (s, l) (s', l') -> env s' = env s.
Proof. by inversion 1. Qed.

(** ** Spawning *)

Lemma floorScaled_bound u n : 0 < n -> 0 <= floorScaled u n < n.
Proof.
  intros Hn. unfold floorScaled.
  assert (0 < RESOLUTION) as HR by done.
  pose proof (Z.mod_pos_bound u RESOLUTION HR) as Hu. split.
  - apply Z.div_pos; [|done]. apply Z.mul_nonneg_nonneg; lia.
  - apply Z.div_lt_upper_bound; [done|]. apply Z.mul_lt_mono_pos_r; lia.
Qed.

Lemma emptyCellsOf_within g :
  shaped g ->
  exists cells, emptyCellsOf g = Ok cells /\
    Forall (fun rc => withinBounds (Cell rc.2 rc.1) = true) cells.
Proof.
  intros Hg. unfold emptyCellsOf.
  apply (forEach_invariant _ (fun i => 0 <= i < GRID_SIZE));
    [apply Forall_forall; intros; by apply elem_of_positions, list_elem_of_In | | done].
  intros r acc Hr Hacc.
  apply (forEach_invariant _ (fun i => 0 <= i < GRID_SIZE));
    [apply Forall_forall; intros; by apply elem_of_positions, list_elem_of_In | | done].
  intros c acc' Hc Hacc'.
  rewrite (get_peek g (Cell c r)) by auto using within_cell. rewrite bind_Ok.
  eexists. split; [done|]. destruct (peek g (Cell c r) =? 0); [|done].
  apply Forall_app. split; [done|]. constructor; [|done]. by apply within_cell.
Qed.

(** [spawnTile] returns; it leaves the state alone or writes a 2 or a 4
    into a cell of the board, and touches nothing but the grid and the
    random source. *)
Lemma spawnTile_spec s :
  shaped (grid s) ->
  exists s', spawnTile s = Ok s' /\
    (grid s' = grid s \/
     exists c v, (v = 2 \/ v = 4) /\ put (grid s) c v = Ok (grid s')) /\
    score s' = score s /\ bestScore s' = bestScore s /\ hasWon s' = hasWon s /\
    isAnimating s' = isAnimating s /\ pending s' = pending s /\ shown s' = shown s.
Proof.
  intros Hg. unfold spawnTile.
  destruct (emptyCellsOf_within (grid s) Hg) as (cells & -> & Hcells). rewrite bind_Ok.
  destruct (0 <? Z.of_nat (length cells)) eqn:Hlen; [|exists s; auto 10].
  apply Z.ltb_lt in Hlen. cbn [random].
  pose proof (floorScaled_bound (entropy s (drawn s)) _ Hlen) as Hidx.
  destruct (lookup_lt_is_Some_2 cells
              (Z.to_nat (floorScaled (entropy s (drawn s)) (Z.of_nat (length cells)))))
    as [rc Hrc]; [lia|].
  assert (index cells (floorScaled (entropy s (drawn s)) (Z.of_nat (length cells))) = Ok rc)
    as -> by (apply index_Ok; split; [lia | done]).
  rewrite bind_Ok. cbn [grid entropy drawn].
  assert (withinBounds (Cell rc.2 rc.1) = true) as Hin.
  { rewrite Forall_forall in Hcells. apply Hcells.
    apply list_elem_of_In, list_elem_of_lookup. eauto. }
  destruct (put_within (grid s) (Cell rc.2 rc.1)
              (if below09 (entropy s (S (drawn s))) then 2 else 4) Hg Hin) as [g' Hg'].
  rewrite Hg', bind_Ok. eexists. split; [done|]. simpl. split; [|auto 10].
  right. exists (Cell rc.2 rc.1), (if below09 (entropy s (S (drawn s))) then 2 else 4).
  split; [destruct (below09 _); auto | done].
Qed.

Lemma spawnTile_invariant s s' :
  shaped (grid s) -> spawnTile s = Ok s' ->
  shaped (grid s') /\ (valid (grid s) -> valid (grid s')).
Proof.
  intros Hg Hs. destruct (spawnTile_spec s Hg) as (s'' & Hs'' & Hgrid & _).
  rewrite Hs in Hs''. injection Hs'' as <-.
  destruct Hgrid as [->|(c & v & Hv & Hput)]; [done|]. split.
  - eapply put_shaped; eauto.
  - intros Hval. eapply valid_put; [done| |done].
    right. destruct Hv as [-> | ->]; [exists 1 | exists 2]; done.
Qed.

(** ** The transitions of a session *)

Lemma resolve_session d s :
  shaped (grid s) ->
  exists s' l, resolve d s = Ok (s', l) /\
    shaped (grid s') /\ env s' = env s /\ (valid (grid s) -> valid (grid s')).
Proof.
  intros Hg.
  destruct (resolve_invariant
    (fun sl => env sl.1 = env s /\ (valid (grid s) -> valid (grid sl.1))) d s Hg)
    as ([s' l] & Hr & [He Hv] & Hg'); [done| |eauto 10].
  intros c [s1 l1] [s2 l2] _ _ _ [He Hv] Hts. simpl in *. split.
  - rewrite <- He. eapply tileStep_env; eauto.
  - intros Hval. eapply tileStep_valid; eauto.
Qed.

Lemma move_session d s :
  shaped (grid s) ->
  exists s' changed, move d s = Ok (s', changed) /\
    shaped (grid s') /\ (valid (grid s) -> valid (grid s')) /\
    hasWon s' = hasWon s /\ shown s' = shown s.
Proof.
  intros Hg. unfold move. destruct (isAnimating s); [exists s, false; auto|].
  destruct (resolve_session d s Hg) as (s' & l & -> & Hg' & He & Hv). rewrite bind_Ok.
  unfold env in He. injection He as Hb Hw Ha Hen Hdr Hp Hsh.
  destruct (moved l); [|exists s', false; auto].
  eexists _, true. split; [done|].
  unfold updateScore. destruct (_ <? _); simpl; auto.
Qed.

Lemma moveTimeout_session s :
  shaped (grid s) ->
  exists s', moveTimeout s = Ok s' /\
    shaped (grid s') /\ (valid (grid s) -> valid (grid s')) /\ sticky s s'.
Proof.
  intros Hg. unfold moveTimeout.
  destruct (spawnTile_spec s Hg) as (sp & Hsp & _ & _ & _ & Hw & _ & _ & Hsh).
  destruct (spawnTile_invariant s sp Hg Hsp) as [Hg' Hv].
  rewrite Hsp, bind_Ok. cbn [hasWon set_isAnimating grid].
  rewrite (hasReached2048_pure (grid sp) Hg'), (movesAvailable_pure (grid sp) Hg').
  unfold sticky. rewrite <- Hw, <- Hsh.
  destruct (hasWon sp) eqn:Hwon; cbn [negb]; rewrite !bind_Ok.
  - destruct (negb _); eexists; (split; [done|]); simpl; auto.
  - destruct (existsb _ positions); rewrite ?bind_Ok.
    + eexists. split; [done|]. simpl. auto 10.
    + destruct (negb _); eexists; (split; [done|]); simpl; auto.
Qed.

Lemma startNewGame_session s :
  exists s', startNewGame s = Ok s' /\
    shaped (grid s') /\ valid (grid s') /\
    hasWon s' = false /\ shown s' = shown s /\ score s' = 0.
Proof.
  unfold startNewGame.
  set (s0 := updateScore _).
  assert (grid s0 = filled 0 /\ hasWon s0 = false /\ shown s0 = shown s /\ score s0 = 0)
    as (Hg0 & Hw0 & Hs0 & Hc0).
  { unfold s0, updateScore. destruct (_ <? _); simpl; auto. }
  assert (shaped (grid s0)) as Hsh0 by (rewrite Hg0; apply filled_shaped).
  assert (valid (grid s0)) as Hv0.
  { rewrite Hg0. intros c v ->%filled_get. by left. }
  destruct (spawnTile_spec s0 Hsh0) as (s1 & Hs1 & _ & Hc1 & _ & Hw1 & _ & _ & Hm1).
  destruct (spawnTile_invariant s0 s1 Hsh0 Hs1) as [Hsh1 Hv1].
  destruct (spawnTile_spec s1 Hsh1) as (s2 & Hs2 & _ & Hc2 & _ & Hw2 & _ & _ & Hm2).
  destruct (spawnTile_invariant s1 s2 Hsh1 Hs2) as [Hsh2 Hv2].
  rewrite Hs1, bind_Ok, Hs2. exists s2.
  split; [done|]. split; [done|]. split; [auto|]. repeat split; congruence.
Qed.

Lemma step_session e s :
  shaped (grid s) ->
  exists s', step e s = Ok s' /\
    shaped (grid s') /\ (valid (grid s) -> valid (grid s')) /\
    (e <> ENewGame -> sticky s s').
Proof.
  intros Hg. destruct e as [d| |]; simpl.
  - destruct (move_session d s Hg) as (s' & b & -> & Hg' & Hv & Hw & Hs).
    rewrite bind_Ok. exists s'. split; [done|]. split; [done|]. split; [done|].
    intros _. left. by rewrite Hw, Hs.
  - destruct (pending s) as [|n] eqn:Hp.
    + exists s. split; [done|]. split; [done|]. split; [done|]. intros _. by left.
    + destruct (moveTimeout_session (set_pending n s) Hg) as (s' & -> & Hg' & Hv & Hst).
      exists s'. split; [done|]. split; [done|]. split; [done|]. intros _. exact Hst.
  - destruct (startNewGame_session s) as (s' & -> & Hg' & Hv & _).
    exists s'. split; [done|]. split; [done|]. split; [done|]. done.
Qed.

Lemma sticky_refl s : sticky s s.
Proof. by left. Qed.

Lemma sticky_trans s1 s2 s3 : sticky s1 s2 -> sticky s2 s3 -> sticky s1 s3.
Proof.
  unfold sticky. intros [[Hw Hn]|(Hf & Ht & Hn)] [[Hw' Hn']|(Hf' & Ht' & Hn')].
  - left. split; congruence.
  - right. repeat split; congruence.
  - right. repeat split; congruence.
  - congruence.
Qed.

Lemma run_session es s :
  shaped (grid s) -> ENewGame ∉ es ->
  exists s', run es s = Ok s' /\ shaped (grid s') /\ sticky s s'.
Proof.
  unfold run. revert s. induction es as [|e es IH]; intros s Hg Hes; cbn [forEach].
  - exists s. auto using sticky_refl.
  - apply not_elem_of_cons in Hes as [He Hes].
    destruct (step_session e s Hg) as (s1 & -> & Hg1 & _ & Hst). rewrite bind_Ok.
    destruct (IH s1 Hg1 Hes) as (s' & -> & Hg' & Hst').
    exists s'. split; [done|]. split; [done|].
    eapply sticky_trans; [apply Hst; congruence | done].
Qed.

(** ** Claims about the session *)

(** C6: in a session without a new game, once the win flag is set it
    stays set whatever events follow, also moves that change the board,
    and no further win message is shown; from a state whose flag is not
    set at most one win message is ever shown.  Starting a new game
    clears the flag, and nothing else does. *)
Theorem won_is_sticky s es1 es2 :
  shaped (grid s) -> ENewGame ∉ es1 ++ es2 ->
  exists s2 s3 s0,
    run es1 s = Ok s2 /\ run es2 s2 = Ok s3 /\
    (hasWon s2 = true -> hasWon s3 = true /\ wins (shown s3) = wins (shown s2)) /\
    (hasWon s = false -> (wins (shown s3) <= S (wins (shown s)))%nat) /\
    startNewGame s3 = Ok s0 /\ hasWon s0 = false /\ shown s0 = shown s3.
Proof.
  intros Hg Hes. apply not_elem_of_app in Hes as [Hes1 Hes2].
  destruct (run_session es1 s Hg Hes1) as (s2 & Hr1 & Hg2 & Hst1).
  destruct (run_session es2 s2 Hg2 Hes2) as (s3 & Hr2 & Hg3 & Hst2).
  destruct (startNewGame_session s3) as (s0 & Hn & _ & _ & Hw0 & Hs0 & _).
  exists s2, s3, s0. repeat split; auto.
  - destruct Hst2 as [[Hw Hn']|(Hf & Ht & Hn')]; congruence.
  - destruct Hst2 as [[Hw Hn']|(Hf & Ht & Hn')]; congruence.
  - intros Hs. destruct (sticky_trans _ _ _ Hst1 Hst2) as [[Hw Hn']|(Hf & Ht & Hn')]; lia.
Qed.

Lemma won_is_sticky_witness :
  exists s2 s3 s0,
    run [EMove left; ETimeout] (mk almostWon) = Ok s2 /\
    run [EMove right; ETimeout; EMove left; ETimeout] s2 = Ok s3 /\
    (hasWon s2 = true -> hasWon s3 = true /\ wins (shown s3) = wins (shown s2)) /\
    (hasWon (mk almostWon) = false ->
     (wins (shown s3) <= S (wins (shown (mk almostWon))))%nat) /\
    startNewGame s3 = Ok s0 /\ hasWon s0 = false /\ shown s0 = shown s3.
Proof.
  apply (won_is_sticky (mk almostWon)
           [EMove left; ETimeout] [EMove right; ETimeout; EMove left; ETimeout]).
  - split; [reflexivity | repeat constructor].
  - apply not_elem_of_app; split;
      intros H; repeat (apply elem_of_cons in H as [H|H]; [discriminate H|]);
      by apply elem_of_nil in H.
Defined.

(** C8: every transition of the session (a move, the end-of-move
    callback with its spawn, a new game) returns and keeps the grid
    4 x 4 with every non-empty cell a power of two, 2 at least.  The
    grid of a new game is empty before the spawns, a spawn changes
    nothing or writes a 2 or a 4, and processing a cell in a move does
    nothing, slides a tile to an empty cell or writes the double of two
    equal tiles. *)
Theorem tile_values_invariant e s :
  shaped (grid s) -> valid (grid s) ->
  (exists s', step e s = Ok s' /\ shaped (grid s') /\ valid (grid s')) /\
  (forall c v, get (filled 0) c = Ok v -> v = 0) /\
  (exists sp, spawnTile s = Ok sp /\
     (grid sp = grid s \/
      exists c v, (v = 2 \/ v = 4) /\ put (grid s) c v = Ok (grid sp))) /\
  (forall d c l, shaped (merged l) -> withinBounds c = true ->
     exists sl', moveTile (vectors d) c (s, l) = Ok sl' /\ tileStep c (s, l) sl').
Proof.
  intros Hg Hv. split; [|split; [|split]].
  - destruct (step_session e s Hg) as (s' & Hs & Hg' & Hv' & _). eauto.
  - intros c v. apply filled_get.
  - destruct (spawnTile_spec s Hg) as (sp & Hsp & Hgrid & _). eauto.
  - intros d c l Hm Hc. by apply moveTile_tileStep.
Qed.

Lemma tile_values_invariant_witness :
  exists s',
    step (EMove left) (mk [[2; 2; 4; 4]; [0; 8; 8; 0]; [16; 0; 0; 16]; [2; 4; 8; 16]]) = Ok s' /\
    shaped (grid s') /\ valid (grid s').
Proof.
  apply (tile_values_invariant (EMove left)
           (mk [[2; 2; 4; 4]; [0; 8; 8; 0]; [16; 0; 0; 16]; [2; 4; 8; 16]])).
  - split; [reflexivity | repeat constructor].
  - intros c v Hv. apply get_iff_peek in Hv as [Hc <-]; [|split; [reflexivity | repeat constructor]].
    destruct c as [cx cy]. apply withinBounds_spec in Hc as [Hx Hy]. simpl in Hx, Hy.
    apply small_cases in Hx, Hy.
    destruct Hx as [->|[->|[->| ->]]], Hy as [->|[->|[->| ->]]]; cbv [peek get]; simpl;
      first [ by left
            | right; first [by exists 1 | by exists 2 | by exists 3 | by exists 4] ].
Defined.

(** * Further properties of the code *)

(** ** One tile of a move, with the reason *)

Lemma moveTile_tileAct d c s l :
  shaped (grid s) -> shaped (merged l) -> withinBounds c = true ->
  exists sl', moveTile (vectors d) c (s, l) = Ok sl' /\ tileAct d c (s, l) sl'.
Proof.
  intros Hg Hm Hc. unfold moveTile.
  destruct (get_within _ c Hg Hc) as [tile Htile]. rewrite Htile, bind_Ok.
  destruct (tile =? 0) eqn:Hz; cbn [negb].
  { apply Z.eqb_eq in Hz as ->. eauto using tileAct. }
  apply Z.eqb_neq in Hz.
  destruct (findFarthestPosition_walked (grid s) d c Hg Hc)
    as (k & p & -> & Hk & Hfar & Hnext & Hpath & Hstop).
  rewrite bind_Ok. cbv zeta.
  assert (exists b : bool,
    (if withinBounds (next p)
     then v ← get (grid s) (next p);
          if v =? tile then m ← get (merged l) (next p); Ok (negb m) else Ok false
     else Ok false) = Ok b /\
    (if b then withinBounds (next p) = true /\ get (grid s) (next p) = Ok tile /\
               get (merged l) (next p) = Ok false
     else obstacle (grid s) (merged l) tile (next p))) as (b & -> & Hb).
  { destruct (withinBounds (next p)) eqn:Hin; [|exists false; split; [done|by left]].
    destruct Hstop as [?|(w & Hw & Hw0)]; [done|].
    rewrite Hw, bind_Ok. destruct (w =? tile) eqn:Hwt.
    - apply Z.eqb_eq in Hwt as ->.
      destruct (get_within _ _ Hm Hin) as [m Hmv]. rewrite Hmv, bind_Ok.
      exists (negb m). split; [done|]. destruct m; cbn [negb]; [|done].
      right. eauto.
    - apply Z.eqb_neq in Hwt. exists false. split; [done|]. right. eauto. }
  rewrite bind_Ok. destruct b.
  - destruct Hb as (Hin & Hv & Hmv). rewrite Hnext in *.
    destruct (put_within _ _ (tile * 2) Hg Hin) as [g1 Hg1]. rewrite Hg1, bind_Ok.
    destruct (put_within g1 c 0 (put_shaped _ _ _ _ Hg Hg1) Hc) as [g2 Hg2].
    rewrite Hg2, bind_Ok.
    destruct (put_within _ _ true Hm Hin) as [m1 Hm1]. rewrite Hm1, bind_Ok.
    eexists. split; [done|]. eapply act_merges; eauto.
  - rewrite Hfar, Hnext in *.
    destruct (decide (k = 0)) as [->|Hk0].
    + rewrite shift_0, !Z.eqb_refl. cbn [negb orb].
      eexists. split; [done|]. eapply act_blocked; eauto.
    + assert (negb (x (shift c (vectors d) k) =? x c)
              || negb (y (shift c (vectors d) k) =? y c) = true) as ->.
      { pose proof (shift_ne c d k Hk0) as Hne.
        destruct (x (shift c (vectors d) k) =? x c) eqn:Ex; [|done].
        destruct (y (shift c (vectors d) k) =? y c) eqn:Ey; [|done].
        apply Z.eqb_eq in Ex, Ey. exfalso. apply Hne.
        destruct (shift c (vectors d) k), c. simpl in *. congruence. }
      assert (withinBounds (shift c (vectors d) k) = true) as Hin by (apply Hpath; lia).
      destruct (put_within _ _ tile Hg Hin) as [g1 Hg1]. rewrite Hg1, bind_Ok.
      destruct (put_within g1 c 0 (put_shaped _ _ _ _ Hg Hg1) Hc) as [g2 Hg2].
      rewrite Hg2, bind_Ok.
      eexists. split; [done|]. eapply act_slides; eauto. lia.
Qed.

Lemma tileAct_tileStep d c sl sl' : tileAct d c sl sl' -> tileStep c sl sl'.
Proof.
  destruct 1 as [s l ?|s l tile ? ? ?|s l tile k g1 g2 ? ? Hk Hpath ? ? ?
                |s l tile k g1 g2 m1 ? ? Hk Hpath ? ? ? ? ? ?].
  - apply tile_stays.
  - apply tile_stays.
  - eapply tile_slides; eauto.
    + apply shift_ne. lia.
    + apply Hpath. lia.
  - eapply tile_merges; eauto. apply shift_ne. lia.
Qed.

(** ** The cells of the traversal *)

Lemma cellOrder_NoDup d : NoDup (cellOrder d).
Proof. destruct d; apply (bool_decide_unpack _); by vm_compute. Qed.

Lemma cellOrder_within d : Forall (fun c => withinBounds c = true) (cellOrder d).
Proof. destruct d; vm_compute; repeat constructor. Qed.

Lemma elem_of_cellOrder d c : c ∈ cellOrder d <-> withinBounds c = true.
Proof.
  split.
  - intros Hc. pose proof (cellOrder_within d) as H. rewrite Forall_forall in H.
    by apply H, list_elem_of_In.
  - intros Hc. apply list_elem_of_lookup. exists (rank d c). by apply cellOrder_rank.
Qed.

Lemma elem_of_middle {A : Type} (pre suf : list A) (a : A) : a ∈ pre ++ a :: suf.
Proof. apply elem_of_app. right. apply list_elem_of_here. Qed.

Lemma elem_of_prefix {A : Type} (pre suf : list A) (a b : A) : b ∈ pre -> b ∈ pre ++ a :: suf.
Proof. intros H. apply elem_of_app. by left. Qed.

Lemma prefix_length_rank d pre c suf :
  cellOrder d = pre ++ c :: suf -> length pre = rank d c.
Proof.
  intros E. pose proof (cellOrder_NoDup d) as Hnd.
  assert (c ∈ cellOrder d) as Hc by (rewrite E; apply elem_of_middle).
  apply elem_of_cellOrder in Hc. pose proof (cellOrder_rank d c Hc) as Hr.
  eapply NoDup_lookup; [exact Hnd| |exact Hr].
  rewrite E. by rewrite lookup_app_r, Nat.sub_diag by lia.
Qed.

Lemma prefix_rank d pre c suf p :
  cellOrder d = pre ++ c :: suf -> p ∈ pre <-> withinBounds p = true /\ (rank d p < rank d c)%nat.
Proof.
  intros E. pose proof (cellOrder_NoDup d) as Hnd.
  pose proof (prefix_length_rank d pre c suf E) as Hlen. split.
  - intros Hp. assert (withinBounds p = true) as Hin.
    { apply (elem_of_cellOrder d). rewrite E. by apply elem_of_prefix. }
    split; [done|]. apply list_elem_of_lookup in Hp as [i Hi].
    assert (i = rank d p) as <-.
    { eapply NoDup_lookup; [exact Hnd| |by apply cellOrder_rank].
      rewrite E. by apply lookup_app_l_Some. }
    apply lookup_lt_Some in Hi. lia.
  - intros [Hin Hlt]. pose proof (cellOrder_rank d p Hin) as Hr.
    rewrite E, lookup_app_l in Hr by lia.
    apply list_elem_of_lookup. eauto.
Qed.

Lemma current_not_in_prefix d pre c suf : cellOrder d = pre ++ c :: suf -> c ∉ pre.
Proof. intros E [_ Hlt]%(prefix_rank d pre c suf c E). lia. Qed.

Lemma ahead_in_prefix d pre c suf k :
  cellOrder d = pre ++ c :: suf -> 0 < k -> withinBounds (shift c (vectors d) k) = true ->
  shift c (vectors d) k ∈ pre.
Proof.
  intros E Hk Hin. apply (prefix_rank d pre c suf _ E). split; [done|].
  apply rank_farther; auto.
  apply (elem_of_cellOrder d). rewrite E. apply elem_of_middle.
Qed.

Lemma behind_not_in_prefix d pre c suf p k :
  cellOrder d = pre ++ c :: suf -> 0 < k -> p ∈ pre -> shift p (vectors d) k <> c.
Proof.
  intros E Hk Hp Heq. apply (prefix_rank d pre c suf p E) in Hp as [Hin Hlt].
  assert (withinBounds c = true) as Hc.
  { apply (elem_of_cellOrder d). rewrite E. apply elem_of_middle. }
  pose proof (rank_farther d p k Hk Hin) as H. rewrite Heq in H. specialize (H Hc). lia.
Qed.

(** ** Invariants that know which cells were processed *)

Lemma forEach_prefix {A St : Type} (I : list A -> St -> Prop)
    (f : A -> St -> res St) (xs : list A) (s : St) :
  I [] s ->
  (forall pre a suf s, xs = pre ++ a :: suf -> I pre s ->
     exists s', f a s = Ok s' /\ I (pre ++ [a]) s') ->
  exists s', forEach xs f s = Ok s' /\ I xs s'.
Proof.
  intros H0 Hstep.
  assert (forall suf pre s, xs = pre ++ suf -> I pre s ->
            exists s', forEach suf f s = Ok s' /\ I xs s') as H.
  { induction suf as [|a suf IH]; intros pre s1 E HI; cbn [forEach].
    - rewrite app_nil_r in E. subst. eauto.
    - destruct (Hstep pre a suf s1 E HI) as (s2 & -> & HI2). rewrite bind_Ok.
      apply (IH (pre ++ [a])); [|done]. by rewrite <- app_assoc. }
  by apply (H xs []).
Qed.

(** A property of the cells processed so far, the state and the locals
    that holds when a move starts and that processing the next cell
    preserves holds of all cells when the loops end. *)
Lemma resolve_prefix_invariant (I : list cell -> state * locals -> Prop) d s :
  shaped (grid s) ->
  I [] (s, Locals (filled false) [] false) ->
  (forall pre c suf sl sl',
     cellOrder d = pre ++ c :: suf ->
     shaped (grid sl.1) -> shaped (merged sl.2) ->
     I pre sl -> tileAct d c sl sl' -> I (pre ++ [c]) sl') ->
  exists sl', resolve d s = Ok sl' /\ I (cellOrder d) sl' /\ shaped (grid sl'.1).
Proof.
  intros Hg H0 Hstep. rewrite resolve_cellOrder.
  destruct (forEach_prefix
    (fun pre sl => I pre sl /\ shaped (grid sl.1) /\ shaped (merged sl.2))
    (moveTile (vectors d)) (cellOrder d) (s, Locals (filled false) [] false))
    as (sl' & Hr & HI & Hg' & _).
  - split; [done|]. split; simpl; auto using filled_shaped.
  - intros pre c suf [s1 l1] E (HI & Hg1 & Hm1).
    assert (withinBounds c = true) as Hc.
    { apply (elem_of_cellOrder d). rewrite E. apply elem_of_middle. }
    destruct (moveTile_tileAct d c s1 l1 Hg1 Hm1 Hc) as (sl' & -> & Hact).
    exists sl'. split; [done|].
    destruct (tileStep_shaped c _ _ (tileAct_tileStep _ _ _ _ Hact) Hg1 Hm1).
    split; [|done]. exact (Hstep pre c suf (s1, l1) sl' E Hg1 Hm1 HI Hact).
  - eauto.
Qed.

(** ** The grid after a slide or a merge *)

Lemma get_put_put g a v c g1 g2 q :
  put g a v = Ok g1 -> put g1 c 0 = Ok g2 ->
  get g2 q = if decide (q = c) then Ok 0
             else if decide (q = a) then Ok v else get g q.
Proof.
  intros H1 H2. destruct (decide (q = c)) as [->|Hc].
  - eapply get_put_eq; eauto.
  - rewrite (get_put_ne _ _ _ _ _ H2) by done.
    destruct (decide (q = a)) as [->|Ha].
    + eapply get_put_eq; eauto.
    + by rewrite (get_put_ne _ _ _ _ _ H1).
Qed.

Lemma shift_add c v i j : shift (shift c v i) v j = shift c v (i + j).
Proof. unfold shift. simpl. f_equal; lia. Qed.

Lemma shift_inj c d i j : shift c (vectors d) i = shift c (vectors d) j -> i = j.
Proof. destruct d; unfold shift; simpl; intros [=]; lia. Qed.

Lemma elem_of_snoc {A : Type} (pre : list A) (a b : A) : b ∈ pre ++ [a] <-> b ∈ pre \/ b = a.
Proof. rewrite elem_of_app, list_elem_of_singleton. tauto. Qed.

(** ** A move packs the tiles *)

Lemma tileAct_settled d pre c suf s l s' l' :
  cellOrder d = pre ++ c :: suf ->
  tileAct d c (s, l) (s', l') ->
  (forall p, p ∈ pre -> settled d (grid s) p) ->
  forall p, p ∈ pre ++ [c] -> settled d (grid s') p.
Proof.
  intros E Hact IH p Hp. apply elem_of_snoc in Hp.
  inversion Hact as [? ? Hc0|? ? tile Htile Hnz Hobs
                    |? ? tile k g1 g2 Htile Hnz Hk Hpath Hobs Hp1 Hp2
                    |? ? tile k g1 g2 m1 Htile Hnz Hk Hpath Hin Hnxt Hflag Hp1 Hp2 Hp3];
    subst; simpl.
  - destruct Hp as [Hp| ->]; [by apply IH|]. intros w Hw Hw0. congruence.
  - destruct Hp as [Hp| ->]; [by apply IH|]. intros w Hw Hw0.
    destruct Hobs as [?|(w' & Hw' & Hw'0 & _)]; eauto.
  - intros w Hw Hw0.
    rewrite (get_put_put _ _ _ _ _ _ p Hp1 Hp2) in Hw.
    destruct (decide (p = c)) as [->|Hpc]; [congruence|].
    destruct Hp as [Hp|?]; [|done].
    assert (shift p (vectors d) 1 <> c) as Hnc by (by apply (behind_not_in_prefix d pre c suf)).
    rewrite (get_put_put _ _ _ _ _ _ (shift p (vectors d) 1) Hp1 Hp2).
    rewrite decide_False by done.
    destruct (decide (p = shift c (vectors d) k)) as [->|Hpf].
    + rewrite shift_add.
      rewrite decide_False by (intros H%shift_inj; lia).
      destruct Hobs as [?|(w' & Hw' & Hw'0 & _)]; eauto.
    + destruct (IH p Hp w Hw Hw0) as [?|(w' & Hw' & Hw'0)]; [by left|]. right.
      destruct (decide (shift p (vectors d) 1 = shift c (vectors d) k)); eauto.
  - intros w Hw Hw0.
    rewrite (get_put_put _ _ _ _ _ _ p Hp1 Hp2) in Hw.
    destruct (decide (p = c)) as [->|Hpc]; [congruence|].
    destruct Hp as [Hp|?]; [|done].
    assert (shift p (vectors d) 1 <> c) as Hnc by (by apply (behind_not_in_prefix d pre c suf)).
    rewrite (get_put_put _ _ _ _ _ _ (shift p (vectors d) 1) Hp1 Hp2).
    rewrite decide_False by done.
    assert (exists w0, get (grid s) p = Ok w0 /\ w0 <> 0) as (w0 & Hw0' & Hw0nz).
    { destruct (decide (p = shift c (vectors d) (k + 1))) as [->|]; eauto. }
    destruct (IH p Hp w0 Hw0' Hw0nz) as [?|(w' & Hw' & Hw'0)]; [by left|]. right.
    destruct (decide (shift p (vectors d) 1 = shift c (vectors d) (k + 1))); eauto.
    eexists. split; [done|]. lia.
Qed.

(** X1: after the slide-and-merge phase of a move no tile can slide any
    further: in front of every tile, in the direction of the move, lies
    the edge of the board or another tile. *)
Theorem move_packs_tiles d s :
  shaped (grid s) ->
  exists s' l,
    resolve d s = Ok (s', l) /\
    forall c w, get (grid s') c = Ok w -> w <> 0 ->
      withinBounds (shift c (vectors d) 1) = false \/
      exists w', get (grid s') (shift c (vectors d) 1) = Ok w' /\ w' <> 0.
Proof.
  intros Hg.
  destruct (resolve_prefix_invariant
    (fun pre sl => forall p, p ∈ pre -> settled d (grid sl.1) p) d s Hg)
    as ([s' l] & Hr & HI & Hg').
  - intros p Hp. by apply elem_of_nil in Hp.
  - intros pre c suf [s1 l1] [s2 l2] E _ _ IH Hact. simpl in *.
    eapply tileAct_settled; eauto.
  - exists s', l. split; [done|]. intros c w Hw Hw0. simpl in *.
    assert (c ∈ cellOrder d) as Hc by (apply elem_of_cellOrder; eauto using get_Ok_within).
    exact (HI c Hc w Hw Hw0).
Qed.

Lemma move_packs_tiles_witness :
  exists s' l,
    resolve up (mk [[0; 2; 0; 4]; [2; 0; 0; 4]; [0; 2; 8; 0]; [2; 2; 0; 8]]) = Ok (s', l) /\
    forall c w, get (grid s') c = Ok w -> w <> 0 ->
      withinBounds (shift c (vectors up) 1) = false \/
      exists w', get (grid s') (shift c (vectors up) 1) = Ok w' /\ w' <> 0.
Proof.
  apply (move_packs_tiles up (mk [[0; 2; 0; 4]; [2; 0; 0; 4]; [0; 2; 8; 0]; [2; 2; 0; 8]])).
  split; [reflexivity | repeat constructor].
Defined.

(** ** The returned flag tells whether the grid changed *)

Lemma tileAct_untouched d pre c suf s0 s l s' l' :
  cellOrder d = pre ++ c :: suf ->
  tileAct d c (s, l) (s', l') ->
  (forall q, q ∉ pre -> get (grid s) q = get (grid s0) q) ->
  forall q, q ∉ pre ++ [c] -> get (grid s') q = get (grid s0) q.
Proof.
  intros E Hact IH q Hq. rewrite elem_of_snoc in Hq.
  assert ((q ∉ pre) /\ q <> c) as [Hqp Hqc] by tauto.
  inversion Hact as [? ? Hc0|? ? tile Htile Hnz Hobs
                    |? ? tile k g1 g2 Htile Hnz Hk Hpath Hobs Hp1 Hp2
                    |? ? tile k g1 g2 m1 Htile Hnz Hk Hpath Hin Hnxt Hflag Hp1 Hp2 Hp3];
    subst; simpl; auto.
  - rewrite (get_put_put _ _ _ _ _ _ q Hp1 Hp2), decide_False by done.
    rewrite decide_False; [auto|]. intros ->. apply Hqp.
    apply (ahead_in_prefix d pre c suf); [done|lia|]. apply Hpath. lia.
  - rewrite (get_put_put _ _ _ _ _ _ q Hp1 Hp2), decide_False by done.
    rewrite decide_False; [auto|]. intros ->. apply Hqp.
    apply (ahead_in_prefix d pre c suf); [done|lia|done].
Qed.

Lemma tileAct_vacated d pre c suf s0 s l s' l' :
  cellOrder d = pre ++ c :: suf ->
  tileAct d c (s, l) (s', l') ->
  (forall q, q ∉ pre -> get (grid s) q = get (grid s0) q) ->
  (moved l = true ->
   exists q w, get (grid s0) q = Ok w /\ w <> 0 /\ get (grid s) q = Ok 0) ->
  moved l' = true ->
  exists q w, get (grid s0) q = Ok w /\ w <> 0 /\ get (grid s') q = Ok 0.
Proof.
  intros E Hact HU IH Hm.
  pose proof (current_not_in_prefix d pre c suf E) as Hc.
  inversion Hact as [? ? Hc0|? ? tile Htile Hnz Hobs
                    |? ? tile k g1 g2 Htile Hnz Hk Hpath Hobs Hp1 Hp2
                    |? ? tile k g1 g2 m1 Htile Hnz Hk Hpath Hin Hnxt Hflag Hp1 Hp2 Hp3];
    subst; simpl in *; auto.
  - exists c, tile. rewrite <- (HU c Hc). repeat split; auto.
    eapply get_put_eq; eauto.
  - exists c, tile. rewrite <- (HU c Hc). repeat split; auto.
    eapply get_put_eq; eauto.
Qed.

Lemma resolve_moved_changes d s :
  shaped (grid s) ->
  exists s' l, resolve d s = Ok (s', l) /\ (moved l = true <-> grid s' <> grid s).
Proof.
  intros Hg.
  destruct (resolve_prefix_invariant
    (fun pre sl =>
       (forall q, q ∉ pre -> get (grid sl.1) q = get (grid s) q) /\
       (moved sl.2 = true ->
        exists q w, get (grid s) q = Ok w /\ w <> 0 /\ get (grid sl.1) q = Ok 0) /\
       (moved sl.2 = false -> sl.1 = s)) d s Hg)
    as ([s' l] & Hr & (_ & HK & HC) & _).
  - simpl. repeat split; auto. discriminate.
  - intros pre c suf [s1 l1] [s2 l2] E _ _ (HU & HK & HC) Hact. simpl in *.
    split; [eauto using tileAct_untouched|]. split; [eauto using tileAct_vacated|].
    intros Hm.
    pose proof (tileStep_moved c _ _ (tileAct_tileStep _ _ _ _ Hact) Hm) as [= -> ->].
    auto.
  - exists s', l. split; [done|]. simpl in *. split.
    + intros Hm Heq. destruct (HK Hm) as (q & w & Hw & Hw0 & Hz).
      rewrite Heq in Hz. congruence.
    + intros Hne. destruct (moved l); [done|]. destruct Hne. by rewrite HC.
Qed.

(** X2: the value [move] returns is exact.  It returns [true] exactly
    when the grid it leaves differs from the grid it found; with the
    re-entrancy guard set it returns [false] and touches nothing. *)
Theorem move_returns_whether_grid_changed d s :
  shaped (grid s) ->
  exists s' changed,
    move d s = Ok (s', changed) /\
    (changed = true <-> grid s' <> grid s) /\
    (isAnimating s = true -> changed = false /\ s' = s).
Proof.
  intros Hg. unfold move. destruct (isAnimating s) eqn:Ha.
  - exists s, false. split; [done|]. split; [|done]. split; [discriminate|congruence].
  - destruct (resolve_moved_changes d s Hg) as (s' & l & -> & Hiff). rewrite bind_Ok.
    destruct (moved l).
    + eexists _, true. split; [done|]. split; [|discriminate].
      unfold updateScore. destruct (_ <? _); simpl; tauto.
    + exists s', false. split; [done|]. split; [|discriminate].
      split; [discriminate|]. intros Hne. by apply Hiff.
Qed.

Lemma move_returns_whether_grid_changed_witness :
  exists s' changed,
    move right (mk [[0; 2; 2; 4]; [0; 0; 0; 2]; [4; 2; 4; 2]; [0; 0; 0; 0]])
      = Ok (s', changed) /\
    (changed = true <-> grid s' <> [[0; 2; 2; 4]; [0; 0; 0; 2]; [4; 2; 4; 2]; [0; 0; 0; 0]]) /\
    (isAnimating (mk [[0; 2; 2; 4]; [0; 0; 0; 2]; [4; 2; 4; 2]; [0; 0; 0; 0]]) = true ->
     changed = false /\
     s' = mk [[0; 2; 2; 4]; [0; 0; 0; 2]; [4; 2; 4; 2]; [0; 0; 0; 0]]).
Proof.
  apply (move_returns_whether_grid_changed right
           (mk [[0; 2; 2; 4]; [0; 0; 0; 2]; [4; 2; 4; 2]; [0; 0; 0; 0]])).
  split; [reflexivity | repeat constructor].
Defined.

(** ** Merge events and the grid *)

Lemma destination_cell c v : destination (MergedTile (y c) (x c) v) = c.
Proof. by destruct c. Qed.

Lemma tileAct_events d pre c suf s l s' l' :
  cellOrder d = pre ++ c :: suf ->
  tileAct d c (s, l) (s', l') ->
  (forall t, t ∈ mergedTiles l ->
     destination t ∈ pre /\ get (grid s) (destination t) = Ok (value t) /\
     value t <> 0 /\ get (merged l) (destination t) = Ok true) ->
  forall t, t ∈ mergedTiles l' ->
    destination t ∈ pre ++ [c] /\ get (grid s') (destination t) = Ok (value t) /\
    value t <> 0 /\ get (merged l') (destination t) = Ok true.
Proof.
  intros E Hact IH t Ht.
  pose proof (current_not_in_prefix d pre c suf E) as Hc.
  inversion Hact as [? ? Hc0|? ? tile Htile Hnz Hobs
                    |? ? tile k g1 g2 Htile Hnz Hk Hpath Hobs Hp1 Hp2
                    |? ? tile k g1 g2 m1 Htile Hnz Hk Hpath Hin Hnxt Hflag Hp1 Hp2 Hp3];
    subst; cbn [grid set_grid set_score merged mergedTiles] in *.
  - destruct (IH t Ht) as (? & ? & ? & ?). rewrite elem_of_snoc. auto.
  - destruct (IH t Ht) as (? & ? & ? & ?). rewrite elem_of_snoc. auto.
  - destruct (IH t Ht) as (Hd & Hv & Hv0 & Hf). rewrite elem_of_snoc.
    repeat split; auto.
    rewrite (get_put_put _ _ _ _ _ _ _ Hp1 Hp2).
    rewrite decide_False by (intros Heq; by rewrite Heq in Hd).
    rewrite decide_False; [done|]. intros Heq.
    destruct (Hpath k) as [_ Hz]; [lia|]. rewrite <- Heq in Hz. congruence.
  - rewrite elem_of_snoc. apply elem_of_snoc in Ht as [Ht| ->].
    + destruct (IH t Ht) as (Hd & Hv & Hv0 & Hf).
      assert (destination t <> shift c (vectors d) (k + 1)) as Hne by congruence.
      repeat split; auto.
      * rewrite (get_put_put _ _ _ _ _ _ _ Hp1 Hp2).
        rewrite decide_False by (intros Heq; by rewrite Heq in Hd).
        by rewrite decide_False.
      * by rewrite (get_put_ne _ _ _ _ _ Hp3).
    + assert (forall v, destination
                (MergedTile (y c + (k + 1) * y (vectors d)) (x c + (k + 1) * x (vectors d)) v)
              = shift c (vectors d) (k + 1)) as Hdest by reflexivity.
      rewrite !Hdest. cbn [value].
      repeat split.
      * left. apply (ahead_in_prefix d pre c suf); [done|lia|done].
      * rewrite (get_put_put _ _ _ _ _ _ _ Hp1 Hp2).
        rewrite decide_False by (apply shift_ne; lia). by rewrite decide_True.
      * lia.
      * eapply get_put_eq; eauto.
Qed.

(** X3: when the slide-and-merge phase ends, every merge event names a
    cell of the board that holds exactly the event's value, which is
    not zero: a merged tile is neither moved nor merged again in the
    same move. *)
Theorem merge_events_match_grid d s :
  shaped (grid s) ->
  exists s' l,
    resolve d s = Ok (s', l) /\
    forall t, t ∈ mergedTiles l ->
      withinBounds (destination t) = true /\
      get (grid s') (destination t) = Ok (value t) /\ value t <> 0.
Proof.
  intros Hg.
  destruct (resolve_prefix_invariant
    (fun pre sl => forall t, t ∈ mergedTiles sl.2 ->
       destination t ∈ pre /\ get (grid sl.1) (destination t) = Ok (value t) /\
       value t <> 0 /\ get (merged sl.2) (destination t) = Ok true) d s Hg)
    as ([s' l] & Hr & HI & _).
  - intros t Ht. by apply elem_of_nil in Ht.
  - intros pre c suf [s1 l1] [s2 l2] E _ _ IH Hact. simpl in *.
    eapply tileAct_events; eauto.
  - exists s', l. split; [done|]. intros t Ht.
    destruct (HI t Ht) as (Hd & Hv & Hv0 & _).
    apply elem_of_cellOrder in Hd. auto.
Qed.

Lemma merge_events_match_grid_witness :
  exists s' l,
    resolve left (mk [[2; 2; 4; 4]; [2; 2; 2; 2]; [4; 0; 4; 8]; [0; 8; 0; 8]]) = Ok (s', l) /\
    forall t, t ∈ mergedTiles l ->
      withinBounds (destination t) = true /\
      get (grid s') (destination t) = Ok (value t) /\ value t <> 0.
Proof.
  apply (merge_events_match_grid left
           (mk [[2; 2; 4; 4]; [2; 2; 2; 2]; [4; 0; 4; 8]; [0; 8; 0; 8]])).
  split; [reflexivity | repeat constructor].
Defined.

(** ** Counting tiles *)

Lemma tileCount_put g c old v g' :
  get g c = Ok old -> put g c v = Ok g' ->
  tileCount g' = tileCount g - occupied old + occupied v.
Proof.
  intros (_ & _ & a & Ha & Hold)%get_Ok (_ & _ & a' & Ha' & _ & ->)%put_Ok.
  rewrite Ha in Ha'. injection Ha' as <-.
  unfold tileCount. rewrite list_fmap_insert, list_fmap_insert.
  rewrite (sumZ_insert _ _ (sumZ (occupied <$> a))) by (by rewrite list_lookup_fmap, Ha).
  rewrite (sumZ_insert _ _ (occupied old)) by (by rewrite list_lookup_fmap, Hold). lia.
Qed.

Lemma occupied_nonzero v : v <> 0 -> occupied v = 1.
Proof. intros H. unfold occupied. by apply Z.eqb_neq in H as ->. Qed.

Lemma tileStep_tileCount c s l s' l' :
  tileStep c (s, l) (s', l') ->
  tileCount (grid s') + Z.of_nat (length (mergedTiles l'))
  = tileCount (grid s) + Z.of_nat (length (mergedTiles l)).
Proof.
  inversion 1; subst; simpl; [done| |].
  - rewrite (tileCount_put g1 c tile 0 g2); [|by erewrite get_put_ne|done].
    rewrite (tileCount_put (grid s) far 0 tile g1) by done.
    rewrite (occupied_nonzero tile) by done. unfold occupied. simpl. lia.
  - rewrite (tileCount_put g1 c tile 0 g2); [|by erewrite get_put_ne|done].
    rewrite (tileCount_put (grid s) nxt tile (tile * 2) g1) by done.
    rewrite !occupied_nonzero by lia. rewrite length_app. unfold occupied. simpl. lia.
Qed.

(** X4: the slide-and-merge phase of a move removes one tile per merge
    event and no other: the number of tiles afterwards is the number
    before less the number of merge events. *)
Theorem move_removes_one_tile_per_merge d s :
  shaped (grid s) ->
  exists s' l,
    resolve d s = Ok (s', l) /\
    tileCount (grid s') = tileCount (grid s) - Z.of_nat (length (mergedTiles l)).
Proof.
  intros Hg.
  destruct (resolve_invariant
    (fun sl => tileCount (grid sl.1) + Z.of_nat (length (mergedTiles sl.2))
               = tileCount (grid s)) d s Hg) as ([s' l] & Hr & HI & _).
  - simpl. lia.
  - intros c [s1 l1] [s2 l2] _ _ _ HI Hts. simpl in *.
    rewrite (tileStep_tileCount _ _ _ _ _ Hts). done.
  - exists s', l. split; [done|]. simpl in HI. lia.
Qed.

Lemma move_removes_one_tile_per_merge_witness :
  exists s' l,
    resolve down (mk [[2; 2; 4; 4]; [2; 2; 2; 2]; [4; 0; 4; 8]; [0; 8; 0; 8]]) = Ok (s', l) /\
    tileCount (grid s')
    = tileCount (grid (mk [[2; 2; 4; 4]; [2; 2; 2; 2]; [4; 0; 4; 8]; [0; 8; 0; 8]]))
      - Z.of_nat (length (mergedTiles l)).
Proof.
  apply (move_removes_one_tile_per_merge down
           (mk [[2; 2; 4; 4]; [2; 2; 2; 2]; [4; 0; 4; 8]; [0; 8; 0; 8]])).
  split; [reflexivity | repeat constructor].
Defined.

(** ** Terminal detection and the moves *)

Lemma Ok_inj {A : Type} (a b : A) : Ok a = Ok b -> a = b.
Proof. congruence. Qed.

Lemma movesAvailable_false g :
  shaped g -> movesAvailable g = Ok false ->
  (forall c, get g c <> Ok 0) /\
  (forall c1 c2 v, adjacent c1 c2 -> get g c1 = Ok v -> get g c2 = Ok v -> False).
Proof.
  intros Hg Hm. rewrite (movesAvailable_pure g Hg) in Hm. apply Ok_inj in Hm.
  apply orb_false_iff in Hm as [He Hp]. split.
  - intros c Hc. assert (exists c, get g c = Ok 0) as H by eauto.
    apply (anyEmpty_iff g Hg) in H. congruence.
  - intros c1 c2 v Hadj H1 H2.
    assert (exists c v, get g c = Ok v /\
              (get g (Cell (x c) (y c + 1)) = Ok v \/ get g (Cell (x c + 1) (y c)) = Ok v)) as H.
    { apply adjacent_cases in Hadj as [->|[->|[->| ->]]]; eauto. }
    apply (anyPair_iff g Hg) in H. congruence.
Qed.

Lemma movesAvailable_true g :
  shaped g -> movesAvailable g = Ok true ->
  (exists c, get g c = Ok 0) \/
  (exists c v, get g c = Ok v /\
     (get g (Cell (x c) (y c + 1)) = Ok v \/ get g (Cell (x c + 1) (y c)) = Ok v)).
Proof.
  intros Hg Hm. rewrite (movesAvailable_pure g Hg) in Hm. apply Ok_inj in Hm.
  apply orb_true_iff in Hm as [He|Hp].
  - left. by apply (anyEmpty_iff g Hg).
  - right. by apply (anyPair_iff g Hg).
Qed.

Lemma adjacent_shift c d : adjacent c (shift c (vectors d) 1).
Proof. destruct c, d; unfold adjacent, shift; simpl; lia. Qed.

Lemma adjacent_direction p q : adjacent p q -> exists d, q = shift p (vectors d) 1.
Proof.
  intros [->|[->|[H|H]]]%adjacent_cases.
  - exists down. unfold shift. simpl. f_equal; lia.
  - exists right. unfold shift. simpl. f_equal; lia.
  - exists up. rewrite H. destruct q. unfold shift. simpl. f_equal; lia.
  - exists left. rewrite H. destruct q. unfold shift. simpl. f_equal; lia.
Qed.

Lemma resolve_stuck d s :
  shaped (grid s) ->
  (forall c, get (grid s) c <> Ok 0) ->
  (forall c1 c2 v, adjacent c1 c2 ->
     get (grid s) c1 = Ok v -> get (grid s) c2 = Ok v -> False) ->
  resolve d s = Ok (s, Locals (filled false) [] false).
Proof.
  intros Hg Hfull Hpairs.
  destruct (resolve_prefix_invariant
    (fun _ sl => sl = (s, Locals (filled false) [] false)) d s Hg)
    as (sl' & Hr & -> & _); [done| |done].
  intros pre c suf sl sl' _ _ _ -> Hact.
  inversion Hact as [? ? Hc0|? ? tile Htile Hnz Hobs
                    |? ? tile k g1 g2 Htile Hnz Hk Hpath Hobs Hp1 Hp2
                    |? ? tile k g1 g2 m1 Htile Hnz Hk Hpath Hin Hnxt Hflag Hp1 Hp2 Hp3];
    subst; try done.
  - destruct (Hpath 1) as [_ Hz]; [lia|]. by apply Hfull in Hz.
  - destruct (decide (k = 0)) as [->|Hk0].
    + exfalso. apply (Hpairs c (shift c (vectors d) 1) tile); auto using adjacent_shift.
    + destruct (Hpath 1) as [_ Hz]; [lia|]. by apply Hfull in Hz.
Qed.

(** X5: when [movesAvailable()] returns [false], the condition under
    which the game is declared over, no direction moves anything:
    [move] returns [false] for each of the four and leaves the state as
    it is. *)
Theorem no_moves_available_means_stuck s d :
  shaped (grid s) -> movesAvailable (grid s) = Ok false ->
  move d s = Ok (s, false).
Proof.
  intros Hg Hm. destruct (movesAvailable_false (grid s) Hg Hm) as [Hfull Hpairs].
  unfold move. destruct (isAnimating s); [done|].
  by rewrite (resolve_stuck d s Hg Hfull Hpairs).
Qed.

Lemma no_moves_available_means_stuck_witness :
  move left (mk [[2; 4; 2; 4]; [4; 2; 4; 2]; [2; 4; 2; 4]; [4; 2; 4; 2]])
  = Ok (mk [[2; 4; 2; 4]; [4; 2; 4; 2]; [2; 4; 2; 4]; [4; 2; 4; 2]], false).
Proof.
  apply (no_moves_available_means_stuck
           (mk [[2; 4; 2; 4]; [4; 2; 4; 2]; [2; 4; 2; 4]; [4; 2; 4; 2]]) left).
  - split; [reflexivity | repeat constructor].
  - reflexivity.
Defined.

Lemma tile_next_to_empty g (n : nat) :
  shaped g ->
  forall t e w,
    get g t = Ok w -> w <> 0 -> get g e = Ok 0 ->
    (Z.to_nat (Z.abs (x t - x e) + Z.abs (y t - y e)) <= n)%nat ->
    exists p q w', adjacent p q /\ get g p = Ok w' /\ w' <> 0 /\ get g q = Ok 0.
Proof.
  intros Hg. induction n as [|n IH]; intros t e w Ht Hw He Hd.
  - assert (t = e) as -> by (destruct t, e; simpl in *; f_equal; lia). congruence.
  - pose proof (get_Ok_within g t w Hg Ht) as Hti.
    pose proof (get_Ok_within g e 0 Hg He) as Hei.
    apply withinBounds_spec in Hti, Hei.
    assert (t <> e) as Hne by congruence.
    set (m := if decide (x t < x e) then Cell (x t + 1) (y t)
              else if decide (x e < x t) then Cell (x t - 1) (y t)
              else if decide (y t < y e) then Cell (x t) (y t + 1)
              else Cell (x t) (y t - 1)).
    assert (withinBounds m = true /\ adjacent t m /\
            (Z.to_nat (Z.abs (x m - x e) + Z.abs (y m - y e)) <= n)%nat) as (Hmi & Hadj & Hmd).
    { assert (x t <> x e \/ y t <> y e) as Hxy.
      { destruct t, e; simpl in *.
        destruct (decide (x0 = x1)); [right|by left]. intros ->. apply Hne. congruence. }
      unfold m, adjacent. rewrite withinBounds_spec.
      repeat case_decide; simpl; lia. }
    destruct (get_within g m Hg Hmi) as [u Hu].
    destruct (decide (u = 0)) as [->|Hu0].
    + exists t, m, w. auto.
    + apply (IH m e u); auto.
Qed.

Lemma tileAct_moved_mono d c s l s' l' :
  tileAct d c (s, l) (s', l') -> moved l = true -> moved l' = true.
Proof. by inversion 1. Qed.

Lemma resolve_moves d s p w :
  shaped (grid s) ->
  get (grid s) p = Ok w -> w <> 0 ->
  get (grid s) (shift p (vectors d) 1) = Ok 0 \/ get (grid s) (shift p (vectors d) 1) = Ok w ->
  exists s' l, resolve d s = Ok (s', l) /\ moved l = true.
Proof.
  intros Hg Hp Hw Hq.
  destruct (resolve_prefix_invariant
    (fun pre sl =>
       (moved sl.2 = false -> sl = (s, Locals (filled false) [] false)) /\
       (p ∈ pre -> moved sl.2 = true)) d s Hg) as ([s' l] & Hr & [_ HI] & _).
  - split; [done|]. intros H. by apply elem_of_nil in H.
  - intros pre c suf [s1 l1] [s2 l2] E _ _ [Hsame Hdone] Hact. simpl in *. split.
    + intros Hm.
      pose proof (tileStep_moved c _ _ (tileAct_tileStep _ _ _ _ Hact) Hm) as [= -> ->].
      auto.
    + intros [Hpre| ->]%elem_of_snoc; [eauto using tileAct_moved_mono|].
      destruct (moved l1) eqn:Hm1; [eauto using tileAct_moved_mono|].
      specialize (Hsame eq_refl) as [= -> ->].
      inversion Hact as [? ? Hc0|? ? tile Htile Hnz Hobs
                        |? ? tile k g1 g2 Htile Hnz Hk Hpath Hobs Hp1 Hp2
                        |? ? tile k g1 g2 m1 Htile Hnz Hk Hpath Hin Hnxt Hflag Hp1 Hp2 Hp3];
        subst; try done.
      * congruence.
      * exfalso. destruct Hobs as [Hout|(w' & Hw' & Hw'0 & Hwhy)].
        -- destruct Hq as [Hq|Hq]; apply get_Ok_within in Hq; congruence.
        -- destruct Hq as [Hq|Hq]; [congruence|].
           assert (w' = tile) as -> by congruence.
           destruct Hwhy as [?|Hflag]; [done|]. by apply filled_get in Hflag.
  - exists s', l. split; [done|]. simpl in HI. apply HI.
    apply elem_of_cellOrder. eauto using get_Ok_within.
Qed.

(** X6: on a board that holds at least one tile, [movesAvailable()]
    returns [true] exactly when some direction moves a tile: with the
    re-entrancy guard clear, [move] returns [true] for at least one of
    the four directions. *)
Theorem moves_available_iff_some_move s :
  shaped (grid s) -> isAnimating s = false ->
  (exists c w, get (grid s) c = Ok w /\ w <> 0) ->
  movesAvailable (grid s) = Ok true <-> exists d s', move d s = Ok (s', true).
Proof.
  intros Hg Ha (t & w & Ht & Hw). split.
  - intros Hm.
    assert (exists d p v, get (grid s) p = Ok v /\ v <> 0 /\
              (get (grid s) (shift p (vectors d) 1) = Ok 0 \/
               get (grid s) (shift p (vectors d) 1) = Ok v)) as (d & p & v & Hp & Hv & Hq).
    { assert (forall e, get (grid s) e = Ok 0 ->
                exists d p v, get (grid s) p = Ok v /\ v <> 0 /\
                  (get (grid s) (shift p (vectors d) 1) = Ok 0 \/
                   get (grid s) (shift p (vectors d) 1) = Ok v)) as Hempty.
      { intros e He.
        destruct (tile_next_to_empty (grid s) _ Hg t e w Ht Hw He (le_n _))
          as (p & q & w' & Hadj & Hp & Hw' & Hq).
        apply adjacent_direction in Hadj as [d ->]. exists d, p, w'. auto. }
      destruct (movesAvailable_true (grid s) Hg Hm) as [[e He]|(c & v & Hc & Hn)];
        [by apply (Hempty e)|].
      destruct (decide (v = 0)) as [->|Hv]; [by apply (Hempty c)|].
      destruct Hn as [Hn|Hn]; [exists down | exists right]; exists c, v;
        (split; [done|]); (split; [done|]); right;
        rewrite <- Hn; f_equal; unfold shift; simpl; f_equal; lia. }
    destruct (resolve_moves d s p v Hg Hp Hv Hq) as (s' & l & Hr & Hmoved).
    exists d. unfold move. rewrite Ha, Hr, bind_Ok, Hmoved. eauto.
  - intros (d & s' & Hmove).
    pose proof (movesAvailable_pure (grid s) Hg) as Hpure.
    destruct (existsb _ positions || existsb _ positions) eqn:Hb in Hpure; [done|].
    pose proof (movesAvailable_false (grid s) Hg Hpure) as [Hfull Hpairs].
    unfold move in Hmove. rewrite Ha, (resolve_stuck d s Hg Hfull Hpairs) in Hmove.
    discriminate.
Qed.

Lemma moves_available_iff_some_move_witness :
  movesAvailable (grid (mk [[2; 4; 2; 4]; [4; 2; 4; 2]; [2; 4; 2; 4]; [4; 2; 8; 8]])) = Ok true
  <-> exists d s',
        move d (mk [[2; 4; 2; 4]; [4; 2; 4; 2]; [2; 4; 2; 4]; [4; 2; 8; 8]]) = Ok (s', true).
Proof.
  apply (moves_available_iff_some_move
           (mk [[2; 4; 2; 4]; [4; 2; 4; 2]; [2; 4; 2; 4]; [4; 2; 8; 8]])).
  - split; [reflexivity | repeat constructor].
  - reflexivity.
  - exists (Cell 0 0), 2. split; [reflexivity | lia].
Defined.

(** ** The empty cells and the spawn *)

Lemma collect_row g r cs acc :
  shaped g -> 0 <= r < GRID_SIZE -> Forall (fun c => 0 <= c < GRID_SIZE) cs ->
  forEach cs (fun c acc => v ← get g (Cell c r);
                           Ok (if v =? 0 then acc ++ [(r, c)] else acc)) acc
  = Ok (acc ++ flat_map (fun c => if peek g (Cell c r) =? 0 then [(r, c)] else []) cs).
Proof.
  intros Hg Hr Hcs. revert acc. induction Hcs as [|c cs Hc _ IH]; intros acc; cbn [forEach flat_map].
  - by rewrite app_nil_r.
  - rewrite (get_peek g (Cell c r)) by auto using within_cell. rewrite !bind_Ok, IH.
    destruct (peek g (Cell c r) =? 0); [by rewrite <- app_assoc | done].
Qed.

Lemma positions_within : Forall (fun i => 0 <= i < GRID_SIZE) positions.
Proof. apply Forall_forall. intros i Hi. by apply elem_of_positions, list_elem_of_In. Qed.

Lemma collect_rows g rs acc :
  shaped g -> Forall (fun r => 0 <= r < GRID_SIZE) rs ->
  forEach rs (fun r => forEach positions
                (fun c acc => v ← get g (Cell c r);
                              Ok (if v =? 0 then acc ++ [(r, c)] else acc))) acc
  = Ok (acc ++ flat_map (emptyInRow g) rs).
Proof.
  intros Hg Hrs. revert acc. induction Hrs as [|r rs Hr _ IH]; intros acc; cbn [forEach flat_map].
  - by rewrite app_nil_r.
  - rewrite (collect_row g r positions acc Hg Hr positions_within), bind_Ok, IH.
    by rewrite <- app_assoc.
Qed.

(** [emptyCells] holds the empty cells of the grid, row by row. *)
Lemma emptyCellsOf_pure g :
  shaped g -> emptyCellsOf g = Ok (flat_map (emptyInRow g) positions).
Proof. intros Hg. unfold emptyCellsOf. by rewrite collect_rows by auto using positions_within. Qed.

Lemma elem_of_emptyCells g r c :
  shaped g -> (r, c) ∈ flat_map (emptyInRow g) positions <-> get g (Cell c r) = Ok 0.
Proof.
  intros Hg. rewrite list_elem_of_In, in_flat_map. split.
  - intros (r' & Hr' & Hin). unfold emptyInRow in Hin.
    apply in_flat_map in Hin as (c' & Hc' & Hin).
    apply list_elem_of_In, elem_of_positions in Hr', Hc'.
    destruct (peek g (Cell c' r') =? 0) eqn:Hz; [|by destruct Hin].
    destruct Hin as [[= -> ->]|[]]. apply Z.eqb_eq in Hz.
    apply get_iff_peek; auto using within_cell.
  - intros Hz. apply get_iff_peek in Hz as [Hin Hz]; [|done].
    apply withinBounds_spec in Hin as [Hc Hr]. simpl in Hc, Hr.
    exists r. split; [by apply list_elem_of_In, elem_of_positions|].
    unfold emptyInRow. apply in_flat_map. exists c.
    split; [by apply list_elem_of_In, elem_of_positions|].
    apply Z.eqb_eq in Hz. rewrite Hz. by left.
Qed.

Lemma spawnTile_exact s :
  shaped (grid s) ->
  exists s', spawnTile s = Ok s' /\
    ((forall c, get (grid s) c <> Ok 0) -> s' = s) /\
    ((exists c, get (grid s) c = Ok 0) ->
     exists c v,
       get (grid s) c = Ok 0 /\ (v = 2 \/ v = 4) /\
       put (grid s) c v = Ok (grid s') /\ drawn s' = S (S (drawn s))).
Proof.
  intros Hg. unfold spawnTile. rewrite (emptyCellsOf_pure (grid s) Hg), bind_Ok.
  set (cells := flat_map (emptyInRow (grid s)) positions).
  destruct (0 <? Z.of_nat (length cells)) eqn:Hlen.
  - apply Z.ltb_lt in Hlen. cbn [random].
    pose proof (floorScaled_bound (entropy s (drawn s)) _ Hlen) as Hidx.
    destruct (lookup_lt_is_Some_2 cells
                (Z.to_nat (floorScaled (entropy s (drawn s)) (Z.of_nat (length cells)))))
      as [[r c] Hrc]; [lia|].
    assert (index cells (floorScaled (entropy s (drawn s)) (Z.of_nat (length cells)))
            = Ok (r, c)) as -> by (apply index_Ok; split; [lia | done]).
    rewrite bind_Ok. cbn [grid entropy drawn fst snd].
    assert (get (grid s) (Cell c r) = Ok 0) as Hz.
    { apply (elem_of_emptyCells (grid s) r c Hg), list_elem_of_lookup. eauto. }
    destruct (put_within (grid s) (Cell c r)
                (if below09 (entropy s (S (drawn s))) then 2 else 4) Hg
                (get_Ok_within _ _ _ Hg Hz)) as [g' Hg'].
    rewrite Hg', bind_Ok. eexists. split; [done|]. split.
    + intros Hfull. by apply Hfull in Hz.
    + intros _. exists (Cell c r), (if below09 (entropy s (S (drawn s))) then 2 else 4).
      simpl. repeat split; auto. destruct (below09 _); auto.
  - exists s. split; [done|]. split; [done|]. intros [[c r] Hz].
    apply (elem_of_emptyCells (grid s) r c Hg) in Hz. fold cells in Hz.
    apply Z.ltb_ge in Hlen. destruct cells; [by apply elem_of_nil in Hz | simpl in Hlen; lia].
Qed.

(** X7: [spawnTile] never fails.  On a full board it changes nothing
    and draws no random number.  Otherwise it draws two, writes a 2 or
    a 4 into a cell that was empty and leaves every other cell as it
    was, so the board holds one tile more; the score, the flags and the
    messages are untouched either way. *)
Theorem spawn_fills_one_empty_cell s :
  shaped (grid s) ->
  exists s', spawnTile s = Ok s' /\
    score s' = score s /\ bestScore s' = bestScore s /\ hasWon s' = hasWon s /\
    isAnimating s' = isAnimating s /\ pending s' = pending s /\ shown s' = shown s /\
    ((forall c, get (grid s) c <> Ok 0) -> s' = s) /\
    ((exists c, get (grid s) c = Ok 0) ->
     exists c v,
       get (grid s) c = Ok 0 /\ (v = 2 \/ v = 4) /\ get (grid s') c = Ok v /\
       (forall q, q <> c -> get (grid s') q = get (grid s) q) /\
       tileCount (grid s') = tileCount (grid s) + 1 /\
       drawn s' = S (S (drawn s))).
Proof.
  intros Hg.
  destruct (spawnTile_exact s Hg) as (s' & Hs & Hfull & Hfree).
  destruct (spawnTile_spec s Hg) as (s'' & Hs'' & _ & Hframe).
  rewrite Hs in Hs''. injection Hs'' as <-.
  exists s'. split; [done|]. destruct Hframe as (? & ? & ? & ? & ? & ?).
  do 7 (split; [done|]).
  intros He. destruct (Hfree He) as (c & v & Hz & Hv & Hput & Hd).
  exists c, v. do 2 (split; [done|]). split; [eauto using get_put_eq|].
  split; [|split; [|done]].
  - intros q Hq. eapply get_put_ne; eauto.
  - rewrite (tileCount_put _ _ _ _ _ Hz Hput).
    rewrite (occupied_nonzero v) by (destruct Hv; lia). unfold occupied. simpl. lia.
Qed.

Lemma spawn_fills_one_empty_cell_witness :
  exists s',
    spawnTile (State [[2; 4; 2; 4]; [4; 0; 4; 2]; [2; 4; 0; 4]; [4; 2; 4; 2]]
                 8 8 false true (fun n => 2 ^ 52 + Z.of_nat n) 3 1 []) = Ok s' /\
    score s' = 8 /\ tileCount (grid s') = 15 /\ drawn s' = 5%nat.
Proof.
  destruct (spawn_fills_one_empty_cell
              (State [[2; 4; 2; 4]; [4; 0; 4; 2]; [2; 4; 0; 4]; [4; 2; 4; 2]]
                 8 8 false true (fun n => 2 ^ 52 + Z.of_nat n) 3 1 []))
    as (s' & Hs & Hsc & _ & _ & _ & _ & _ & _ & Hfree).
  - split; [reflexivity | repeat constructor].
  - exists s'. split; [exact Hs|]. split; [exact Hsc|].
    destruct Hfree as (c & v & _ & _ & _ & _ & Hcount & Hd).
    + exists (Cell 1 1). reflexivity.
    + split; [exact Hcount | exact Hd].
Defined.

(** ** A new game *)

Lemma spawnTile_on_free s :
  shaped (grid s) -> (exists c, get (grid s) c = Ok 0) ->
  exists s' c v,
    spawnTile s = Ok s' /\ get (grid s) c = Ok 0 /\ (v = 2 \/ v = 4) /\
    put (grid s) c v = Ok (grid s') /\ drawn s' = S (S (drawn s)) /\
    score s' = score s /\ bestScore s' = bestScore s /\ hasWon s' = hasWon s /\
    isAnimating s' = isAnimating s /\ pending s' = pending s /\ shown s' = shown s.
Proof.
  intros Hg He.
  destruct (spawnTile_exact s Hg) as (s' & Hs & _ & Hfree).
  destruct (spawnTile_spec s Hg) as (s'' & Hs'' & _ & Hframe).
  rewrite Hs in Hs''. injection Hs'' as <-.
  destruct (Hfree He) as (c & v & Hz & Hv & Hput & Hd).
  exists s', c, v. auto 10.
Qed.


(** ** The end-of-move callback *)

Lemma anyBig_iff g :
  shaped g ->
  existsb (fun r => existsb (fun c => 2048 <=? peek g (Cell c r)) positions) positions = true
  <-> exists c w, get g c = Ok w /\ 2048 <= w.
Proof.
  intros Hg. rewrite existsb_positions. split.
  - intros (r & Hr & (c & Hc & Hz%Z.leb_le)%existsb_positions).
    exists (Cell c r), (peek g (Cell c r)). split; [|done].
    apply get_peek; auto using within_cell.
  - intros ([c r] & w & Hw & Hbig). apply get_iff_peek in Hw as [Hin Hw]; [|done].
    apply withinBounds_spec in Hin as [Hc Hr]. simpl in Hc, Hr.
    exists r. split; [done|]. apply existsb_positions. exists c. split; [done|].
    apply Z.leb_le. lia.
Qed.

Lemma hasReached2048_iff g b :
  shaped g -> hasReached2048 g = Ok b ->
  b = true <-> exists c w, get g c = Ok w /\ 2048 <= w.
Proof.
  intros Hg Hb. rewrite (hasReached2048_pure g Hg) in Hb. apply Ok_inj in Hb.
  rewrite <- Hb. by apply anyBig_iff.
Qed.

Lemma moveTimeout_cases s :
  shaped (grid s) ->
  exists sp big av,
    spawnTile s = Ok sp /\ shaped (grid sp) /\
    hasReached2048 (grid sp) = Ok big /\ movesAvailable (grid sp) = Ok av /\
    moveTimeout s =
    Ok (if negb (hasWon sp) && big
        then showGameMessage YouWin (set_hasWon true (set_isAnimating false sp))
        else if negb av then showGameMessage GameOver (set_isAnimating false sp)
             else set_isAnimating false sp).
Proof.
  intros Hg. unfold moveTimeout.
  destruct (spawnTile_spec s Hg) as (sp & Hsp & _).
  destruct (spawnTile_invariant s sp Hg Hsp) as [Hg' _].
  assert (exists big, hasReached2048 (grid sp) = Ok big) as [big Hbig]
    by (eexists; by apply hasReached2048_pure).
  assert (exists av, movesAvailable (grid sp) = Ok av) as [av Hav]
    by (eexists; by apply movesAvailable_pure).
  exists sp, big, av. do 4 (split; [done|]).
  rewrite Hsp, bind_Ok. cbn [hasWon set_isAnimating grid]. rewrite Hbig, Hav.
  by destruct (hasWon sp), big, av.
Qed.

Lemma moveTimeout_outcome s :
  shaped (grid s) ->
  exists sp s',
    spawnTile s = Ok sp /\ moveTimeout s = Ok s' /\ shaped (grid s') /\
    grid s' = grid sp /\ isAnimating s' = false /\ pending s' = pending s /\
    score s' = score s /\ bestScore s' = bestScore s /\
    (hasWon s = false -> (exists c w, get (grid sp) c = Ok w /\ 2048 <= w) ->
     hasWon s' = true /\ shown s' = YouWin :: shown s) /\
    (hasWon s = true \/ ~ (exists c w, get (grid sp) c = Ok w /\ 2048 <= w) ->
     hasWon s' = hasWon s /\
     (movesAvailable (grid sp) = Ok false -> shown s' = GameOver :: shown s) /\
     (movesAvailable (grid sp) = Ok true -> shown s' = shown s)).
Proof.
  intros Hg.
  destruct (moveTimeout_cases s Hg) as (sp & big & av & Hsp & Hg' & Hbig & Hav & ->).
  destruct (spawnTile_spec s Hg) as (sp' & Hsp' & _ & Hsc & Hb & Hw & _ & Hp & Hsh).
  rewrite Hsp in Hsp'. injection Hsp' as <-.
  pose proof (hasReached2048_iff (grid sp) big Hg' Hbig) as Hiff.
  exists sp. eexists. split; [done|]. split; [done|].
  rewrite Hav, <- Hw, <- Hsh, <- Hsc, <- Hb, <- Hp.
  destruct (hasWon sp) eqn:Hwon, big, av; cbn [negb andb]; simpl;
    (split; [done|]); do 5 (split; [done|]); split;
    try (intros ? ?; done); try (intros _; repeat split; (done || discriminate)).
  all: try (intros _ Hex; apply Hiff in Hex; discriminate).
  all: intros [Hf|Hno]; [discriminate Hf|]; exfalso; apply Hno, Hiff; reflexivity.
Qed.

(** X9: the end-of-move callback never fails.  It spawns a tile, clears
    the re-entrancy guard and keeps the scores.  If the win flag was
    clear and the grid after the spawn holds a tile of 2048 or more, it
    sets the flag and shows the win message, and nothing else, also
    when no move is left on that grid.  Otherwise the flag stays as it
    was, and the game-over message is shown exactly when
    [movesAvailable()] is false on the grid after the spawn. *)
Theorem callback_outcome s :
  shaped (grid s) ->
  exists sp s',
    spawnTile s = Ok sp /\ moveTimeout s = Ok s' /\
    grid s' = grid sp /\ isAnimating s' = false /\ pending s' = pending s /\
    score s' = score s /\ bestScore s' = bestScore s /\
    (hasWon s = false -> (exists c w, get (grid sp) c = Ok w /\ 2048 <= w) ->
     hasWon s' = true /\ shown s' = YouWin :: shown s) /\
    (hasWon s = true \/ ~ (exists c w, get (grid sp) c = Ok w /\ 2048 <= w) ->
     hasWon s' = hasWon s /\
     (movesAvailable (grid sp) = Ok false -> shown s' = GameOver :: shown s) /\
     (movesAvailable (grid sp) = Ok true -> shown s' = shown s)).
Proof.
  intros Hg.
  destruct (moveTimeout_outcome s Hg) as (sp & s' & Hsp & Hs' & _ & Hrest).
  exists sp, s'. split; [exact Hsp|]. split; [exact Hs'|]. exact Hrest.
Qed.

Lemma callback_outcome_witness :
  exists sp s',
    spawnTile (State [[2048; 4; 2; 4]; [4; 2; 4; 2]; [2; 4; 2; 4]; [4; 2; 4; 0]]
                 2048 2048 false true (fun _ => 0) 0 0 []) = Ok sp /\
    moveTimeout (State [[2048; 4; 2; 4]; [4; 2; 4; 2]; [2; 4; 2; 4]; [4; 2; 4; 0]]
                   2048 2048 false true (fun _ => 0) 0 0 []) = Ok s' /\
    grid s' = grid sp /\ isAnimating s' = false /\
    hasWon s' = true /\ shown s' = [YouWin] /\
    movesAvailable (grid s') = Ok false.
Proof.
  destruct (callback_outcome
              (State [[2048; 4; 2; 4]; [4; 2; 4; 2]; [2; 4; 2; 4]; [4; 2; 4; 0]]
                 2048 2048 false true (fun _ => 0) 0 0 []))
    as (sp & s' & Hsp & Hs' & Hg & Ha & _ & _ & _ & Hwin & _).
  - split; [reflexivity | repeat constructor].
  - exists sp, s'. split; [exact Hsp|]. split; [exact Hs'|].
    split; [exact Hg|]. split; [exact Ha|].
    assert (sp = State [[2048; 4; 2; 4]; [4; 2; 4; 2]; [2; 4; 2; 4]; [4; 2; 4; 2]]
                   2048 2048 false true (fun _ => 0) 2 0 []) as Esp.
    { vm_compute in Hsp. congruence. }
    destruct Hwin as [Hw Hm]; [reflexivity| |].
    + exists (Cell 0 0), 2048. rewrite Esp. split; [reflexivity | lia].
    + split; [exact Hw|]. split; [exact Hm|]. rewrite Hg, Esp. reflexivity.
Defined.

(** X10: when the end-of-move callback shows the game-over message, the
    game is over indeed: in the state it leaves, [move] returns [false]
    for every direction and changes nothing. *)
Theorem game_over_is_final s :
  shaped (grid s) ->
  exists s',
    moveTimeout s = Ok s' /\
    (shown s' = GameOver :: shown s -> forall d, move d s' = Ok (s', false)).
Proof.
  intros Hg.
  destruct (moveTimeout_cases s Hg) as (sp & big & av & Hsp & Hg' & Hbig & Hav & ->).
  destruct (spawnTile_spec s Hg) as (sp' & Hsp' & _ & _ & _ & _ & _ & _ & Hsh).
  rewrite Hsp in Hsp'. injection Hsp' as <-.
  eexists. split; [done|]. intros Hshown d.
  destruct (negb (hasWon sp) && big); [simpl in Hshown; rewrite Hsh in Hshown; discriminate|].
  destruct av; cbn [negb] in *.
  - simpl in Hshown. rewrite Hsh in Hshown.
    apply (f_equal length) in Hshown. simpl in Hshown. lia.
  - destruct (movesAvailable_false (grid sp) Hg' Hav) as [Hfull Hpairs].
    unfold move. cbn [isAnimating showGameMessage set_isAnimating].
    by rewrite (resolve_stuck d (showGameMessage GameOver (set_isAnimating false sp))
                  Hg' Hfull Hpairs).
Qed.

Lemma game_over_is_final_witness :
  exists s',
    moveTimeout (State [[2; 4; 2; 4]; [4; 2; 4; 2]; [2; 4; 2; 4]; [4; 2; 4; 0]]
                   8 8 false true (fun _ => 0) 0 0 []) = Ok s' /\
    shown s' = [GameOver] /\ forall d, move d s' = Ok (s', false).
Proof.
  destruct (game_over_is_final
              (State [[2; 4; 2; 4]; [4; 2; 4; 2]; [2; 4; 2; 4]; [4; 2; 4; 0]]
                 8 8 false true (fun _ => 0) 0 0 [])) as (s' & Hs' & Hfinal).
  - split; [reflexivity | repeat constructor].
  - exists s'. split; [exact Hs'|].
    assert (shown s' = [GameOver]) as Hshown
      by (vm_compute in Hs'; injection Hs' as <-; reflexivity).
    split; [exact Hshown|]. apply Hfinal. exact Hshown.
Defined.

(** ** The scores *)

Lemma tileStep_score_mono c s l s' l' :
  tileStep c (s, l) (s', l') -> valid (grid s) ->
  score s <= score s' /\ bestScore s' = bestScore s.
Proof.
  inversion 1; subst; simpl; intros Hv; [lia..|].
  destruct (Hv c tile) as [->|(k & Hk & ->)]; [done|lia|].
  pose proof (Z.pow_pos_nonneg 2 k). lia.
Qed.

Lemma resolve_score_mono d s :
  shaped (grid s) -> valid (grid s) ->
  exists s' l, resolve d s = Ok (s', l) /\
    score s <= score s' /\ bestScore s' = bestScore s /\
    (moved l = false -> s' = s).
Proof.
  intros Hg Hv.
  destruct (resolve_invariant
    (fun sl => valid (grid sl.1) /\ score s <= score sl.1 /\ bestScore sl.1 = bestScore s /\
               (moved sl.2 = false -> sl.1 = s)) d s Hg)
    as ([s' l] & Hr & (_ & Hsc & Hb & Hm) & _).
  - simpl. repeat split; auto. lia.
  - intros c [s1 l1] [s2 l2] _ _ _ (Hv1 & Hsc & Hb & Hm) Hts. simpl in *.
    destruct (tileStep_score_mono _ _ _ _ _ Hts Hv1) as [Hsc' Hb'].
    split; [eauto using tileStep_valid|]. split; [lia|]. split; [congruence|].
    intros Hm2. pose proof (tileStep_moved _ _ _ Hts Hm2) as [= -> ->]. auto.
  - eauto 10.
Qed.

(** X11: on a grid of tile values, no transition lowers the best score,
    none but a new game lowers the score, and a transition that starts
    with the score at most the best score ends so.  A move that changes
    the grid leaves the best score at the larger of the old best score
    and the new score. *)
Theorem scores_only_grow e s :
  shaped (grid s) -> valid (grid s) ->
  exists s',
    step e s = Ok s' /\
    bestScore s <= bestScore s' /\
    (e <> ENewGame -> score s <= score s') /\
    (score s <= bestScore s -> score s' <= bestScore s') /\
    (forall d, e = EMove d -> grid s' <> grid s ->
       bestScore s' = Z.max (bestScore s) (score s')).
Proof.
  intros Hg Hv. destruct e as [d| |]; cbn [step].
  - unfold move. destruct (isAnimating s).
    { exists s. rewrite bind_Ok. repeat split; auto; try lia. intros ? _ Hne. done. }
    destruct (resolve_score_mono d s Hg Hv) as (s' & l & -> & Hsc & Hb & Hm).
    rewrite !bind_Ok. destruct (moved l).
    + rewrite bind_Ok. eexists. split; [done|].
      unfold updateScore. cbn [bestScore score set_isAnimating].
      destruct (bestScore s' <? score s') eqn:Hlt; simpl;
        [apply Z.ltb_lt in Hlt | apply Z.ltb_ge in Hlt]; repeat split; intros; lia.
    + rewrite bind_Ok. exists s'. rewrite (Hm eq_refl).
      repeat split; auto; try lia. intros ? _ Hne. done.
  - destruct (pending s) as [|n]; [exists s; repeat split; auto; try lia; discriminate|].
    destruct (moveTimeout_outcome (set_pending n s) Hg)
      as (sp & s' & _ & -> & _ & _ & _ & _ & Hsc & Hb & _).
    simpl in Hsc, Hb. exists s'. repeat split; try lia. discriminate.
  - destruct (startNewGame_session s) as (s' & Hs' & _ & _ & _ & _ & Hsc).
    unfold startNewGame in *. set (s0 := updateScore _) in *.
    assert (bestScore s0 = Z.max (bestScore s) 0) as Hb0.
    { unfold s0, updateScore. cbn [bestScore score set_grid set_score set_hasWon set_isAnimating].
      destruct (bestScore s <? 0) eqn:Hlt; simpl;
        [apply Z.ltb_lt in Hlt | apply Z.ltb_ge in Hlt]; lia. }
    assert (shaped (grid s0)) as Hsh0.
    { unfold s0, updateScore. destruct (_ <? _); apply filled_shaped. }
    destruct (spawnTile_spec s0 Hsh0) as (s1 & Hs1 & _ & _ & Hb1 & _).
    destruct (spawnTile_invariant s0 s1 Hsh0 Hs1) as [Hsh1 _].
    destruct (spawnTile_spec s1 Hsh1) as (s2 & Hs2 & _ & _ & Hb2 & _).
    rewrite Hs1, bind_Ok, Hs2 in Hs'. injection Hs' as <-.
    exists s2. rewrite Hs1, bind_Ok. split; [done|].
    split; [lia|]. split; [done|]. split; [lia|]. discriminate.
Qed.

Lemma scores_only_grow_witness :
  exists s',
    step (EMove left) (State [[2; 2; 4; 4]; [0; 0; 0; 0]; [0; 0; 0; 0]; [0; 0; 0; 0]]
                         20 24 false false (fun _ => 0) 0 0 []) = Ok s' /\
    score s' = 32 /\ bestScore s' = 32.
Proof.
  destruct (scores_only_grow (EMove left)
              (State [[2; 2; 4; 4]; [0; 0; 0; 0]; [0; 0; 0; 0]; [0; 0; 0; 0]]
                 20 24 false false (fun _ => 0) 0 0 [])) as (s' & Hs' & _).
  - split; [reflexivity | repeat constructor].
  - intros c v Hv. apply get_iff_peek in Hv as [Hc <-]; [|apply rowBoard_shaped].
    destruct c as [cx cy]. apply withinBounds_spec in Hc as [Hx Hy]. simpl in Hx, Hy.
    apply small_cases in Hx, Hy.
    destruct Hx as [->|[->|[->| ->]]], Hy as [->|[->|[->| ->]]]; cbv [peek get]; simpl;
      first [ by left | right; first [by exists 1 | by exists 2] ].
  - exists s'. split; [exact Hs'|]. vm_compute in Hs'. injection Hs' as <-. split; reflexivity.
Defined.

(** ** The re-entrancy guard *)

Lemma move_guard d s :
  shaped (grid s) ->
  exists s' changed, move d s = Ok (s', changed) /\
    (changed = false -> s' = s) /\
    (changed = true ->
     isAnimating s = false /\ isAnimating s' = true /\ pending s' = S (pending s)).
Proof.
  intros Hg. unfold move. destruct (isAnimating s) eqn:Ha.
  { exists s, false. split; [done|]. split; [done|discriminate]. }
  destruct (resolve_session d s Hg) as (s' & l & Hr & _ & He & _).
  destruct (resolve_unmoved d s Hg) as (s'' & l' & Hr' & Hm).
  rewrite Hr in Hr'. injection Hr' as <- <-. rewrite Hr, bind_Ok.
  unfold env in He. injection He as _ _ _ _ _ Hp _.
  destruct (moved l).
  - eexists _, true. split; [done|]. split; [discriminate|]. intros _.
    unfold updateScore. destruct (_ <? _); simpl; auto.
  - exists s', false. split; [done|]. split; [auto|discriminate].
Qed.

Lemma startNewGame_guard s :
  exists s', startNewGame s = Ok s' /\ isAnimating s' = false /\ pending s' = pending s.
Proof.
  unfold startNewGame. set (s0 := updateScore _).
  assert (shaped (grid s0) /\ isAnimating s0 = false /\ pending s0 = pending s)
    as (Hsh0 & Ha0 & Hp0).
  { unfold s0, updateScore. destruct (_ <? _); simpl; auto using filled_shaped. }
  destruct (spawnTile_spec s0 Hsh0) as (s1 & Hs1 & _ & _ & _ & _ & Ha1 & Hp1 & _).
  destruct (spawnTile_invariant s0 s1 Hsh0 Hs1) as [Hsh1 _].
  destruct (spawnTile_spec s1 Hsh1) as (s2 & Hs2 & _ & _ & _ & _ & Ha2 & Hp2 & _).
  rewrite Hs1, bind_Ok, Hs2. exists s2. repeat split; congruence.
Qed.

(** X12: the re-entrancy guard cannot lock the game.  A move that
    changes the grid sets the guard and schedules one callback; while
    the guard is set [move] does nothing; a callback that runs clears
    the guard and is no longer scheduled.  So every transition keeps the
    invariant that a set guard has a callback scheduled to clear it. *)
Theorem guard_is_always_released e s :
  shaped (grid s) -> (isAnimating s = true -> pending s <> O) ->
  exists s',
    step e s = Ok s' /\
    (isAnimating s' = true -> pending s' <> O) /\
    (forall d, e = EMove d ->
       (isAnimating s = true -> s' = s) /\
       (grid s' <> grid s -> isAnimating s' = true /\ pending s' = S (pending s))) /\
    (e = ETimeout -> pending s <> O ->
       isAnimating s' = false /\ S (pending s') = pending s).
Proof.
  intros Hg Hinv. destruct e as [d| |]; cbn [step].
  - destruct (move_guard d s Hg) as (s' & b & -> & Hsame & Hset). rewrite bind_Ok.
    exists s'. split; [done|]. destruct b.
    + destruct (Hset eq_refl) as (Ha & Ha' & Hp). split; [lia|]. split; [|discriminate].
      intros ? _. split; [congruence|auto].
    + rewrite (Hsame eq_refl). split; [done|]. split; [|discriminate].
      intros ? _. split; [done|]. intros Hne. done.
  - destruct (pending s) as [|n] eqn:Hp.
    { exists s. split; [done|]. split; [by rewrite Hp|]. split; [discriminate|done]. }
    destruct (moveTimeout_outcome (set_pending n s) Hg)
      as (sp & s' & _ & -> & _ & _ & Ha & Hp' & _).
    simpl in Hp'. exists s'. split; [done|]. split; [congruence|].
    split; [discriminate|]. intros _ _. split; [done|congruence].
  - destruct (startNewGame_guard s) as (s' & -> & Ha & Hp).
    exists s'. split; [done|]. split; [congruence|]. split; discriminate.
Qed.

Lemma guard_is_always_released_witness :
  exists s',
    step ETimeout (State [[4; 0; 0; 0]; [0; 0; 0; 0]; [0; 0; 0; 0]; [0; 0; 0; 0]]
                     4 4 false true (fun _ => 0) 4 1 []) = Ok s' /\
    isAnimating s' = false /\ pending s' = O.
Proof.
  destruct (guard_is_always_released ETimeout
              (State [[4; 0; 0; 0]; [0; 0; 0; 0]; [0; 0; 0; 0]; [0; 0; 0; 0]]
                 4 4 false true (fun _ => 0) 4 1 [])) as (s' & Hs' & _ & _ & Hrel).
  - split; [reflexivity | repeat constructor].
  - simpl. discriminate.
  - exists s'. split; [exact Hs'|].
    destruct Hrel as [Ha Hp]; [reflexivity | simpl; discriminate |].
    split; [exact Ha|]. simpl in Hp. congruence.
Defined.

(** ** The high-score list *)

Lemma filter_none {A : Type} (P : A -> Prop) `{!forall a, Decision (P a)} (l : list A) :
  Forall (fun a => ~ P a) l -> filter P l = [].
Proof.
  induction 1 as [|a l Ha _ IH]; [done|]. by rewrite filter_cons_False, IH.
Qed.

Lemma filter_all {A : Type} (P : A -> Prop) `{!forall a, Decision (P a)} (l : list A) :
  Forall P l -> filter P l = l.
Proof.
  induction 1 as [|a l Ha _ IH]; [done|]. by rewrite filter_cons_True, IH.
Qed.

Lemma insertDesc_Permutation e l : insertDesc e l ≡ₚ e :: l.
Proof.
  induction l as [|h t IH]; simpl; [done|].
  destruct (Entry.score h <? Entry.score e); [done|].
  rewrite IH. apply perm_swap.
Qed.

Lemma sortDesc_snoc l e : sortDesc (l ++ [e]) = insertDesc e (sortDesc l).
Proof. unfold sortDesc. by rewrite foldl_app. Qed.

Lemma sortDesc_Permutation l : sortDesc l ≡ₚ l.
Proof.
  induction l as [|e l IH] using rev_ind; [done|].
  rewrite sortDesc_snoc, insertDesc_Permutation, IH.
  by rewrite Permutation_app_comm.
Qed.

Lemma Forall_insertDesc (P : Entry.t -> Prop) e l :
  Forall P (insertDesc e l) <-> P e /\ Forall P l.
Proof.
  induction l as [|h t IH]; simpl.
  - rewrite Forall_cons_iff. tauto.
  - destruct (Entry.score h <? Entry.score e); rewrite !Forall_cons_iff; [tauto|].
    rewrite IH. tauto.
Qed.

Lemma insertDesc_descending e l : descending l -> descending (insertDesc e l).
Proof.
  induction l as [|h t IH]; simpl; [by auto|]. intros [Hh Ht].
  destruct (Entry.score h <? Entry.score e) eqn:Hlt; simpl.
  - apply Z.ltb_lt in Hlt. repeat split; auto. constructor; [lia|].
    eapply Forall_impl; [|exact Hh]. simpl. intros; lia.
  - apply Z.ltb_ge in Hlt. split; [|auto]. apply Forall_insertDesc. auto.
Qed.

Lemma sortDesc_descending l : descending (sortDesc l).
Proof.
  induction l as [|e l IH] using rev_ind; [done|].
  rewrite sortDesc_snoc. by apply insertDesc_descending.
Qed.

Lemma descending_app l1 l2 :
  descending (l1 ++ l2) ->
  descending l1 /\ descending l2 /\
  forall a b, a ∈ l1 -> b ∈ l2 -> Entry.score b <= Entry.score a.
Proof.
  induction l1 as [|h t IH]; simpl.
  - intros H. repeat split; auto. intros a b Ha. by apply elem_of_nil in Ha.
  - intros [Hh Ht]. destruct (IH Ht) as (H1 & H2 & H12).
    apply Forall_app in Hh as [Hh1 Hh2]. repeat split; auto.
    intros a b [-> | Ha]%elem_of_cons Hb; [|by apply H12].
    rewrite Forall_forall in Hh2. by apply Hh2, list_elem_of_In.
Qed.

(** In a list sorted by descending score, the new entry goes behind
    the entries with at least its score and before all others. *)
Lemma insertDesc_split e l :
  descending l ->
  insertDesc e l =
    filter (fun h => Entry.score e <= Entry.score h) l
    ++ e :: filter (fun h => Entry.score h < Entry.score e) l /\
  l = filter (fun h => Entry.score e <= Entry.score h) l
      ++ filter (fun h => Entry.score h < Entry.score e) l.
Proof.
  induction l as [|h t IH]; simpl; [done|]. intros [Hh Ht].
  destruct (IH Ht) as [IH1 IH2].
  destruct (Entry.score h <? Entry.score e) eqn:Hlt.
  - apply Z.ltb_lt in Hlt.
    assert (Forall (fun a => Entry.score a < Entry.score e) (h :: t)) as Hall.
    { constructor; [done|]. eapply Forall_impl; [|exact Hh]. simpl. intros; lia. }
    assert (filter (fun a => Entry.score e <= Entry.score a) (h :: t) = []) as ->.
    { apply filter_none. eapply Forall_impl; [|exact Hall]. simpl. intros; lia. }
    assert (filter (fun a => Entry.score a < Entry.score e) (h :: t) = h :: t) as ->
      by (by apply filter_all).
    done.
  - apply Z.ltb_ge in Hlt.
    rewrite filter_cons_True by done. rewrite filter_cons_False by lia.
    simpl. split; congruence.
Qed.

Lemma withScore_insertDesc k e l :
  descending l -> withScore k (insertDesc e l) = withScore k l ++ withScore k [e].
Proof.
  intros Hl. destruct (insertDesc_split e l Hl) as [-> Hsplit].
  unfold withScore. rewrite Hsplit at 3.
  rewrite !list.filter_app, filter_cons. rewrite <- app_assoc. f_equal.
  destruct (decide (Entry.score e = k)) as [Hk|Hk].
  - assert (filter (fun a => Entry.score a = k)
              (filter (fun h => Entry.score h < Entry.score e) l) = []) as ->.
    { apply filter_none, Forall_forall. intros a Ha%list_elem_of_In.
      apply list_elem_of_filter in Ha as [Ha _]. lia. }
    rewrite filter_cons_True by done. by rewrite filter_nil.
  - rewrite filter_cons_False by done. by rewrite filter_nil, app_nil_r.
Qed.

Lemma sortDesc_stable k l : withScore k (sortDesc l) = withScore k l.
Proof.
  induction l as [|e l IH] using rev_ind; [done|].
  rewrite sortDesc_snoc, withScore_insertDesc by apply sortDesc_descending.
  rewrite IH. unfold withScore. by rewrite list.filter_app.
Qed.

Lemma atLeast_sortDesc k l : atLeast k (sortDesc l) = atLeast k l.
Proof. unfold atLeast. apply Permutation_length. by rewrite sortDesc_Permutation. Qed.

(** X13: the list [saveHighScore] writes back holds the best ten of the
    stored entries and the new one (all of them if there are fewer):
    together with the entries it drops it is the stored list plus the
    new entry, rearranged; scores run from the highest to the lowest,
    so no dropped entry beats a kept one; and entries with equal scores
    keep the order they had, the new entry last among them. *)
Theorem high_scores_keep_the_top_ten s today hs :
  exists dropped,
    saveHighScore s today hs ++ dropped ≡ₚ hs ++ [Entry.Make (score s) today] /\
    length (saveHighScore s today hs) = Nat.min 10 (S (length hs)) /\
    descending (saveHighScore s today hs ++ dropped) /\
    (forall k, withScore k (saveHighScore s today hs ++ dropped)
               = withScore k (hs ++ [Entry.Make (score s) today])).
Proof.
  unfold saveHighScore. cbv zeta.
  exists (drop 10 (sortDesc (hs ++ [Entry.Make (score s) today]))).
  rewrite take_drop. split; [apply sortDesc_Permutation|]. split; [|split].
  - rewrite length_take, (Permutation_length (sortDesc_Permutation _)), length_app.
    cbn [length]. lia.
  - apply sortDesc_descending.
  - intros k. apply sortDesc_stable.
Qed.

(** X14: whether a new score enters the list.  If fewer than ten stored
    entries have the new score or more, the new entry is kept, right
    behind them.  If ten or more have, it is dropped: the list written
    back is the best ten of the stored entries, so a score that only
    ties with the tenth entry does not enter. *)
Theorem new_high_score_enters_iff_it_beats_the_tenth s today hs :
  ((atLeast (score s) hs < 10)%nat ->
   saveHighScore s today hs !! atLeast (score s) hs = Some (Entry.Make (score s) today)) /\
  ((10 <= atLeast (score s) hs)%nat ->
   saveHighScore s today hs = take 10 (sortDesc hs)).
Proof.
  unfold saveHighScore. cbv zeta. rewrite sortDesc_snoc.
  destruct (insertDesc_split (Entry.Make (score s) today) (sortDesc hs)
              (sortDesc_descending hs)) as [-> Hsplit].
  cbn [Entry.score] in *.
  assert (length (filter (fun h => score s <= Entry.score h) (sortDesc hs))
          = atLeast (score s) hs) as Hlen by apply atLeast_sortDesc.
  split; intros Hn.
  - rewrite lookup_take_lt by done. by apply list_lookup_middle.
  - rewrite take_app_le by lia. symmetry. rewrite Hsplit at 1.
    by rewrite take_app_le by lia.
Qed.

Lemma new_high_score_enters_iff_it_beats_the_tenth_witness :
  saveHighScore (State [] 60 0 false false (fun _ => 0) 0 0 []) String.EmptyString
    [Entry.Make 100 String.EmptyString; Entry.Make 40 String.EmptyString;
     Entry.Make 60 String.EmptyString] !! 2%nat
  = Some (Entry.Make 60 String.EmptyString).
Proof.
  apply (proj1 (new_high_score_enters_iff_it_beats_the_tenth
                  (State [] 60 0 false false (fun _ => 0) 0 0 []) String.EmptyString
                  [Entry.Make 100 String.EmptyString; Entry.Make 40 String.EmptyString;
                   Entry.Make 60 String.EmptyString])).
  vm_compute. lia.
Defined.

(** ** Touch input *)

(** X15: what [handleTouchEnd] makes of a gesture.  If the recorded
    start has a zero coordinate, or the gesture is shorter than 30
    pixels along both axes, nothing happens and the start is kept.
    Otherwise exactly one [move] is made, in the direction of the
    longer axis (vertical when both are equal), and the recorded start
    is reset to (0, 0), so that further [touchend] events are ignored
    until a [touchstart] records a new start. *)
Theorem touch_end_makes_one_move xy t s :
  shaped (grid s) ->
  exists t' s',
    handleTouchEnd xy (t, s) = Ok (t', s') /\
    ((t' = t /\ s' = s /\
      (touchStartX t = 0 \/ touchStartY t = 0 \/
       (Z.abs (fst xy - touchStartX t) < 30 /\ Z.abs (snd xy - touchStartY t) < 30)))
     \/
     (exists d changed,
        touchStartX t <> 0 /\ touchStartY t <> 0 /\
        swipes d (fst xy - touchStartX t) (snd xy - touchStartY t) /\
        move d s = Ok (s', changed) /\ t' = TouchState 0 0 /\
        forall xy', handleTouchEnd xy' (t', s') = Ok (t', s'))).
Proof.
  intros Hg. unfold handleTouchEnd.
  destruct (touchStartX t =? 0) eqn:Hx; cbn [orb].
  { apply Z.eqb_eq in Hx. exists t, s. split; [done|]. left. auto. }
  destruct (touchStartY t =? 0) eqn:Hy.
  { apply Z.eqb_eq in Hy. exists t, s. split; [done|]. left. auto 6. }
  apply Z.eqb_neq in Hx, Hy. cbv zeta.
  set (dx := fst xy - touchStartX t). set (dy := snd xy - touchStartY t).
  destruct ((Z.abs dx <? MIN_SWIPE_DISTANCE) && (Z.abs dy <? MIN_SWIPE_DISTANCE)) eqn:Hshort.
  { apply andb_true_iff in Hshort as [H1%Z.ltb_lt H2%Z.ltb_lt]. unfold MIN_SWIPE_DISTANCE in *.
    exists t, s. split; [done|]. left. auto 6. }
  assert (30 <= Z.abs dx \/ 30 <= Z.abs dy) as Hlong.
  { apply andb_false_iff in Hshort as [H%Z.ltb_ge|H%Z.ltb_ge];
      unfold MIN_SWIPE_DISTANCE in *; auto. }
  set (d := if Z.abs dy <? Z.abs dx
            then (if 0 <? dx then right else left)
            else (if 0 <? dy then down else up)).
  assert ((if Z.abs dy <? Z.abs dx
           then move (if 0 <? dx then right else left) s
           else move (if 0 <? dy then down else up) s) = move d s) as ->.
  { unfold d. by destruct (Z.abs dy <? Z.abs dx). }
  destruct (move_unmoved d s Hg) as (s' & changed & Hm & _). rewrite Hm, bind_Ok.
  exists (TouchState 0 0), s'. split; [done|]. right. exists d, changed.
  do 2 (split; [done|]). split; [|auto].
  unfold d, swipes, MIN_SWIPE_DISTANCE.
  destruct (Z.abs dy <? Z.abs dx) eqn:Hax;
    [apply Z.ltb_lt in Hax; destruct (0 <? dx) eqn:Hs
    |apply Z.ltb_ge in Hax; destruct (0 <? dy) eqn:Hs];
    [apply Z.ltb_lt in Hs | apply Z.ltb_ge in Hs
    |apply Z.ltb_lt in Hs | apply Z.ltb_ge in Hs]; lia.
Qed.

Lemma touch_end_makes_one_move_witness :
  exists t' s' changed,
    handleTouchEnd (140, 260) (TouchState 100 300, mk (rowBoard [2; 2; 0; 0])) = Ok (t', s') /\
    t' = TouchState 0 0 /\
    move up (mk (rowBoard [2; 2; 0; 0])) = Ok (s', changed).
Proof.
  destruct (touch_end_makes_one_move (140, 260) (TouchState 100 300)
              (mk (rowBoard [2; 2; 0; 0]))) as (t' & s' & Hs & Hcase).
  - apply rowBoard_shaped.
  - destruct Hcase as [(_ & _ & [H|[H|[H _]]])|(d & changed & _ & _ & Hsw & Hm & Ht & _)];
      [simpl in H; lia..|].
    exists t', s', changed. split; [exact Hs|]. split; [exact Ht|].
    destruct d; simpl in Hsw; unfold MIN_SWIPE_DISTANCE in Hsw; try lia. exact Hm.
Defined.

(** ** The states of a game in progress *)

Lemma tileStep_keeps_a_tile c s l s' l' :
  tileStep c (s, l) (s', l') ->
  (exists q w, get (grid s) q = Ok w /\ w <> 0) ->
  exists q w, get (grid s') q = Ok w /\ w <> 0.
Proof.
  inversion 1 as [|? ? tile far g1 g2 Htile Hnz Hne Hfar Hp1 Hp2
                  |? ? tile nxt g1 g2 m1 Htile Hnz Hne Hnxt Hflag Hp1 Hp2 Hp3];
    subst; simpl; [done| |]; intros _.
  - exists far, tile. split; [|done].
    rewrite (get_put_put _ _ _ _ _ _ far Hp1 Hp2).
    rewrite decide_False by done. by rewrite decide_True.
  - exists nxt, (tile * 2). split; [|lia].
    rewrite (get_put_put _ _ _ _ _ _ nxt Hp1 Hp2).
    rewrite decide_False by done. by rewrite decide_True.
Qed.

Lemma resolve_inPlay d s :
  inPlay s ->
  exists s' l, resolve d s = Ok (s', l) /\
    shaped (grid s') /\ valid (grid s') /\
    (exists c w, get (grid s') c = Ok w /\ w <> 0) /\
    score s <= score s' /\ env s' = env s /\ (moved l = false -> s' = s).
Proof.
  intros (Hg & Hv & Ht & Hsc & Hgd).
  destruct (resolve_invariant
    (fun sl => valid (grid sl.1) /\ (exists c w, get (grid sl.1) c = Ok w /\ w <> 0) /\
               score s <= score sl.1 /\ env sl.1 = env s /\
               (moved sl.2 = false -> sl.1 = s)) d s Hg)
    as ([s' l] & Hr & (Hv' & Ht' & Hsc' & He & Hm) & Hg').
  - simpl. repeat split; auto. lia.
  - intros c [s1 l1] [s2 l2] _ _ _ (Hv1 & Ht1 & Hsc1 & He1 & Hm1) Hts. simpl in *.
    destruct (tileStep_score_mono _ _ _ _ _ Hts Hv1) as [Hsc2 _].
    split; [eauto using tileStep_valid|]. split; [eauto using tileStep_keeps_a_tile|].
    split; [lia|]. split; [rewrite <- He1; eauto using tileStep_env|].
    intros Hm2. pose proof (tileStep_moved _ _ _ Hts Hm2) as [= -> ->]. auto.
  - exists s', l. simpl in *. auto 10.
Qed.

Lemma new_game_in_play s : exists s', startNewGame s = Ok s' /\ inPlay s'.
Proof.
  destruct (startNewGame_session s) as (s' & Hs' & Hg' & Hv' & _ & _ & Hsc').
  destruct (startNewGame_guard s) as (s'' & Hs'' & Ha & _).
  rewrite Hs' in Hs''. injection Hs'' as <-.
  exists s'. split; [done|]. split; [done|]. split; [done|].
  unfold startNewGame in Hs'. set (s0 := updateScore _) in Hs'.
  assert (shaped (grid s0) /\ 0 <= bestScore s0) as [Hsh0 Hb0].
  { unfold s0, updateScore. cbn [bestScore score set_grid set_score set_hasWon set_isAnimating].
    destruct (bestScore s <? 0) eqn:Hlt; simpl;
      [apply Z.ltb_lt in Hlt | apply Z.ltb_ge in Hlt]; split; auto using filled_shaped; lia. }
  destruct (spawnTile_on_free s0 Hsh0)
    as (s1 & c1 & v1 & Hs1 & _ & Hv1 & Hput1 & _ & _ & Hb1 & _).
  { exists (Cell 0 0). unfold s0, updateScore. by destruct (_ <? _). }
  assert (shaped (grid s1)) as Hsh1 by eauto using put_shaped.
  destruct (spawnTile_spec s1 Hsh1) as (s2 & Hs2 & Hput2 & _ & Hb2 & _).
  rewrite Hs1, bind_Ok, Hs2 in Hs'. injection Hs' as <-.
  split; [|split; [lia|congruence]].
  destruct Hput2 as [->|(c2 & v2 & Hv2 & Hput2)].
  + exists c1, v1. split; [eauto using get_put_eq | destruct Hv1; lia].
  + exists c2, v2. split; [eauto using get_put_eq | destruct Hv2; lia].
Qed.

Lemma step_inPlay e s : inPlay s -> exists s', step e s = Ok s' /\ inPlay s'.
Proof.
  intros Hin. pose proof Hin as (Hg & Hv & Ht & Hsc & Hgd).
  destruct e as [d| |]; cbn [step].
  - unfold move. destruct (isAnimating s) eqn:Ha.
    { exists s. by rewrite bind_Ok. }
    destruct (resolve_inPlay d s Hin) as (s' & l & -> & Hg' & Hv' & Ht' & Hsc' & He & Hm).
    rewrite bind_Ok. unfold env in He. injection He as Hb _ _ _ _ _ _.
    destruct (moved l).
    + rewrite bind_Ok. eexists. split; [done|].
      unfold inPlay, updateScore. cbn [bestScore score set_isAnimating].
      destruct (bestScore s' <? score s') eqn:Hlt; simpl;
        [apply Z.ltb_lt in Hlt | apply Z.ltb_ge in Hlt];
        (split; [done|]); (split; [done|]); (split; [done|]); split; try lia; done.
    + rewrite bind_Ok, (Hm eq_refl). eauto.
  - destruct (pending s) as [|n] eqn:Hp; [eauto|].
    destruct (moveTimeout_outcome (set_pending n s) Hg)
      as (sp & s' & Hsp & -> & Hg' & Hgrid & Ha & _ & Hsc' & Hb' & _).
    exists s'. split; [done|]. simpl in Hsc', Hb'.
    destruct (spawnTile_spec (set_pending n s) Hg) as (sp' & Hsp' & Hput & _).
    rewrite Hsp in Hsp'. injection Hsp' as <-.
    destruct (spawnTile_invariant (set_pending n s) sp Hg Hsp) as [_ Hv'].
    split; [done|]. rewrite Hgrid. split; [auto|]. split; [|split; [lia|congruence]].
    destruct Hput as [->|(c & v & Hv2 & Hput)]; [done|].
    exists c, v. split; [eauto using get_put_eq | destruct Hv2; lia].
  - apply new_game_in_play.
Qed.

(** X16: from a new game on the session never fails, whatever state the
    game was started in and whatever commands and callbacks follow.
    The grid stays 4 x 4 with at least one tile and only powers of two
    from 2 on it, the score stays between 0 and the best score, and a
    set re-entrancy guard always has a callback scheduled. *)
Theorem game_in_progress_never_fails s0 es :
  exists s,
    run (ENewGame :: es) s0 = Ok s /\
    shaped (grid s) /\ valid (grid s) /\
    (exists c w, get (grid s) c = Ok w /\ w <> 0) /\
    0 <= score s <= bestScore s /\
    (isAnimating s = true -> pending s <> O).
Proof.
  assert (forall es s, inPlay s -> exists s', run es s = Ok s' /\ inPlay s') as Hrun.
  { clear. unfold run. induction es as [|e es IH]; intros s Hin; cbn [forEach]; [eauto|].
    destruct (step_inPlay e s Hin) as (s1 & -> & Hin1). rewrite bind_Ok. auto. }
  unfold run. cbn [forEach step].
  destruct (new_game_in_play s0) as (s1 & -> & Hin1). rewrite bind_Ok.
  destruct (Hrun es s1 Hin1) as (s & Hs & Hin). exists s. split; [exact Hs | exact Hin].
Qed.

(** ** The rule of the game on one line *)

Lemma accStep_filter st l :
  foldl accStep st (filter (fun v => v <> 0) l) = foldl accStep st l.
Proof.
  revert st. induction l as [|t l IH]; intros st; [done|].
  destruct (decide (t = 0)) as [->|Ht].
  - rewrite filter_cons_False by (intros H; by apply H). simpl. rewrite IH.
    by destruct st.
  - rewrite filter_cons_True by done. simpl. by rewrite IH.
Qed.

Lemma accStep_mergePairs l :
  Forall (fun v => v <> 0) l ->
  (forall rest mg, (mg = true \/ rest = []) ->
     reverse (foldl accStep (rest, mg) l).1 = reverse rest ++ mergePairs l) /\
  (forall a rest, a <> 0 ->
     reverse (foldl accStep (a :: rest, false) l).1 = reverse rest ++ mergePairs (a :: l)).
Proof.
  induction 1 as [|b l Hb Hl [IHclosed IHopen]].
  - split; intros; simpl; [by rewrite app_nil_r | by rewrite reverse_cons].
  - apply Z.eqb_neq in Hb as Hb'. split.
    + intros rest mg Hmg. cbn [foldl]. unfold accStep at 2. rewrite Hb'.
      destruct rest as [|u rest]; [by rewrite (IHopen b [])|].
      destruct Hmg as [->|?]; [|done]. rewrite andb_false_r.
      rewrite (IHopen b (u :: rest)) by done. done.
    + intros a rest Ha. cbn [foldl]. unfold accStep at 2. rewrite Hb'. cbn [negb].
      rewrite andb_true_r. cbn [mergePairs].
      destruct (a =? b) eqn:Hab.
      * apply Z.eqb_eq in Hab as ->.
        rewrite (IHclosed (b * 2 :: rest) true) by auto.
        rewrite reverse_cons, <- app_assoc. done.
      * rewrite (IHopen b (a :: rest)) by done.
        rewrite reverse_cons, <- app_assoc. done.
Qed.

(** Settling the cells of a line one at a time gives the tiles of
    [slide]. *)
Lemma collapse_mergePairs l :
  reverse (foldl accStep ([], false) l).1 = mergePairs (filter (fun v => v <> 0) l).
Proof.
  rewrite <- accStep_filter.
  assert (Forall (fun v => v <> 0) (filter (fun v => v <> 0) l)) as Hnz.
  { apply Forall_forall. intros v Hv%list_elem_of_In. by apply list_elem_of_filter in Hv as [? _]. }
  destruct (accStep_mergePairs _ Hnz) as [Hclosed _].
  by rewrite (Hclosed [] false) by auto.
Qed.

Lemma tileAt_cons a r i :
  0 <= i ->
  tileAt (a :: r) i =
    if decide (i < Z.of_nat (length r)) then tileAt r i
    else if decide (i = Z.of_nat (length r)) then a else 0.
Proof.
  intros Hi. unfold tileAt. rewrite reverse_cons.
  destruct (decide (i < Z.of_nat (length r))) as [Hlt|Hge].
  - apply app_nth1. rewrite length_reverse. lia.
  - rewrite app_nth2 by (rewrite length_reverse; lia). rewrite length_reverse.
    destruct (decide (i = Z.of_nat (length r))) as [->|Hne].
    + by rewrite Nat2Z.id, Nat.sub_diag.
    + destruct (Z.to_nat i - length r)%nat as [|[|n]] eqn:E; [lia|done..].
Qed.

Lemma tileAt_beyond rts i : Z.of_nat (length rts) <= i -> tileAt rts i = 0.
Proof. intros Hi. unfold tileAt. apply nth_overflow. rewrite length_reverse. lia. Qed.

Lemma tileAt_nonzero rts i :
  Forall (fun v => v <> 0) rts -> 0 <= i < Z.of_nat (length rts) -> tileAt rts i <> 0.
Proof.
  intros Hnz Hi. unfold tileAt.
  assert (Forall (fun v => v <> 0) (reverse rts)) as Hr by (by apply Forall_reverse).
  rewrite Forall_forall in Hr. apply Hr, nth_In. rewrite length_reverse. lia.
Qed.

Lemma tileAt_settled rts i :
  Forall (fun v => v <> 0) rts -> 0 <= i ->
  (tileAt rts i <> 0 <-> i < Z.of_nat (length rts)).
Proof.
  intros Hnz Hi. split.
  - intros Hv. destruct (decide (i < Z.of_nat (length rts))); [done|].
    rewrite tileAt_beyond in Hv by lia. done.
  - intros Hlt. apply tileAt_nonzero; auto.
Qed.

(** ** Lines and cells *)

Lemma cellAt_line_room d c :
  withinBounds c = true ->
  c = cellAt d (lineOf d c) (room d c) /\
  0 <= lineOf d c < GRID_SIZE /\ 0 <= room d c < GRID_SIZE.
Proof.
  rewrite withinBounds_spec. destruct c as [cx cy].
  destruct d; unfold cellAt, lineOf, room, GRID_SIZE; simpl; intros;
    (split; [f_equal; lia | lia]).
Qed.

Lemma within_cellAt d j i :
  0 <= j < GRID_SIZE -> withinBounds (cellAt d j i) = true <-> 0 <= i < GRID_SIZE.
Proof.
  intros Hj. rewrite withinBounds_spec.
  destruct d; unfold cellAt, GRID_SIZE in *; simpl; lia.
Qed.

Lemma shift_cellAt d j i n : shift (cellAt d j i) (vectors d) n = cellAt d j (i - n).
Proof. destruct d; unfold shift, cellAt; simpl; f_equal; lia. Qed.

Lemma cellAt_inj d j i j' i' : cellAt d j i = cellAt d j' i' -> j = j' /\ i = i'.
Proof. destruct d; unfold cellAt; intros [=]; lia. Qed.

Lemma line_lookup d g j (i : Z) :
  0 <= i < GRID_SIZE -> line d g j !! Z.to_nat i = Some (peek g (cellAt d j i)).
Proof.
  intros Hi. unfold line, positions. rewrite list_lookup_fmap.
  rewrite lookup_seqZ_lt by lia. simpl. do 3 f_equal. lia.
Qed.

Lemma line_length d g j : length (line d g j) = Z.to_nat GRID_SIZE.
Proof. unfold line, positions. by rewrite length_fmap, length_seqZ. Qed.

Lemma line_take_S d g j (m : Z) :
  0 <= m < GRID_SIZE ->
  take (Z.to_nat (m + 1)) (line d g j)
  = take (Z.to_nat m) (line d g j) ++ [peek g (cellAt d j m)].
Proof.
  intros Hm. replace (Z.to_nat (m + 1)) with (S (Z.to_nat m)) by lia.
  by apply take_S_r, line_lookup.
Qed.

Lemma lineOf_cellAt d j i : lineOf d (cellAt d j i) = j.
Proof. by destruct d. Qed.

(** ** A move settles each line by itself *)

Lemma tileAct_other_line d c s l s' l' q :
  tileAct d c (s, l) (s', l') ->
  lineOf d q <> lineOf d c ->
  get (grid s') q = get (grid s) q /\ get (merged l') q = get (merged l) q.
Proof.
  intros Hact Hq.
  assert (q <> c) as Hqc by congruence.
  assert (forall n, q <> shift c (vectors d) n) as Hqs.
  { intros n ->. apply Hq. destruct c, d; unfold lineOf, shift; simpl; lia. }
  inversion Hact as [? ? Hc0|? ? tile Htile Hnz Hobs
                    |? ? tile k g1 g2 Htile Hnz Hk Hpath Hobs Hp1 Hp2
                    |? ? tile k g1 g2 m1 Htile Hnz Hk Hpath Hin Hnxt Hflag Hp1 Hp2 Hp3];
    subst; simpl; auto.
  - split; [|done].
    rewrite (get_put_put _ _ _ _ _ _ q Hp1 Hp2), decide_False by done.
    by rewrite decide_False by apply Hqs.
  - split.
    + rewrite (get_put_put _ _ _ _ _ _ q Hp1 Hp2), decide_False by done.
      by rewrite decide_False by apply Hqs.
    + apply (get_put_ne _ _ _ _ _ Hp3). intros H. by apply (Hqs (k + 1)).
Qed.

Lemma get_put_put_line d j a c v g g1 g2 i :
  put g (cellAt d j a) v = Ok g1 -> put g1 (cellAt d j c) 0 = Ok g2 ->
  get g2 (cellAt d j i) = if decide (i = c) then Ok 0
                          else if decide (i = a) then Ok v else get g (cellAt d j i).
Proof.
  intros H1 H2. rewrite (get_put_put _ _ _ _ _ _ (cellAt d j i) H1 H2).
  destruct (decide (i = c)) as [->|Hc].
  - by rewrite decide_True.
  - rewrite decide_False by (intros [_ ?]%cellAt_inj; done).
    destruct (decide (i = a)) as [->|Ha].
    + by rewrite decide_True.
    + by rewrite decide_False by (intros [_ ?]%cellAt_inj; done).
Qed.

Lemma accStep_append rts lm tile :
  tile <> 0 ->
  rts = [] \/ (exists u rest, rts = u :: rest /\ (u <> tile \/ lm = true)) ->
  accStep (rts, lm) tile = (tile :: rts, false).
Proof.
  intros Hnz H. unfold accStep. rewrite (proj2 (Z.eqb_neq tile 0)) by done.
  destruct H as [->|(u & rest & -> & [Hne| ->])]; [done| |].
  - by rewrite (proj2 (Z.eqb_neq u tile)) by done.
  - by rewrite andb_false_r.
Qed.

Lemma accStep_merge rest tile :
  tile <> 0 -> accStep (tile :: rest, false) tile = (tile * 2 :: rest, true).
Proof.
  intros Hnz. unfold accStep. rewrite (proj2 (Z.eqb_neq tile 0)) by done.
  by rewrite Z.eqb_refl.
Qed.

Lemma tileAct_lineProgress d g0 pre c suf s l s' l' :
  cellOrder d = pre ++ c :: suf ->
  shaped g0 -> shaped (grid s) -> shaped (merged l) ->
  (forall j, 0 <= j < GRID_SIZE -> lineProgress d g0 pre (grid s) (merged l) j) ->
  tileAct d c (s, l) (s', l') ->
  forall j, 0 <= j < GRID_SIZE -> lineProgress d g0 (pre ++ [c]) (grid s') (merged l') j.
Proof.
  intros E Hg0 Hg Hmg IH Hact j Hj.
  assert (withinBounds c = true) as Hc.
  { apply (elem_of_cellOrder d). rewrite E. apply elem_of_middle. }
  destruct (cellAt_line_room d c Hc) as (Ec & Hjc & Hic).
  destruct (decide (j = lineOf d c)) as [->|Hne].
  2: { destruct (IH j Hj) as (m & rts & lm & Hm0 & Hpre & Hfold & Hnz & Hlen & Hval & Hrest & Hfl & Hlast).
       assert (forall i, get (grid s') (cellAt d j i) = get (grid s) (cellAt d j i) /\
                         get (merged l') (cellAt d j i) = get (merged l) (cellAt d j i)) as Hsame.
       { intros i. apply (tileAct_other_line d c); [done|]. by rewrite lineOf_cellAt. }
       exists m, rts, lm. split; [done|]. split.
       { intros i Hi. rewrite elem_of_snoc, <- (Hpre i Hi). split; [|tauto].
         intros [?| Heq]; [done|]. exfalso. apply Hne.
         rewrite <- Heq. by rewrite lineOf_cellAt. }
       do 3 (split; [done|]).
       split; [intros i Hi; rewrite (proj1 (Hsame i)); auto|].
       split; [intros i Hi; rewrite (proj1 (Hsame i)); auto|].
       split; [intros i Hi; rewrite (proj2 (Hsame i)); auto|].
       intros Hr. rewrite (proj2 (Hsame _)); auto. }
  remember (lineOf d c) as jc eqn:Ejc. remember (room d c) as ic eqn:Eic.
  clear Ejc Eic. subst c.
  assert (forall n, shift (cellAt d jc ic) (vectors d) n = cellAt d jc (ic - n)) as Hsh
    by (intros; apply shift_cellAt).
  destruct (IH jc Hjc) as (m & rts & lm & Hm0 & Hpre & Hfold & Hnz & Hlen & Hval & Hrest & Hfl & Hlast).
  assert (m = ic) as ->.
  { pose proof (current_not_in_prefix d pre _ suf E) as Hnot.
    rewrite (Hpre ic Hic) in Hnot.
    destruct (decide (m < ic)) as [Hlt|]; [|lia]. exfalso.
    assert (cellAt d jc m ∈ pre) as Hin.
    { replace m with (ic - (ic - m)) by lia. rewrite <- Hsh.
      apply (ahead_in_prefix d pre _ suf); [done|lia|].
      rewrite Hsh. apply within_cellAt; [done|lia]. }
    apply Hpre in Hin; lia. }
  assert (forall i, 0 <= i < GRID_SIZE ->
            cellAt d jc i ∈ pre ++ [cellAt d jc ic] <-> i < ic + 1) as Hpre'.
  { intros i Hi. rewrite elem_of_snoc, (Hpre i Hi). split.
    - intros [?|[_ ?]%cellAt_inj]; lia.
    - intros Hlt. destruct (decide (i = ic)) as [->|]; [by right|left; lia]. }
  assert (forall tile, get (grid s) (cellAt d jc ic) = Ok tile ->
            foldl accStep ([], false) (take (Z.to_nat (ic + 1)) (line d g0 jc))
            = accStep (rts, lm) tile) as Hfold'.
  { intros tile Htile. rewrite line_take_S by lia. rewrite foldl_app, Hfold. simpl.
    rewrite Hrest in Htile by lia. apply (get_iff_peek _ _ _ Hg0) in Htile as [_ ->]. done. }
  assert (forall i, 0 <= i < ic -> get (grid s) (cellAt d jc i) = Ok 0 ->
            Z.of_nat (length rts) <= i) as Hempty.
  { intros i Hi H0. rewrite Hval in H0 by lia. apply Ok_inj in H0.
    destruct (decide (i < Z.of_nat (length rts))) as [Hlt|]; [|lia].
    exfalso. apply (tileAt_nonzero rts i); auto. lia. }
  assert (forall i w, 0 <= i < ic -> get (grid s) (cellAt d jc i) = Ok w -> w <> 0 ->
            i < Z.of_nat (length rts)) as Htile'.
  { intros i w Hi Hw Hw0. rewrite Hval in Hw by lia. apply Ok_inj in Hw. subst w.
    apply tileAt_settled in Hw0; auto. lia. }
  assert (forall tile k, tile <> 0 -> 0 <= k <= ic ->
            Z.of_nat (length rts) <= ic - k ->
            obstacle (grid s) (merged l) tile (cellAt d jc (ic - k - 1)) ->
            accStep (rts, lm) tile = (tile :: rts, false) /\
            Z.of_nat (length rts) = ic - k) as Happ.
  { intros tile k Ht Hk Hle [Hout|(w & Hw & Hw0 & Hor)].
    - assert (~ 0 <= ic - k - 1 < GRID_SIZE) as Hp.
      { intros Hp. apply (within_cellAt d jc) in Hp; [congruence|done]. }
      assert (rts = []) as -> by (destruct rts; [done|simpl in Hle; lia]).
      split; [apply accStep_append; auto|simpl; lia].
    - assert (0 <= ic - k - 1 < GRID_SIZE) as Hp.
      { apply (within_cellAt d jc); [done|]. exact (get_Ok_within _ _ _ Hg Hw). }
      pose proof (Htile' (ic - k - 1) w ltac:(lia) Hw Hw0) as Hlt.
      destruct rts as [|u rest]; [simpl in Hlt; lia|]. simpl in Hle, Hlt.
      assert (Z.of_nat (length rest) = ic - k - 1) as Hrest' by lia.
      split; [|simpl; lia]. apply accStep_append; [done|]. right. exists u, rest.
      split; [done|].
      assert (u = w) as ->.
      { rewrite Hval in Hw by lia. apply Ok_inj in Hw.
        rewrite tileAt_cons in Hw by lia.
        rewrite decide_False, decide_True in Hw by lia. done. }
      destruct Hor as [?|Hflag]; [by left|right].
      assert (get (merged l) (cellAt d jc (ic - k - 1)) = Ok lm) as Hlm.
      { rewrite <- Hlast by done. do 2 f_equal. simpl. lia. }
      congruence. }
  assert (forall tile k, tile <> 0 -> 0 <= k <= ic ->
            Z.of_nat (length rts) <= ic - k ->
            get (grid s) (cellAt d jc (ic - k - 1)) = Ok tile ->
            get (merged l) (cellAt d jc (ic - k - 1)) = Ok false ->
            exists rest, rts = tile :: rest /\ lm = false /\
                         Z.of_nat (length rest) = ic - k - 1) as Hmrg.
  { intros tile k Ht Hk Hle Hw Hflag.
    assert (0 <= ic - k - 1 < GRID_SIZE) as Hp.
    { apply (within_cellAt d jc); [done|]. exact (get_Ok_within _ _ _ Hg Hw). }
    pose proof (Htile' (ic - k - 1) tile ltac:(lia) Hw Ht) as Hlt.
    destruct rts as [|u rest]; [simpl in Hlt; lia|]. simpl in Hle, Hlt.
    exists rest.
    assert (get (merged l) (cellAt d jc (ic - k - 1)) = Ok lm) as Hlm.
    { rewrite <- Hlast by done. do 2 f_equal. simpl. lia. }
    rewrite Hval in Hw by lia. apply Ok_inj in Hw.
    rewrite tileAt_cons in Hw by lia.
    rewrite decide_False, decide_True in Hw by lia.
    split; [congruence|]. split; [congruence|lia]. }
  assert (forall k, 1 <= k -> clearPath (grid s) (cellAt d jc ic) (vectors d) k ->
            0 <= k <= ic /\ Z.of_nat (length rts) <= ic - k) as Hclear.
  { intros k Hk Hpath. destruct (Hpath k ltac:(lia)) as [Hin H0].
    rewrite Hsh in Hin, H0. apply (within_cellAt d jc) in Hin; [|done].
    split; [lia|]. apply Hempty; [lia|done]. }
  inversion Hact as [? ? Hc0|? ? tile Htile Hnz0 Hobs
                    |? ? tile k g1 g2 Htile Hnz0 Hk Hpath Hobs Hp1 Hp2
                    |? ? tile k g1 g2 m1 Htile Hnz0 Hk Hpath Hin Hnxt Hflag Hp1 Hp2 Hp3];
    subst; simpl.
  - exists (ic + 1), rts, lm.
    split; [lia|]. split; [done|].
    split; [by rewrite (Hfold' 0 Hc0)|]. split; [done|]. split; [lia|].
    split.
    { intros i Hi. destruct (decide (i = ic)) as [->|].
      - by rewrite Hc0, tileAt_beyond.
      - apply Hval. lia. }
    split; [intros i Hi; apply Hrest; lia|]. done.
  - rewrite Hsh in Hobs.
    destruct (Happ tile 0 Hnz0 ltac:(lia) ltac:(lia)) as [Hacc Hl].
    { by replace (ic - 0 - 1) with (ic - 1) by lia. }
    exists (ic + 1), (tile :: rts), false.
    split; [lia|]. split; [done|].
    split; [by rewrite (Hfold' tile Htile)|].
    split; [by constructor|]. split; [simpl; lia|].
    split.
    { intros i Hi. rewrite tileAt_cons by lia.
      destruct (decide (i < Z.of_nat (length rts))); [apply Hval; lia|].
      rewrite decide_True by lia. by replace i with ic by lia. }
    split; [intros i Hi; apply Hrest; lia|].
    split; [intros i Hi; apply Hfl; simpl in Hi; lia|].
    intros _. apply Hfl. simpl. lia.
  - destruct (Hclear k Hk Hpath) as [Hk' Hle].
    rewrite Hsh in Hobs. replace (ic - (k + 1)) with (ic - k - 1) in Hobs by lia.
    destruct (Happ tile k Hnz0 Hk' Hle Hobs) as [Hacc Hl].
    rewrite Hsh in Hp1.
    pose proof (fun i => get_put_put_line d jc _ _ _ _ _ _ i Hp1 Hp2) as Hnew.
    exists (ic + 1), (tile :: rts), false.
    split; [lia|]. split; [done|].
    split; [by rewrite (Hfold' tile Htile)|].
    split; [by constructor|]. split; [simpl; lia|].
    split.
    { intros i Hi. rewrite Hnew, tileAt_cons by lia.
      destruct (decide (i = ic)) as [->|Hne].
      { by rewrite !decide_False by lia. }
      destruct (decide (i = ic - k)) as [->|Hne'].
      { by rewrite decide_False, decide_True by lia. }
      destruct (decide (i < Z.of_nat (length rts))); [apply Hval; lia|].
      rewrite decide_False by lia. rewrite Hval by lia.
      by rewrite tileAt_beyond by lia. }
    split.
    { intros i Hi. rewrite Hnew, !decide_False by lia. apply Hrest. lia. }
    split; [intros i Hi; apply Hfl; simpl in Hi; lia|].
    intros _. apply Hfl. simpl. lia.
  - assert (0 <= k <= ic /\ Z.of_nat (length rts) <= ic - k) as [Hk' Hle].
    { destruct (decide (k = 0)) as [->|]; [lia|]. apply Hclear; [lia|done]. }
    rewrite Hsh in Hin, Hnxt, Hflag, Hp1, Hp3.
    replace (ic - (k + 1)) with (ic - k - 1) in * by lia.
    destruct (Hmrg tile k Hnz0 Hk' Hle Hnxt Hflag) as (rest & -> & -> & Hl).
    pose proof (fun i => get_put_put_line d jc _ _ _ _ _ _ i Hp1 Hp2) as Hnew.
    exists (ic + 1), (tile * 2 :: rest), true.
    split; [lia|]. split; [done|].
    split; [by rewrite (Hfold' tile Htile), accStep_merge|].
    inversion Hnz as [|? ? _ Hnz']; subst.
    split; [constructor; [lia|done]|]. split; [simpl in *; lia|].
    split.
    { intros i Hi. rewrite Hnew, tileAt_cons by lia.
      destruct (decide (i = ic)) as [->|Hne].
      { by rewrite !decide_False by lia. }
      destruct (decide (i = ic - k - 1)) as [->|Hne'].
      { by rewrite decide_False, decide_True by lia. }
      rewrite Hval by lia. rewrite tileAt_cons by lia.
      destruct (decide (i < Z.of_nat (length rest))); [done|].
      by rewrite !decide_False by lia. }
    split.
    { intros i Hi. rewrite Hnew, !decide_False by lia. apply Hrest. lia. }
    split.
    { intros i Hi. simpl in Hi.
      rewrite (get_put_ne _ _ _ _ _ Hp3) by (intros [_ ?]%cellAt_inj; lia).
      apply Hfl. simpl. lia. }
    intros _. simpl length.
    replace (Z.of_nat (S (length rest)) - 1) with (ic - k - 1) by lia.
    eapply get_put_eq; eauto.
Qed.

Lemma lookup_padded (t : list Z) (n i : nat) :
  (length t <= n)%nat -> (i < n)%nat ->
  (t ++ replicate (n - length t) 0) !! i = Some (nth i t 0).
Proof.
  intros Hn Hi. destruct (decide (i < length t)%nat) as [Hlt|Hge].
  - rewrite lookup_app_l by done.
    destruct (lookup_lt_is_Some_2 t i Hlt) as [v Hv]. rewrite Hv.
    f_equal. symmetry. by apply nth_lookup_Some with (d := 0) in Hv.
  - rewrite lookup_app_r by lia. rewrite nth_overflow by lia.
    apply lookup_replicate. split; [done|lia].
Qed.

Lemma resolve_lines d s :
  shaped (grid s) ->
  exists s' l,
    resolve d s = Ok (s', l) /\
    forall j, 0 <= j < GRID_SIZE -> line d (grid s') j = slide (line d (grid s) j).
Proof.
  intros Hg.
  destruct (resolve_prefix_invariant
    (fun pre sl => forall j, 0 <= j < GRID_SIZE ->
       lineProgress d (grid s) pre (grid sl.1) (merged sl.2) j) d s Hg)
    as ([s' l] & Hr & HI & Hg').
  - intros j Hj. simpl. exists 0, [], false.
    split; [unfold GRID_SIZE; lia|]. split.
    { intros i Hi. split; [by intros ?%elem_of_nil|lia]. }
    split; [done|]. split; [done|]. split; [simpl; lia|].
    split; [intros; lia|]. split; [done|]. split; [|done].
    intros i Hi. simpl in Hi.
    destruct (get_within (filled false) (cellAt d j i)) as [b Hb].
    { apply filled_shaped. } { by apply within_cellAt. }
    rewrite Hb. f_equal. by apply filled_get in Hb.
  - intros pre c suf [s1 l1] [s2 l2] E Hg1 Hm1 IH Hact. simpl in *.
    eapply tileAct_lineProgress; eauto.
  - exists s', l. split; [done|]. intros j Hj. simpl in *.
    destruct (HI j Hj) as (m & rts & lm & Hm0 & Hpre & Hfold & Hnz & Hlen & Hval & _).
    assert (m = GRID_SIZE) as ->.
    { assert (GRID_SIZE - 1 < m); [|lia]. apply Hpre; [unfold GRID_SIZE; lia|].
      apply elem_of_cellOrder, within_cellAt; unfold GRID_SIZE; [done|lia]. }
    rewrite take_ge in Hfold by (by rewrite line_length).
    pose proof (collapse_mergePairs (line d (grid s) j)) as Hcol.
    rewrite Hfold in Hcol. simpl in Hcol.
    unfold slide. rewrite <- Hcol. rewrite line_length.
    apply list_eq. intros n.
    destruct (decide (n < Z.to_nat GRID_SIZE)%nat) as [Hn|Hn].
    + rewrite lookup_padded; [|rewrite length_reverse; lia|done].
      replace n with (Z.to_nat (Z.of_nat n)) at 1 by lia.
      rewrite line_lookup by lia. f_equal.
      specialize (Hval (Z.of_nat n) ltac:(lia)).
      apply (get_iff_peek _ _ _ Hg') in Hval as [_ ->].
      unfold tileAt. by rewrite Nat2Z.id.
    + rewrite !lookup_ge_None_2; [done| |].
      * rewrite length_app, length_replicate, length_reverse. lia.
      * rewrite line_length. lia.
Qed.

(** X17: a move that is not held back by a running animation rewrites
    every line of the grid, read from the edge the tiles move to, by the
    rule of the game: the tiles keep their order and close up against
    that edge, equal neighbours merge in pairs starting at the edge, each
    tile merging at most once, and the rest of the line is empty. *)
Theorem move_slides_each_line d s :
  isAnimating s = false -> shaped (grid s) ->
  exists s' changed,
    move d s = Ok (s', changed) /\
    forall j, 0 <= j < GRID_SIZE -> line d (grid s') j = slide (line d (grid s) j).
Proof.
  intros Ha Hg. unfold move. rewrite Ha.
  destruct (resolve_lines d s Hg) as (s' & l & -> & Hl). rewrite bind_Ok.
  destruct (moved l).
  - eexists _, true. split; [done|].
    unfold updateScore. destruct (_ <? _); simpl; done.
  - by exists s', false.
Qed.

Lemma move_slides_each_line_witness :
  exists s' changed,
    move left (mk [[2; 2; 2; 2]; [0; 4; 4; 8]; [2; 0; 2; 4]; [8; 8; 16; 0]])
      = Ok (s', changed) /\
    forall j, 0 <= j < GRID_SIZE ->
      line left (grid s') j
      = slide (line left (grid (mk [[2; 2; 2; 2]; [0; 4; 4; 8]; [2; 0; 2; 4]; [8; 8; 16; 0]])) j).
Proof.
  apply (move_slides_each_line left
           (mk [[2; 2; 2; 2]; [0; 4; 4; 8]; [2; 0; 2; 4]; [8; 8; 16; 0]])).
  - reflexivity.
  - split; [reflexivity | repeat constructor].
Defined.
